(** * Windowed convolution / pooling engine: a shallow embedding

    The development follows [dnn/layers/utils/conv_utils.py],
    [dnn/layers/maxpool2d.py], [dnn/layers/avgpool2d.py],
    [dnn/layers/base_conv.py] and [dnn/layers/concatenate.py]; numpy is
    modelled as far as these files use it.

    Conventions of the embedding.
    - A Python [int] is a [Z]; a shape entry or an index that has already
      been normalised is a [nat].
    - A Python [float] is a rational ([Q]).  The entries of a tensor are
      computed exactly.  The shape arithmetic of [compute_conv_padding]
      and [compute_conv_output_dim] is given twice: exactly, which is what
      the layers are built on, and in IEEE 754 double precision with
      [OverflowError], as the interpreter computes it; the two are proved
      to agree while the sizes stay within [2 ^ 52].  [math.ceil] is
      [Qceiling], [int(_)] truncates toward zero.
    - A call that may raise returns a [result]; the constructor of [exn]
      names the Python exception class. *)

From Stdlib Require Import ZArith QArith Qround Qpower Lqa String
  DecimalString List Bool Lia Arith.
Import ListNotations.

Set Implicit Arguments.

Open Scope Z_scope.

(** ** Exceptions and the error monad *)

Inductive exn : Type :=
| ValueError (msg : string)
| IndexError
| AxisError
| TypeError
| StopIteration
| ZeroDivisionError
| OverflowError.

Inductive result (A : Type) : Type :=
| Ok (a : A)
| Raise (e : exn).

Arguments Ok {A} a.
Arguments Raise {A} e.

Definition bind {A B : Type} (r : result A) (k : A -> result B) : result B :=
  match r with
  | Ok a => k a
  | Raise e => Raise e
  end.

Notation "x <- r ;; k" := (bind r (fun x => k))
  (at level 61, r at next level, right associativity).
Notation "' p <- r ;; k" := (bind r (fun x => let p := x in k))
  (at level 61, p pattern, r at next level, right associativity).

Definition raises {A : Type} (r : result A) : bool :=
  match r with
  | Ok _ => false
  | Raise _ => true
  end.

(** [repr] of a non-negative int, as an f-string or an error message
    prints it. *)
Definition repr_nat (n : nat) : string :=
  NilEmpty.string_of_uint (Nat.to_uint n).

(** The message of a tuple unpacking that finds [got] values where it
    needs [expected], more than [got]. *)
Definition not_enough_values (expected got : nat) : string :=
  ("not enough values to unpack (expected " ++ repr_nat expected
   ++ ", got " ++ repr_nat got ++ ")")%string.

(** ** Shape and padding arithmetic ([conv_utils.py], lines 8-18) *)

(** [int(x)] on a float: truncation toward zero. *)
Definition py_int (x : Q) : Z := Z.quot (Qnum x) (Zpos (Qden x)).

(** [a / b] on two ints: true division, [ZeroDivisionError] when [b = 0]. *)
Definition py_truediv (a b : Z) : result Q :=
  if b =? 0 then Raise ZeroDivisionError
  else Ok (inject_Z a / inject_Z b)%Q.

(** [compute_conv_padding(kernel_size, mode)]. *)
Definition compute_conv_padding (kernel_size : Z * Z) (mode : string)
  : Z * Z :=
  if String.eqb mode "same" then
    let '(kH, kW) := kernel_size in
    (Qceiling (inject_Z (kH - 1) / 2), Qceiling (inject_Z (kW - 1) / 2))
  else (0, 0).

(** [compute_conv_output_dim(n, f, p, s)]:
    [int((n - f + 2 * p) / s + 1)], with the quotient and the sum taken
    exactly.  This is the reading the layers below are built on; the
    interpreter rounds both to a double, which
    [compute_conv_output_dim_double] reproduces. *)
Definition compute_conv_output_dim (n f p s : Z) : result Z :=
  q <- py_truediv (n - f + 2 * p) s ;;
  Ok (py_int (q + 1)%Q).

(** *** The same arithmetic in double precision

    A Python float is an IEEE 754 binary64 number: the finite ones are the
    rationals [m * 2 ^ e] with [|m| < 2 ^ 53] and [-1074 <= e <= 971].
    Every operation returns the double nearest to the exact result, ties
    going to the even significand.  A finite double is represented by its
    rational value (the sign of a zero is not kept), an infinite one by
    [None]. *)

Definition pow2 (e : Z) : Q := (2 ^ e)%Q.

(** The exponent [e] with [2 ^ e <= x < 2 ^ (e + 1)], for positive [x]. *)
Definition binade (x : Q) : Z :=
  let d := Z.log2 (Qnum x) - Z.log2 (Zpos (Qden x)) in
  if Qle_bool (pow2 d) x then d else d - 1.

(** The nearest integer, a tie going to the even one. *)
Definition round_half_even (x : Q) : Z :=
  let n := Qfloor x in
  match (x - inject_Z n ?= 1 # 2)%Q with
  | Lt => n
  | Gt => n + 1
  | Eq => if Z.even n then n else n + 1
  end.

(** The nearest multiple of the spacing of the doubles around a positive
    [x]: [2 ^ (binade x - 52)], and [2 ^ -1074] in the subnormal range. *)
Definition round_to_spacing (x : Q) : Q :=
  let e := Z.max (binade x - 52) (-1074) in
  (inject_Z (round_half_even (x / pow2 e)) * pow2 e)%Q.

(** The double nearest to [x]; a magnitude that rounds to [2 ^ 1024] or
    more overflows to an infinity. *)
Definition round_double (x : Q) : option Q :=
  match (x ?= 0)%Q with
  | Eq => Some 0%Q
  | Gt => let r := round_to_spacing x in
          if Qle_bool (pow2 1024) r then None else Some r
  | Lt => let r := round_to_spacing (- x) in
          if Qle_bool (pow2 1024) r then None else Some (- r)%Q
  end.

(** [a / b] on two ints, as the interpreter computes it: the correctly
    rounded quotient, [ZeroDivisionError] when [b = 0] and
    [OverflowError] when the quotient is too large for a float. *)
Definition py_truediv_double (a b : Z) : result Q :=
  if b =? 0 then Raise ZeroDivisionError
  else match round_double (inject_Z a / inject_Z b) with
       | Some q => Ok q
       | None => Raise OverflowError
       end.

(** [x + y] on two floats; [None] is an infinity. *)
Definition py_add_double (x y : Q) : option Q := round_double (x + y).

(** [int(x)] on a float that may be infinite: [OverflowError] on an
    infinity. *)
Definition py_int_double (x : option Q) : result Z :=
  match x with
  | Some q => Ok (py_int q)
  | None => Raise OverflowError
  end.

(** [ceil(x)] of [math] on a finite float. *)
Definition py_ceil (x : Q) : Z := Qceiling x.

(** [compute_conv_padding(kernel_size, mode)], lines 8-14, with the
    halves computed in double precision. *)
Definition compute_conv_padding_double (kernel_size : Z * Z) (mode : string)
  : result (Z * Z) :=
  if String.eqb mode "same" then
    let '(kH, kW) := kernel_size in
    qH <- py_truediv_double (kH - 1) 2 ;;
    qW <- py_truediv_double (kW - 1) 2 ;;
    Ok (py_ceil qH, py_ceil qW)
  else Ok (0, 0).

(** [compute_conv_output_dim(n, f, p, s)], lines 17-18, in double
    precision: the quotient is rounded, then the sum with [1.0]. *)
Definition compute_conv_output_dim_double (n f p s : Z) : result Z :=
  q <- py_truediv_double (n - f + 2 * p) s ;;
  py_int_double (py_add_double q 1).

Close Scope Z_scope.
Open Scope nat_scope.

(** ** N-dimensional arrays

    A numpy array is its shape together with the map from a multi-index to
    the element stored there; axis 0 is the head of both lists.  Only the
    values at indices inside the shape are meaningful. *)

Record ndarray (A : Type) : Type := NdArray {
  shape : list nat;
  item : list nat -> A
}.

Arguments NdArray {A} shape item.

(** The element types the engine stores: a zero and an addition. *)
Class Dtype (A : Type) : Type := {
  zero : A;
  add : A -> A -> A
}.

#[export] Instance Dtype_Q : Dtype Q := {| zero := 0%Q; add := Qplus |}.
#[export] Instance Dtype_bool : Dtype bool := {| zero := false; add := orb |}.

Definition prod (l : list nat) : nat := fold_right Nat.mul 1 l.

Fixpoint in_bounds (sh idx : list nat) : bool :=
  match sh, idx with
  | [], [] => true
  | d :: sh', i :: idx' => (i <? d) && in_bounds sh' idx'
  | _, _ => false
  end.

(** Row-major flattening of a multi-index, and its inverse. *)
Fixpoint ravel_index (sh idx : list nat) : nat :=
  match sh, idx with
  | _ :: sh', i :: idx' => i * prod sh' + ravel_index sh' idx'
  | _, _ => 0
  end.

Fixpoint unravel_index (sh : list nat) (n : nat) : list nat :=
  match sh with
  | [] => []
  | _ :: sh' => n / prod sh' :: unravel_index sh' (n mod prod sh')
  end.

Fixpoint list_eqb (l1 l2 : list nat) : bool :=
  match l1, l2 with
  | [], [] => true
  | a :: l1', b :: l2' => (a =? b) && list_eqb l1' l2'
  | _, _ => false
  end.

(** Position of the first occurrence of [a] in [l] ([length l] if none). *)
Fixpoint index_of (a : nat) (l : list nat) : nat :=
  match l with
  | [] => 0
  | b :: l' => if a =? b then 0 else S (index_of a l')
  end.

(** An axis argument: negative axes count from the last one. *)
Definition normalize_axis (rank : nat) (axis : Z) : result nat :=
  if ((- Z.of_nat rank <=? axis) && (axis <? Z.of_nat rank))%Z
  then Ok (Z.to_nat (if (axis <? 0)%Z then axis + Z.of_nat rank else axis))
  else Raise AxisError.

Section NdArray.
Context {A : Type}.

Definition ndim (X : ndarray A) : nat := length (shape X).
Definition size (X : ndarray A) : nat := prod (shape X).

(** [np.zeros(shape)]. *)
Definition np_zeros {DA : Dtype A} (sh : list nat) : ndarray A :=
  NdArray sh (fun _ => zero).

(** *** Basic slicing *)

(** One entry of a subscript: [:] or [start:stop]. *)
Inductive slice : Type :=
| Full
| Range (start stop : Z).

(** Python's normalisation of one slice bound against an axis of
    length [d]: negative bounds count from the end, and everything is
    clipped to the axis. *)
Definition clamp (d : nat) (i : Z) : Z :=
  if (i <? 0)%Z then Z.max (i + Z.of_nat d) 0 else Z.min i (Z.of_nat d).

(** First selected position and number of selected positions. *)
Definition slice_bounds (d : nat) (s : slice) : nat * nat :=
  match s with
  | Full => (0, d)
  | Range a b =>
      (Z.to_nat (clamp d a), Z.to_nat (clamp d b - clamp d a))
  end.

Definition bounds (sh : list nat) (specs : list slice) : list (nat * nat) :=
  map (fun ds => slice_bounds (fst ds) (snd ds)) (combine sh specs).

Definition shift (b : list (nat * nat)) (idx : list nat) : list nat :=
  map (fun bi => fst (fst bi) + snd bi) (combine b idx).

Definition unshift (b : list (nat * nat)) (idx : list nat) : list nat :=
  map (fun bi => snd bi - fst (fst bi)) (combine b idx).

Definition in_box (b : list (nat * nat)) (idx : list nat) : bool :=
  forallb (fun bi => (fst (fst bi) <=? snd bi)
                     && (snd bi <? fst (fst bi) + snd (fst bi)))
          (combine b idx).

(** [X[s0, s1, ...]]: missing trailing axes are taken whole. *)
Definition expand_trailing (rank : nat) (specs : list slice)
  : result (list slice) :=
  if length specs <=? rank
  then Ok (specs ++ repeat Full (rank - length specs))
  else Raise IndexError.

(** [X[..., s0, s1]]: the ellipsis stands for the leading axes. *)
Definition expand_ellipsis (rank : nat) (specs : list slice)
  : result (list slice) :=
  if length specs <=? rank
  then Ok (repeat Full (rank - length specs) ++ specs)
  else Raise IndexError.

(** Reading a slice, one spec per axis. *)
Definition np_getslice (X : ndarray A) (specs : list slice) : ndarray A :=
  let b := bounds (shape X) specs in
  NdArray (map snd b) (fun idx => item X (shift b idx)).

(** *** Broadcasting *)

Definition bcast_dim_ok (dv dl : nat) : bool := (dv =? dl) || (dv =? 1).

(** Can an operand of shape [vs] be broadcast to exactly [ls]? *)
Definition broadcastable_to (vs ls : list nat) : bool :=
  (length vs <=? length ls)
  && forallb (fun p => bcast_dim_ok (fst p) (snd p))
             (combine (rev vs) (rev ls)).

(** The index read in an operand of shape [vs] for the result index
    [idx]: trailing axes are aligned, axes of length 1 are repeated. *)
Definition bcast_index (vs idx : list nat) : list nat :=
  map (fun p => if fst p =? 1 then 0 else snd p)
      (combine vs (skipn (length idx - length vs) idx)).

(** [X[specs] += V], one spec per axis of [X]. *)
Definition np_iadd_slice {DA : Dtype A} (X : ndarray A) (specs : list slice)
  (V : ndarray A) : result (ndarray A) :=
  let b := bounds (shape X) specs in
  if broadcastable_to (shape V) (map snd b) then
    Ok (NdArray (shape X)
          (fun idx =>
             if in_box b idx
             then add (item X idx)
                      (item V (bcast_index (shape V) (unshift b idx)))
             else item X idx))
  else Raise (ValueError "operands could not be broadcast together").

(** *** Integer indexing, [X[:, k, ...]] and [X[0]] *)

Definition np_select_axis1 (X : ndarray A) (k : nat) : result (ndarray A) :=
  match shape X with
  | d0 :: d1 :: rest =>
      if k <? d1
      then Ok (NdArray (d0 :: rest)
                 (fun idx => match idx with
                             | i0 :: idx' => item X (i0 :: k :: idx')
                             | [] => item X []
                             end))
      else Raise IndexError
  | _ => Raise IndexError
  end.

(** [a, b = X]: iteration over axis 0, which must have length 2. *)
Definition unpack2 (X : ndarray A) : result (ndarray A * ndarray A) :=
  match shape X with
  | [] => Raise (ValueError "iteration over a 0-d array")
  | d0 :: rest =>
      if d0 =? 2
      then Ok (NdArray rest (fun idx => item X (0 :: idx)),
               NdArray rest (fun idx => item X (1 :: idx)))
      else if d0 <? 2
      then Raise (ValueError (not_enough_values 2 d0))
      else Raise (ValueError "too many values to unpack (expected 2)")
  end.

(** *** Reshape *)

(** The target shape of [reshape], with at most one [-1] inferred from
    the number of elements. *)
Definition resolve_shape (n : nat) (newshape : list Z)
  : result (list nat) :=
  if existsb (fun d => (d <? -1)%Z) newshape
  then Raise (ValueError "negative dimensions not allowed")
  else
    let known :=
      prod (map Z.to_nat (filter (fun d => negb (d =? -1)%Z) newshape)) in
    match count_occ Z.eq_dec newshape (-1)%Z with
    | 0 => if known =? n then Ok (map Z.to_nat newshape)
           else Raise (ValueError "cannot reshape array")
    | 1 => if (known =? 0) || negb (n mod known =? 0)
           then Raise (ValueError "cannot reshape array")
           else Ok (map (fun d => if (d =? -1)%Z then n / known
                                  else Z.to_nat d) newshape)
    | _ => Raise (ValueError "can only specify one unknown dimension")
    end.

Definition np_reshape (X : ndarray A) (newshape : list Z)
  : result (ndarray A) :=
  sh <- resolve_shape (size X) newshape ;;
  Ok (NdArray sh
        (fun idx => item X (unravel_index (shape X) (ravel_index sh idx)))).

(** *** Axis permutations *)

(** [X.transpose(perm)]: axis [k] of the result is axis [nth k perm]
    of [X]. *)
Definition np_transpose (X : ndarray A) (perm : list nat) : ndarray A :=
  NdArray (map (fun a => nth a (shape X) 0) perm)
    (fun idx =>
       item X (map (fun a => nth (index_of a perm) idx 0)
                   (seq 0 (ndim X)))).

(** [np.moveaxis(X, source, destination)], as numpy computes it: the
    other axes keep their order and [source] is inserted at
    [destination]. *)
Definition np_moveaxis (X : ndarray A) (source destination : Z)
  : result (ndarray A) :=
  s <- normalize_axis (ndim X) source ;;
  d <- normalize_axis (ndim X) destination ;;
  let order := filter (fun a => negb (a =? s)) (seq 0 (ndim X)) in
  Ok (np_transpose X (firstn d order ++ s :: skipn d order)).

(** [np.swapaxes(X, axis1, axis2)]. *)
Definition np_swapaxes (X : ndarray A) (axis1 axis2 : Z)
  : result (ndarray A) :=
  a <- normalize_axis (ndim X) axis1 ;;
  b <- normalize_axis (ndim X) axis2 ;;
  Ok (np_transpose X
        (map (fun k => if k =? a then b else if k =? b then a else k)
             (seq 0 (ndim X)))).

(** [X[..., None]]: a new last axis of length 1. *)
Definition np_expand_last (X : ndarray A) : ndarray A :=
  NdArray (shape X ++ [1]) (fun idx => item X (removelast idx)).

(** *** Building arrays from arrays *)

(** [np.array(tuple_of_arrays)]: the arrays are stacked along a new
    leading axis and must all have the shape of the first (ragged input
    is an error in current numpy). *)
Definition np_stack {DA : Dtype A} (Xs : list (ndarray A))
  : result (ndarray A) :=
  match Xs with
  | [] => Ok (NdArray [0] (fun _ => zero))
  | X0 :: _ =>
      if forallb (fun X => list_eqb (shape X) (shape X0)) Xs
      then Ok (NdArray (length Xs :: shape X0)
                 (fun idx => match idx with
                             | k :: idx' => item (nth k Xs X0) idx'
                             | [] => zero
                             end))
      else Raise (ValueError "inhomogeneous shape")
  end.

(** [np.pad(X, pad_width)] with the default constant mode (zeros);
    [pad_width] gives (before, after) for every axis. *)
Definition np_pad {DA : Dtype A} (X : ndarray A) (pad_width : list (Z * Z))
  : result (ndarray A) :=
  if negb (length pad_width =? ndim X)
  then Raise (ValueError "operands could not be broadcast together")
  else if existsb (fun w => (fst w <? 0)%Z || (snd w <? 0)%Z) pad_width
  then Raise (ValueError "index can't contain negative values")
  else
    let before := map (fun w => Z.to_nat (fst w)) pad_width in
    let after := map (fun w => Z.to_nat (snd w)) pad_width in
    let inner := combine before (shape X) in
    Ok (NdArray
          (map (fun t => fst (fst t) + snd (fst t) + snd t)
               (combine inner after))
          (fun idx => if in_box inner idx
                      then item X (unshift inner idx)
                      else zero)).
End NdArray.

(** ** Python iteration helpers *)

(** [range(n)]. *)
Definition py_range (n : Z) : list Z := map Z.of_nat (seq 0 (Z.to_nat n)).

(** A comprehension whose body may raise: the first exception wins. *)
Fixpoint mapM {A B : Type} (f : A -> result B) (l : list A)
  : result (list B) :=
  match l with
  | [] => Ok []
  | a :: l' => b <- f a ;; bs <- mapM f l' ;; Ok (b :: bs)
  end.

(** [padding != (0, 0)] on a pair of ints. *)
Definition is_padded (padding : Z * Z) : bool :=
  negb ((fst padding =? 0)%Z && (snd padding =? 0)%Z).

(** ** Window indexer, extractor and scatter ([conv_utils.py]) *)

Section ConvUtils.
Context {A : Type} {DA : Dtype A}.

(** [pad(X, pad_H, pad_W)], lines 21-22: the padded array is the whole
    return value. *)
Definition pad (X : ndarray A) (pad_H pad_W : Z) : result (ndarray A) :=
  np_pad X [(0, 0); (pad_H, pad_H); (pad_W, pad_W); (0, 0)]%Z.

(** [slice_idx_generator(oH, oW, sH, sW)], lines 25-28: the window
    origins in row-major order. *)
Definition slice_idx_generator (oH oW sH sW : Z) : list (Z * Z) :=
  flat_map (fun i => map (fun j => (i * sH, j * sW)%Z) (py_range oW))
           (py_range oH).

(** [vectorize_ip_for_conv], lines 31-51. *)
Definition vectorize_ip_for_conv (X : ndarray A) (kernel_size : Z * Z)
  (stride : Z * Z) (output_size : Z * Z) (reshape : option (list Z))
  : result (ndarray A) :=
  let '(sH, sW) := stride in
  let '(kH, kW) := kernel_size in
  let '(oH, oW) := output_size in
  let indices := slice_idx_generator oH oW sH sW in
  reshape <- match reshape with
             | Some r => Ok r
             | None => match rev (shape X) with
                       | [] => Raise IndexError
                       | d :: _ => Ok [(-1)%Z; Z.of_nat d]
                       end
             end ;;
  windows <- mapM (fun ij =>
                     sl <- expand_trailing (ndim X)
                             [Full; Range (fst ij) (fst ij + kH);
                              Range (snd ij) (snd ij + kW)] ;;
                     np_reshape (np_getslice X sl) reshape)
                  indices ;;
  np_stack windows.

(** [_prepare_ip_for_conv], lines 61-82. *)
Definition _prepare_ip_for_conv (X : ndarray A) (kernel_size : Z * Z)
  (stride : Z * Z) (padding : Z * Z) (vec_reshape : option (list Z))
  : result (ndarray A * Z * Z) :=
  '(ipH, ipW) <- match shape X with
                 | [_; h; w; _] => Ok (Z.of_nat h, Z.of_nat w)
                 | _ :: _ :: _ :: _ :: _ :: _ =>
                     Raise (ValueError "too many values to unpack (expected 2)")
                 | sh =>
                     Raise (ValueError
                              (not_enough_values 2 (length sh - 2)))
                 end ;;
  let '(kH, kW) := kernel_size in
  let '(sH, sW) := stride in
  let '(pH, pW) := padding in
  oH <- compute_conv_output_dim ipH kH pH sH ;;
  oW <- compute_conv_output_dim ipW kW pW sW ;;
  X <- (if is_padded padding
        then padded <- pad X pH pW ;;
             '(X', _) <- unpack2 padded ;;
             Ok X'
        else Ok X) ;;
  X <- vectorize_ip_for_conv X (kH, kW) stride (oH, oW) vec_reshape ;;
  Ok (X, oH, oW).

(** One iteration of the loop of [accumulate_dX_conv], lines 240-241. *)
Definition scatter_step (dIp : ndarray A) (kH kW : Z) (reshape : list Z)
  (dX : ndarray A) (idx : nat) (start : Z * Z) : result (ndarray A) :=
  let '(start_r, start_c) := start in
  let end_r := (start_r + kH)%Z in
  let end_c := (start_c + kW)%Z in
  w <- np_select_axis1 dIp idx ;;
  v <- np_reshape w reshape ;;
  sl <- expand_ellipsis (ndim dX)
          [Range start_r end_r; Range start_c end_c] ;;
  np_iadd_slice dX sl v.

(** [for idx, (start_r, start_c) in enumerate(slice_idx): ...]. *)
Fixpoint scatter_loop (dIp : ndarray A) (kH kW : Z) (reshape : list Z)
  (slice_idx : list (Z * Z)) (idx : nat) (dX : ndarray A)
  : result (ndarray A) :=
  match slice_idx with
  | [] => Ok dX
  | start :: rest =>
      dX' <- scatter_step dIp kH kW reshape dX idx start ;;
      scatter_loop dIp kH kW reshape rest (S idx) dX'
  end.

(** Lines 232-241 of [accumulate_dX_conv]: the zero tensor of the padded
    input shape with every window's gradient added into it. *)
Definition accumulate_padded (dX_shape : list nat) (output_size : Z * Z)
  (dIp : ndarray A) (stride : Z * Z) (kernel_size : Z * Z)
  (reshape : list Z) : result (ndarray A) :=
  let '(kH, kW) := kernel_size in
  let '(sH, sW) := stride in
  let dX := np_zeros dX_shape in
  let slice_idx :=
    slice_idx_generator (fst output_size) (snd output_size) sH sW in
  scatter_loop dIp kH kW reshape slice_idx 0 dX.

(** Lines 243-245: [dX[..., pH:-pH, pW:-pW]] when [padding != (0, 0)]. *)
Definition strip_padding (dX : ndarray A) (padding : Z * Z)
  : result (ndarray A) :=
  if is_padded padding then
    let '(pH, pW) := padding in
    sl <- expand_ellipsis (ndim dX) [Range pH (- pH); Range pW (- pW)] ;;
    Ok (np_getslice dX sl)
  else Ok dX.

(** [accumulate_dX_conv], lines 222-250. *)
Definition accumulate_dX_conv (dX_shape : list nat) (output_size : Z * Z)
  (dIp : ndarray A) (stride : Z * Z) (kernel_size : Z * Z)
  (reshape : list Z) (padding : Z * Z) (moveaxis : bool)
  : result (ndarray A) :=
  dX <- accumulate_padded dX_shape output_size dIp stride kernel_size
          reshape ;;
  dX <- strip_padding dX padding ;;
  if negb moveaxis then Ok dX
  else np_moveaxis dX 0 (-1).
End ConvUtils.

(** ** Further numpy operations used by the pooling layers *)

Section NdArrayOps.
Context {A : Type}.

(** [X.ravel()]. *)
Definition np_ravel (X : ndarray A) : ndarray A :=
  NdArray [size X] (fun idx => item X (unravel_index (shape X) (hd 0 idx))).

(** [M[I, J]] for a 2-D [M] and two 1-D integer arrays of one length. *)
Definition np_take2 (M : ndarray A) (I J : ndarray nat)
  : result (ndarray A) :=
  match shape M, shape I, shape J with
  | [r; c], [n], [n'] =>
      if negb (n =? n')
      then Raise (ValueError "shape mismatch: indexing arrays")
      else if forallb (fun k => (item I [k] <? r) && (item J [k] <? c))
                      (seq 0 n)
      then Ok (NdArray [n] (fun idx => item M [item I idx; item J idx]))
      else Raise IndexError
  | _, _, _ => Raise IndexError
  end.

(** [M[I, J] = v] for a 2-D [M] and two 1-D integer arrays. *)
Definition np_put2 (M : ndarray A) (I J : ndarray nat) (v : A)
  : result (ndarray A) :=
  match shape M, shape I, shape J with
  | [r; c], [n], [n'] =>
      if negb (n =? n')
      then Raise (ValueError "shape mismatch: indexing arrays")
      else if forallb (fun k => (item I [k] <? r) && (item J [k] <? c))
                      (seq 0 n)
      then Ok (NdArray [r; c]
                 (fun idx =>
                    match idx with
                    | [i; j] =>
                        if existsb (fun k => (item I [k] =? i)
                                             && (item J [k] =? j))
                                   (seq 0 n)
                        then v else item M idx
                    | _ => item M idx
                    end))
      else Raise IndexError
  | _, _, _ => Raise IndexError
  end.

(** The common shape of two operands, computed on reversed shapes. *)
Fixpoint bcast_rev (r1 r2 : list nat) : result (list nat) :=
  match r1, r2 with
  | [], _ => Ok r2
  | _, [] => Ok r1
  | d1 :: t1, d2 :: t2 =>
      d <- (if d1 =? d2 then Ok d1
            else if d1 =? 1 then Ok d2
            else if d2 =? 1 then Ok d1
            else Raise (ValueError "operands could not be broadcast together")) ;;
      t <- bcast_rev t1 t2 ;;
      Ok (d :: t)
  end.

(** An elementwise binary operation with broadcasting. *)
Definition np_broadcast2 {B C : Type} (f : A -> B -> C)
  (X : ndarray A) (Y : ndarray B) : result (ndarray C) :=
  r <- bcast_rev (rev (shape X)) (rev (shape Y)) ;;
  Ok (NdArray (rev r)
        (fun idx => f (item X (bcast_index (shape X) idx))
                      (item Y (bcast_index (shape Y) idx)))).
End NdArrayOps.

(** [np.arange(n)]. *)
Definition np_arange (n : nat) : ndarray nat :=
  NdArray [n] (fun idx => hd 0 idx).

(** Strict comparison of floats. *)
Definition Qlt_bool (x y : Q) : bool := negb (Qle_bool y x).

(** The scan behind [argmax]: the best index so far is replaced only by a
    strictly larger element, so the first maximum is the one returned. *)
Fixpoint argmax_from (best_i : nat) (best : Q) (i : nat) (l : list Q) : nat :=
  match l with
  | [] => best_i
  | x :: l' =>
      if Qlt_bool best x then argmax_from i x (S i) l'
      else argmax_from best_i best (S i) l'
  end.

Definition argmax (l : list Q) : nat :=
  match l with
  | [] => 0
  | x :: l' => argmax_from 0 x 1 l'
  end.

(** The entries along the last axis at the leading index [idx]. *)
Definition last_axis_row {A : Type} (X : ndarray A) (d : nat)
  (idx : list nat) : list A :=
  map (fun p => item X (idx ++ [p])) (seq 0 d).

(** [X.argmax(axis=-1)]. *)
Definition np_argmax_last (X : ndarray Q) : result (ndarray nat) :=
  match rev (shape X) with
  | [] => Raise AxisError
  | d :: rpre =>
      if d =? 0
      then Raise (ValueError "attempt to get argmax of an empty sequence")
      else Ok (NdArray (rev rpre)
                 (fun idx => argmax (last_axis_row X d idx)))
  end.

(** [X.mean(axis=-1)]. *)
Definition np_mean_last (X : ndarray Q) : result (ndarray Q) :=
  match rev (shape X) with
  | [] => Raise AxisError
  | d :: rpre =>
      Ok (NdArray (rev rpre)
            (fun idx => (fold_left Qplus (last_axis_row X d idx) 0
                         / inject_Z (Z.of_nat d))%Q))
  end.

(** A boolean array read as floats ([True] is [1.0]). *)
Definition bool_to_float (b : bool) : Q := if b then 1%Q else 0%Q.

(** ** Pooling layers ([maxpool2d.py], [avgpool2d.py]) *)

(** [AveragePooling2D] subclasses [MaxPooling2D] and overrides
    [_get_pool_outputs] only; the tag selects the method. *)
Inductive pool_class : Type :=
| MaxPooling2D
| AveragePooling2D.

(** What [_get_pool_outputs] hands to the backward pass: the boolean
    argmax mask, or the float tensor of uniform shares. *)
Inductive share : Type :=
| Mask (m : ndarray bool)
| Distributed (d : ndarray Q).

(** The attributes of a pooling layer.  [layer_input] and [requires_dX]
    stand for [self.input()] and [self.requires_dX] of the base layer. *)
Record pool_layer : Type := PoolLayer {
  cls : pool_class;
  layer_input : ndarray Q;
  requires_dX : bool;
  pool_size : Z * Z;
  stride : Z * Z;
  padding : string;
  p_H : Z;
  p_W : Z;
  windows : nat;
  ip_H : nat;
  ip_W : nat;
  out_H : Z;
  out_W : Z;
  pooled : option (ndarray Q);
  _padded_shape : option (nat * nat);
  _dX_share : option share
}.

(** Modelled from the spec: [pad] as [maxpool2d.py] imports it from
    [dnn.layers.utils] is missing from the sources; the layer unpacks its
    result into the padded tensor and the padded spatial shape that
    [backprop_step] splices into [dX_shape]. *)
Definition pad_with_shape (X : ndarray Q) (pad_H pad_W : Z)
  : result (ndarray Q * (nat * nat)) :=
  padded <- pad X pad_H pad_W ;;
  match shape padded with
  | [_; h; w; _] => Ok (padded, (h, w))
  | _ => Raise IndexError
  end.

(** Modelled from the spec: [vectorize_for_conv] of [dnn.layers.utils] is
    missing from the sources; it is the window extractor, called with the
    keywords of [vectorize_ip_for_conv]. *)
Definition vectorize_for_conv (X : ndarray Q) (kernel_size stride
  output_size : Z * Z) (reshape : list Z) : result (ndarray Q) :=
  vectorize_ip_for_conv X kernel_size stride output_size (Some reshape).

(** Modelled from the spec: [BaseLayer.reset_attrs] is missing from the
    sources; it clears the attributes named in the class attribute
    [reset = ("pooled", "_dX_share")]. *)
Definition reset_attrs (self : pool_layer) : pool_layer :=
  PoolLayer (cls self) (layer_input self) (requires_dX self)
    (pool_size self) (stride self) (padding self) (p_H self) (p_W self)
    (windows self) (ip_H self) (ip_W self) (out_H self) (out_W self)
    None (_padded_shape self) None.

(** [MaxPooling2D.__init__], lines 20-51; [input_shape] is
    [self.input_shape()], whose last entry is the batch size. *)
Definition pool_init (c : pool_class) (ip : ndarray Q) (needs_dX : bool)
  (input_shape : list nat) (pool_size : Z * Z) (stride : Z * Z)
  (padding : string) : result pool_layer :=
  let '(pool_H, pool_W) := pool_size in
  let '(stride_H, stride_W) := stride in
  let '(p_H, p_W) := compute_conv_padding pool_size padding in
  match removelast input_shape with
  | [windows; ip_H; ip_W] =>
      out_H <- compute_conv_output_dim (Z.of_nat ip_H) pool_H p_H stride_H ;;
      out_W <- compute_conv_output_dim (Z.of_nat ip_W) pool_W p_W stride_W ;;
      Ok (PoolLayer c ip needs_dX pool_size stride padding p_H p_W
            windows ip_H ip_W out_H out_W None None None)
  | _ :: _ :: _ :: _ :: _ =>
      Raise (ValueError "too many values to unpack (expected 3)")
  | _ =>
      Raise (ValueError
               (not_enough_values 3 (length (removelast input_shape))))
  end.

(** [MaxPooling2D._get_pool_outputs], lines 65-85. *)
Definition max_get_pool_outputs (self : pool_layer) (ip : ndarray Q)
  : result (ndarray Q * share) :=
  let ip_shape := shape ip in
  match rev ip_shape with
  | [] => Raise IndexError
  | p_area :: rpre =>
      let flat := prod (rev rpre) in
      let ip_idx := np_arange flat in
      am <- np_argmax_last ip ;;
      let max_idx := np_ravel am in
      ip2 <- np_reshape ip [(-1)%Z; Z.of_nat p_area] ;;
      maximums <- np_take2 ip2 ip_idx max_idx ;;
      let mask := np_zeros [flat; p_area] in
      mask <- np_put2 mask ip_idx max_idx true ;;
      maximums <- np_reshape maximums (map Z.of_nat (rev rpre)) ;;
      mask <- np_reshape mask (map Z.of_nat ip_shape) ;;
      let shape := [Z.of_nat (windows self); out_H self; out_W self;
                    (-1)%Z] in
      swapped <- np_swapaxes maximums 0 (-1) ;;
      out <- np_reshape swapped shape ;;
      Ok (out, Mask mask)
  end.

(** [AveragePooling2D._get_pool_outputs], [avgpool2d.py] lines 5-17.
    The shares are [1 / p_area]; an empty window ([p_area = 0], where
    numpy gives [inf]) is outside the model. *)
Definition avg_get_pool_outputs (self : pool_layer) (ip : ndarray Q)
  : result (ndarray Q * share) :=
  let ip_shape := shape ip in
  averages <- np_mean_last ip ;;
  match rev ip_shape with
  | [] => Raise IndexError
  | p_area :: _ =>
      let distributed :=
        NdArray [1; 1; 1; p_area]
          (fun _ => (1 / inject_Z (Z.of_nat p_area))%Q) in
      let shape := [Z.of_nat (windows self); out_H self; out_W self;
                    (-1)%Z] in
      swapped <- np_swapaxes averages 0 (-1) ;;
      out <- np_reshape swapped shape ;;
      Ok (out, Distributed distributed)
  end.

(** [self._get_pool_outputs(ip)], resolved by the class of [self]. *)
Definition _get_pool_outputs (self : pool_layer) (ip : ndarray Q)
  : result (ndarray Q * share) :=
  match cls self with
  | MaxPooling2D => max_get_pool_outputs self ip
  | AveragePooling2D => avg_get_pool_outputs self ip
  end.

(** [MaxPooling2D._pool], lines 87-102. *)
Definition _pool (self : pool_layer) (X : ndarray Q)
  : result (ndarray Q * pool_layer) :=
  '(X, padded_shape) <- pad_with_shape X (p_H self) (p_W self) ;;
  match rev (shape X) with
  | [] => Raise IndexError
  | batch :: _ =>
      X <- vectorize_for_conv X (pool_size self) (stride self)
             (out_H self, out_W self)
             [Z.of_nat (windows self);
              (fst (pool_size self) * snd (pool_size self))%Z;
              Z.of_nat batch] ;;
      X <- np_moveaxis X (-1) 0 ;;
      '(pooled_out, dX_share) <- _get_pool_outputs self X ;;
      Ok (pooled_out,
          PoolLayer (cls self) (layer_input self) (requires_dX self)
            (pool_size self) (stride self) (padding self) (p_H self)
            (p_W self) (windows self) (ip_H self) (ip_W self) (out_H self)
            (out_W self) (pooled self) (Some padded_shape) (Some dX_share))
  end.

(** [MaxPooling2D.forward_step], lines 104-106. *)
Definition pool_forward_step (self : pool_layer)
  : result (ndarray Q * pool_layer) :=
  '(out, self) <- _pool self (layer_input self) ;;
  Ok (out,
      PoolLayer (cls self) (layer_input self) (requires_dX self)
        (pool_size self) (stride self) (padding self) (p_H self)
        (p_W self) (windows self) (ip_H self) (ip_W self) (out_H self)
        (out_W self) (Some out) (_padded_shape self) (_dX_share self)).

(** Line 109: the incoming gradient brought to (batch, window, channel). *)
Definition reshape_dA (self : pool_layer) (dA : ndarray Q)
  : result (ndarray Q) :=
  swapped <- np_swapaxes dA 0 (-1) ;;
  match rev (shape dA) with
  | [] => Raise IndexError
  | batch :: _ =>
      np_reshape swapped [Z.of_nat batch; (-1)%Z; Z.of_nat (windows self)]
  end.

(** Line 118: [self._dX_share * dA[..., None]], the per-window gradient
    contributions handed to the scatter-accumulator. *)
Definition pool_dIp (dX_share : option share) (dA : ndarray Q)
  : result (ndarray Q) :=
  match dX_share with
  | None => Raise TypeError
  | Some (Mask m) =>
      np_broadcast2 (fun b x => (bool_to_float b * x)%Q) m
        (np_expand_last dA)
  | Some (Distributed d) => np_broadcast2 Qmult d (np_expand_last dA)
  end.

(** [MaxPooling2D.backprop_step], lines 108-127; [None] is returned when
    no input gradient is required. *)
Definition pool_backprop_step (self : pool_layer) (dA : ndarray Q)
  : result (option (ndarray Q) * pool_layer) :=
  dA <- reshape_dA self dA ;;
  if negb (requires_dX self) then Ok (None, reset_attrs self)
  else
    match _padded_shape self with
    | None => Raise TypeError
    | Some (padded_H, padded_W) =>
        dIp <- pool_dIp (_dX_share self) dA ;;
        dX <- accumulate_dX_conv
                [hd 0 (shape dA); windows self; padded_H; padded_W]
                (out_H self, out_W self) dIp (stride self) (pool_size self)
                [(-1)%Z; Z.of_nat (windows self); fst (pool_size self);
                 snd (pool_size self)]
                (p_H self, p_W self) true ;;
        Ok (Some dX, reset_attrs self)
    end.

(** ** Convolution layers ([base_conv.py]) *)

(** A tuple of ints used as a shape: negative entries are refused. *)
Definition shape_of_ints (t : list Z) : result (list nat) :=
  if existsb (fun d => (d <? 0)%Z) t
  then Raise (ValueError "negative dimensions are not allowed")
  else Ok (map Z.to_nat t).

Module Conv.

(** The attributes of [Conv] that the shape and gradient bookkeeping
    reads.  [input_shape] stands for [self.input_shape()] and
    [self.input().shape] of the base layer, with the batch size known. *)
Record layer : Type := Layer {
  input_shape : list nat;
  filters : Z;
  kernel_size : Z * Z;
  stride : Z * Z;
  padding : string;
  ip_C : nat
}.

(** [Conv.__init__], lines 35-77: the configuration is stored as given. *)
Definition init (input_shape : list nat) (filters : Z)
  (kernel_size stride : Z * Z) (padding : string) : result layer :=
  match input_shape with
  | [] => Raise IndexError
  | ip_C :: _ =>
      Ok (Layer input_shape filters kernel_size stride padding ip_C)
  end.

(** [Conv.output_area], lines 106-114. *)
Definition output_area (self : layer) : result (Z * Z) :=
  match input_shape self with
  | _ :: ipH :: ipW :: _ =>
      let '(pH, pW) := compute_conv_padding (kernel_size self) (padding self) in
      oH <- compute_conv_output_dim (Z.of_nat ipH) (fst (kernel_size self))
              pH (fst (stride self)) ;;
      oW <- compute_conv_output_dim (Z.of_nat ipW) (snd (kernel_size self))
              pW (snd (stride self)) ;;
      Ok (oH, oW)
  | _ => Raise IndexError
  end.

(** [Conv.padded_shape], lines 124-127. *)
Definition padded_shape (self : layer) : result (Z * Z) :=
  match input_shape self with
  | [_; ipH; ipW; _] =>
      let '(pH, pW) := compute_conv_padding (kernel_size self) (padding self) in
      Ok (Z.of_nat ipH + 2 * pH, Z.of_nat ipW + 2 * pW)%Z
  | _ :: _ :: _ :: _ :: _ :: _ =>
      Raise (ValueError "too many values to unpack (expected 2)")
  | sh => Raise (ValueError (not_enough_values 2 (length sh - 2)))
  end.

(** [Conv.get_input_gradient_shape], lines 174-178. *)
Definition get_input_gradient_shape (self : layer) : result (list Z) :=
  '(post_pad_H, post_pad_W) <- padded_shape self ;;
  match rev (input_shape self) with
  | [] => Raise IndexError
  | m :: _ => Ok [Z.of_nat m; Z.of_nat (ip_C self); post_pad_H; post_pad_W]
  end.

(** [Conv.backprop_inputs], lines 186-198.  [compute_vec_ip_gradient] is
    abstract in [Conv]; [vec_ip_grad] is what the subclass returns for the
    incoming gradient. *)
Definition backprop_inputs {A : Type} {DA : Dtype A} (self : layer)
  (vec_ip_grad : ndarray A) : result (ndarray A) :=
  ip_gradient_shape <- get_input_gradient_shape self ;;
  output_size <- output_area self ;;
  dX_shape <- shape_of_ints ip_gradient_shape ;;
  accumulate_dX_conv dX_shape output_size vec_ip_grad (stride self)
    (kernel_size self)
    [(-1)%Z; Z.of_nat (ip_C self); fst (kernel_size self);
     snd (kernel_size self)]
    (compute_conv_padding (kernel_size self) (padding self)) true.

End Conv.

(** ** Concatenation layer ([concatenate.py]) *)

(** [repr] of a tuple of ints, as an f-string prints it. *)
Definition repr_tuple (t : list nat) : string :=
  match t with
  | [] => "()"
  | [a] => "(" ++ repr_nat a ++ ",)"
  | _ => "(" ++ String.concat ", " (map repr_nat t) ++ ")"
  end%string.

(** [t[i]] on a tuple: negative indices count from the end. *)
Definition py_getitem (t : list nat) (i : Z) : result nat :=
  if ((- Z.of_nat (length t) <=? i) && (i <? Z.of_nat (length t)))%Z
  then Ok (nth (Z.to_nat (if (i <? 0)%Z then i + Z.of_nat (length t) else i))
               t 0)
  else Raise IndexError.

(** [l] with position [n] replaced by [v]. *)
Fixpoint set_nth (n : nat) (v : nat) (l : list nat) : list nat :=
  match l, n with
  | [], _ => []
  | _ :: l', 0 => v :: l'
  | a :: l', S n' => a :: set_nth n' v l'
  end.

Section Concatenate.
Context {A : Type}.

(** The element of the concatenation of [X :: Xs] along [ax] at [idx]:
    the operands are passed over until the one holding [idx]. *)
Fixpoint concat_item (ax : nat) (X : ndarray A) (Xs : list (ndarray A))
  (idx : list nat) : A :=
  match Xs with
  | [] => item X idx
  | Y :: Ys =>
      if nth ax idx 0 <? nth ax (shape X) 0 then item X idx
      else concat_item ax Y Ys
             (set_nth ax (nth ax idx 0 - nth ax (shape X) 0) idx)
  end.

(** [np.concatenate(Xs, axis)]. *)
Definition np_concatenate (Xs : list (ndarray A)) (axis : Z)
  : result (ndarray A) :=
  match Xs with
  | [] => Raise (ValueError "need at least one array to concatenate")
  | X :: rest =>
      if ndim X =? 0
      then Raise (ValueError
                    "zero-dimensional arrays cannot be concatenated")
      else
        ax <- normalize_axis (ndim X) axis ;;
        if forallb (fun Y => list_eqb (set_nth ax 0 (shape Y))
                                      (set_nth ax 0 (shape X))) rest
        then Ok (NdArray
                   (set_nth ax
                      (fold_left (fun n Y => n + nth ax (shape Y) 0) rest
                                 (nth ax (shape X) 0))
                      (shape X))
                   (concat_item ax X rest))
        else Raise (ValueError
                      "all the input array dimensions except for the concatenation axis must match exactly")
  end.

(** [np.split(X, indices, axis)]: the pieces between consecutive
    division points along [axis]. *)
Definition np_split (X : ndarray A) (indices : list Z) (axis : Z)
  : result (list (ndarray A)) :=
  n_total <- py_getitem (shape X) axis ;;
  ax <- normalize_axis (ndim X) axis ;;
  let div_points := (0 :: indices ++ [Z.of_nat n_total])%Z in
  Ok (map (fun se =>
             np_getslice X
               (repeat Full ax ++ Range (fst se) (snd se)
                  :: repeat Full (ndim X - ax - 1)))
          (combine div_points (tl div_points))).

(** The attributes of the layer; [inputs] stands for [self.input()] of
    the base layer, and [self.input_shape()] is the list of their
    shapes. *)
Record concat_layer : Type := ConcatLayer {
  inputs : list (ndarray A);
  axis : Z;
  concatenated : option (ndarray A)
}.

Definition input_shape (self : concat_layer) : list (list nat) :=
  map (@shape A) (inputs self).

(** [_get_axis_excluded_shapes], lines 82-92: [enumerate] counts from
    0 and the position is compared with [axis] as given. *)
Definition _get_axis_excluded_shapes (self : concat_layer) (axis : Z)
  : list (list nat) :=
  map (fun sh =>
         map snd
           (filter (fun id => negb (Z.of_nat (fst id) =? axis)%Z)
                   (combine (seq 0 (length sh)) sh)))
      (input_shape self).

Definition shape_mismatch_msg (first_shape : list nat) : string :=
  ("All inputs must have the same shape, except along the concatenation axis. "
   ++ "Expected shape (excluding the concatenation axis): "
   ++ repr_tuple first_shape ++ ".")%string.

(** [_validate_same_shape], lines 94-114. *)
Definition _validate_same_shape (self : concat_layer) (axis : Z)
  : result unit :=
  match _get_axis_excluded_shapes self axis with
  | [] => Raise StopIteration
  | first_shape :: shapes =>
      if existsb (fun sh => negb (list_eqb sh first_shape)) shapes
      then Raise (ValueError (shape_mismatch_msg first_shape))
      else Ok tt
  end.

(** [Concatenate.__init__], lines 59-80. *)
Definition concat_init (ip : list (ndarray A)) (axis : Z)
  : result concat_layer :=
  _ <- _validate_same_shape (ConcatLayer ip axis None) axis ;;
  Ok (ConcatLayer ip axis None).

(** [Concatenate.forward_step], lines 141-155: the outcome of the call
    together with the layer as the call leaves it. *)
Definition forward_step (self : concat_layer)
  : result (ndarray A) * concat_layer :=
  match _validate_same_shape self (axis self) with
  | Raise e => (Raise e, self)
  | Ok _ =>
      match np_concatenate (inputs self) (axis self) with
      | Raise e => (Raise e, self)
      | Ok c => (Ok c, ConcatLayer (inputs self) (axis self) (Some c))
      end
  end.

(** The running sums of [_split_indices]. *)
Fixpoint running_sums (running_sum : Z) (dims : list nat) : list Z :=
  match dims with
  | [] => []
  | dim :: dims' =>
      (running_sum + Z.of_nat dim)%Z
        :: running_sums (running_sum + Z.of_nat dim)%Z dims'
  end.

(** [_split_indices], lines 157-172. *)
Definition _split_indices (self : concat_layer) : result (list Z) :=
  match input_shape self with
  | [] => Raise IndexError
  | shape0 :: shapes =>
      first <- py_getitem shape0 (axis self) ;;
      dims <- mapM (fun sh => py_getitem sh (axis self))
                   (removelast shapes) ;;
      Ok (Z.of_nat first :: running_sums (Z.of_nat first) dims)
  end.

(** [backprop_inputs], lines 174-178. *)
Definition backprop_inputs (self : concat_layer) (grad : ndarray A)
  : result (list (ndarray A)) :=
  indices <- _split_indices self ;;
  np_split grad indices (axis self).
End Concatenate.

Arguments concat_layer : clear implicits.

(** ** Reference notions used to state the properties of the engine *)

(** [enumerate(l)]. *)
Definition enumerate {B : Type} (l : list B) : list (nat * B) :=
  combine (seq 0 (length l)) l.

Section ScatterSpec.
Context {A : Type} {DA : Dtype A}.

(** The gradient slice the loop reads for window [idx],
    [dIp[:, idx, ...]] reshaped to [reshape] (an empty array where
    that expression raises). *)
Definition window_grad (dIp : ndarray A) (reshape : list Z) (idx : nat)
  : ndarray A :=
  match (w <- np_select_axis1 dIp idx ;; np_reshape w reshape) with
  | Ok v => v
  | Raise _ => np_zeros []
  end.

(** Does the window with origin [start] contain row [r], column [c]? *)
Definition covers (kernel_size : Z * Z) (start : Z * Z) (r c : nat) : bool :=
  ((fst start <=? Z.of_nat r) && (Z.of_nat r <? fst start + fst kernel_size)
   && (snd start <=? Z.of_nat c)
   && (Z.of_nat c <? snd start + snd kernel_size))%Z.

(** Starting from [acc0], add, in window order, the gradient that every
    window covering (r, col) holds for that position. *)
Definition covering_sum_from (dIp : ndarray A) (kernel_size : Z * Z)
  (reshape : list Z) (windows : list (nat * (Z * Z))) (acc0 : A)
  (b c r col : nat) : A :=
  fold_left
    (fun acc w =>
       if covers kernel_size (snd w) r col
       then add acc
              (item (window_grad dIp reshape (fst w))
                 [b; c; Z.to_nat (Z.of_nat r - fst (snd w));
                  Z.to_nat (Z.of_nat col - snd (snd w))])
       else acc)
    windows acc0.

Definition covering_sum (dIp : ndarray A) (kernel_size : Z * Z)
  (reshape : list Z) (windows : list (nat * (Z * Z)))
  (b c r col : nat) : A :=
  covering_sum_from dIp kernel_size reshape windows zero b c r col.
End ScatterSpec.

(** A window with origin [start] lies inside an [H] by [W] plane. *)
Definition fits (H W : nat) (kH kW : Z) (start : Z * Z) : Prop :=
  (0 <= fst start /\ fst start + kH <= Z.of_nat H
   /\ 0 <= snd start /\ snd start + kW <= Z.of_nat W)%Z.

(** Two arrays are the same array: same shape, same element at every
    index inside the shape. *)
Definition nd_eq {A : Type} (X Y : ndarray A) : Prop :=
  shape X = shape Y
  /\ forall idx, in_bounds (shape X) idx = true -> item X idx = item Y idx.

(** ** Concrete inputs used in the examples *)

(** The unit-stride example with 2 x 2 windows over a 3 x 3 plane: the
    four windows overlap and the centre receives all four gradients. *)
Definition overlap_dIp : ndarray Q :=
  NdArray [1; 4; 4]
    (fun idx => inject_Z (Z.of_nat (1 + ravel_index [1; 4; 4] idx))).

(** A 1 x 3 kernel with "same" padding on a 3 x 3 input: the padding is
    (0, 1), the padded plane is 3 x 5, and the gradient that comes back
    has no rows. *)
Definition same_1x3_dIp : ndarray Q := NdArray [1; 9; 3] (fun _ => 1%Q).

(** A single-channel 3 x 3 input with one batch element. *)
Definition one_channel_input : ndarray Q := NdArray [1; 3; 3; 1] 
  (fun _ => 1%Q).


(** [a] is the position of the first maximum of [l]: nothing in [l] is
    larger than the element at [a], and everything before [a] is strictly
    smaller. *)
Definition is_first_max (l : list Q) (a : nat) : Prop :=
  a < length l
  /\ (forall j, j < length l -> (nth j l 0 <= nth a l 0)%Q)
  /\ (forall j, j < a -> (nth j l 0 < nth a l 0)%Q).

(** The layer with [X] as the tensor its predecessor feeds it. *)
Definition with_input (self : pool_layer) (X : ndarray Q) : pool_layer :=
  PoolLayer (cls self) X (requires_dX self) (pool_size self) (stride self)
    (padding self) (p_H self) (p_W self) (windows self) (ip_H self)
    (ip_W self) (out_H self) (out_W self) (pooled self)
    (_padded_shape self) (_dX_share self).

(** One training step seen from the layer: [forward_step()] followed by
    [backprop_step(dA)]; the value is the input gradient handed back. *)
Definition pool_forward_backward (self : pool_layer) (dA : ndarray Q)
  : result (option (ndarray Q)) :=
  '(_, self') <- pool_forward_step self ;;
  '(dX, _) <- pool_backprop_step self' dA ;;
  Ok dX.

(** Two calls end the same way: both raise the same exception, or both
    return and the returned values are related by [P]. *)
Definition same_outcome {B : Type} (P : B -> B -> Prop)
  (r1 r2 : result B) : Prop :=
  match r1, r2 with
  | Ok a, Ok b => P a b
  | Raise e1, Raise e2 => e1 = e2
  | _, _ => False
  end.

Definition same_shape {A : Type} (X Y : ndarray A) : Prop :=
  shape X = shape Y.

(** What the backward pass of a pooling layer reads from the layer. *)
Definition same_backward_state (s1 s2 : pool_layer) : Prop :=
  requires_dX s1 = requires_dX s2
  /\ pool_size s1 = pool_size s2
  /\ stride s1 = stride s2
  /\ p_H s1 = p_H s2 /\ p_W s1 = p_W s2
  /\ windows s1 = windows s2
  /\ out_H s1 = out_H s2 /\ out_W s1 = out_W s2
  /\ _padded_shape s1 = _padded_shape s2
  /\ _dX_share s1 = _dX_share s2.

(** A shape without its entry at position [ax]. *)
Definition remove_axis (ax : nat) (sh : list nat) : list nat :=
  firstn ax sh ++ skipn (S ax) sh.

(** The elements of an array in row-major order, [X.ravel().tolist()]. *)
Definition tolist {A : Type} (X : ndarray A) : list A :=
  map (fun n => item X (unravel_index (shape X) n)) (seq 0 (size X)).

(** Two inputs of a concatenation layer, of shape (features, batch) with
    3 and 4 features and a batch of 2, with distinct entries. *)
Definition feat_3x2 : ndarray nat :=
  NdArray [3; 2] (fun idx => ravel_index [3; 2] idx).

Definition feat_4x2 : ndarray nat :=
  NdArray [4; 2] (fun idx => 100 + ravel_index [4; 2] idx).

(** A 4 x 4 single-channel input with one batch element, its four 2 x 2
    windows at stride 2 laid out as (batch, window, channel, position),
    and layers pooling it with 2 x 2 windows. *)
Definition input_4x4 : ndarray Q :=
  NdArray [1; 4; 4; 1]
    (fun idx =>
       inject_Z (nth (ravel_index [1; 4; 4; 1] idx)
                     [1; 2; 5; 6; 3; 4; 7; 8; 9; 9; 1; 0; 9; 9; 0; 1]%Z
                     0%Z)).

Definition input_4x4_ones : ndarray Q := NdArray [1; 4; 4; 1] (fun _ => 1%Q).

Definition windowed_4x4 : ndarray Q :=
  NdArray [1; 4; 1; 4]
    (fun idx =>
       inject_Z (nth (ravel_index [1; 4; 1; 4] idx)
                     [1; 2; 3; 4; 5; 6; 7; 8; 9; 9; 9; 9; 1; 0; 0; 1]%Z
                     0%Z)).

Definition max_layer_2x2 : pool_layer :=
  PoolLayer MaxPooling2D input_4x4 true (2, 2)%Z (2, 2)%Z "valid" 0 0
    1 4 4 2 2 None None None.

Definition avg_layer_2x2 : pool_layer :=
  PoolLayer AveragePooling2D input_4x4 true (2, 2)%Z (2, 2)%Z "valid" 0 0
    1 4 4 2 2 None None None.

(** Output gradients of shape (channel, row, column, batch): distinct
    entries, and all ones. *)
Definition dA_2x2 : ndarray Q :=
  NdArray [1; 2; 2; 1]
    (fun idx => inject_Z (Z.of_nat (10 + ravel_index [1; 2; 2; 1] idx))).

Definition dA_2x2_ones : ndarray Q := NdArray [1; 2; 2; 1] (fun _ => 1%Q).

(** The gradient handed back, as a list of reduced fractions. *)
Definition gradient_list (r : result (option (ndarray Q)))
  : option (list nat * list Q) :=
  match r with
  | Ok (Some dX) => Some (shape dX, map Qred (tolist dX))
  | _ => None
  end.

(** ** Matrix products and the convolution core ([conv_utils.py]) *)

(** [X[None, ...]]: a new first axis of length 1. *)
Definition np_expand_first {A : Type} (X : ndarray A) : ndarray A :=
  NdArray (1 :: shape X) (fun idx => item X (tl idx)).

(** [X[..., None, :]]: a new axis of length 1 before the last one. *)
Definition np_expand_before_last {A : Type} (X : ndarray A)
  : result (ndarray A) :=
  match rev (shape X) with
  | [] => Raise IndexError
  | d :: rpre =>
      Ok (NdArray (rev rpre ++ [1; d])
            (fun idx => item X (removelast (removelast idx) ++ [last idx 0])))
  end.

(** The sum [a_0 * b_0 + ... + a_(k-1) * b_(k-1)], accumulated from 0. *)
Definition dot (k : nat) (a b : nat -> Q) : Q :=
  fold_left Qplus (map (fun t => (a t * b t)%Q) (seq 0 k)) 0%Q.

(** [np.matmul] on operands of rank at least 2: the last two axes are the
    matrices, the leading axes are broadcast against each other. *)
Definition matmul_core (X Y : ndarray Q) : result (ndarray Q) :=
  match rev (shape X), rev (shape Y) with
  | k :: n :: rlx, f :: k' :: rly =>
      if negb (k =? k')
      then Raise (ValueError "matmul: mismatch in the core dimension")
      else
        batch <- bcast_rev rlx rly ;;
        Ok (NdArray (rev batch ++ [n; f])
              (fun idx =>
                 let pre := removelast (removelast idx) in
                 let i := last (removelast idx) 0 in
                 let j := last idx 0 in
                 dot k
                   (fun t => item X (bcast_index (rev rlx) pre ++ [i; t]))
                   (fun t => item Y (bcast_index (rev rly) pre ++ [t; j]))))
  | _, _ => Raise (ValueError "matmul: operand of rank below 2")
  end.

(** [np.matmul(X, Y)]: a 0-D operand is refused; a 1-D operand is made a
    row (left) or a column (right) matrix and the added axis is removed
    from the result. *)
Definition np_matmul (X Y : ndarray Q) : result (ndarray Q) :=
  if (ndim X =? 0) || (ndim Y =? 0)
  then Raise (ValueError "matmul: operand is a scalar")
  else
    let X' := if ndim X =? 1 then np_expand_first X else X in
    let Y' := if ndim Y =? 1
              then NdArray (shape Y ++ [1])
                     (fun idx => item Y (removelast idx))
              else Y in
    R <- matmul_core X' Y' ;;
    Ok (match ndim X =? 1, ndim Y =? 1 with
        | false, false => R
        | false, true =>
            NdArray (removelast (shape R)) (fun idx => item R (idx ++ [0]))
        | true, false =>
            NdArray (removelast (removelast (shape R)) ++ [last (shape R) 0])
              (fun idx => item R (removelast idx ++ [0; last idx 0]))
        | true, true => NdArray [] (fun _ => item R [0; 0])
        end).


(** [convolve], lines 85-86. *)
Definition convolve (X weights : ndarray Q) : result (ndarray Q) :=
  np_matmul X (np_expand_first weights).



(** [kernel.T]: the axes in reverse order. *)
Definition np_T {A : Type} (X : ndarray A) : ndarray A :=
  np_transpose X (rev (seq 0 (ndim X))).

(** [backprop_ip_conv2d], lines 212-213. *)
Definition backprop_ip_conv2d (grad kernel : ndarray Q)
  : result (ndarray Q) :=
  np_matmul grad (np_T kernel).

(** The index of [X] made of [kept] on the axes that stay and of [red] on
    the axes that are summed; [mask] tells which are which. *)
Fixpoint merge_index (mask : list bool) (kept red : list nat) : list nat :=
  match mask with
  | [] => []
  | true :: mask' => hd 0 red :: merge_index mask' kept (tl red)
  | false :: mask' => hd 0 kept :: merge_index mask' (tl kept) red
  end.

Fixpoint has_duplicate (l : list nat) : bool :=
  match l with
  | [] => false
  | a :: l' => existsb (Nat.eqb a) l' || has_duplicate l'
  end.

(** [X.sum(axis=axes)] for a tuple of axes: the entries that differ only
    on the summed axes are added, in row-major order of those axes. *)
Definition np_sum_axes (X : ndarray Q) (axes : list Z)
  : result (ndarray Q) :=
  axs <- mapM (normalize_axis (ndim X)) axes ;;
  if has_duplicate axs then Raise (ValueError "duplicate value in 'axis'")
  else
    let mask := map (fun a => existsb (Nat.eqb a) axs) (seq 0 (ndim X)) in
    let dims := combine mask (shape X) in
    let kept := map snd (filter (fun d => negb (fst d)) dims) in
    let red := map snd (filter fst dims) in
    Ok (NdArray kept
          (fun idx =>
             fold_left Qplus
               (map (fun n => item X (merge_index mask idx
                                        (unravel_index red n)))
                    (seq 0 (prod red)))
               0%Q)).

(** [_backprop_kernel_generic_conv], lines 167-177. *)
Definition _backprop_kernel_generic_conv (ip grad : ndarray Q)
  (kernel_size : Z * Z) (filters : Z) (axis : list Z)
  : result (ndarray Q) :=
  dW <- np_matmul ip grad ;;
  dW <- np_sum_axes dW axis ;;
  let '(kH, kW) := kernel_size in
  np_reshape dW [(-1)%Z; kH; kW; filters].

(** [backprop_kernel_conv2d], lines 180-189. *)
Definition backprop_kernel_conv2d (ip grad : ndarray Q)
  (kernel_size : Z * Z) (filters : Z) : result (ndarray Q) :=
  grad' <- np_expand_before_last grad ;;
  _backprop_kernel_generic_conv (np_expand_last ip) grad' kernel_size
    filters [0%Z; 1%Z].

(** The sum of [f] over the index pairs of an [m] by [n] grid, row by
    row. *)
Definition grid_sum (m n : nat) (f : nat -> nat -> Q) : Q :=
  fold_left Qplus
    (map (fun k => f (k / n) (k mod n)) (seq 0 (m * n))) 0%Q.

(** ** The depthwise convolution ([conv_utils.py]) *)








(** [backprop_kernel_depthwise_conv2d], lines 192-200; the generic
    routine is called with its default [axis=(0,)]. *)
Definition backprop_kernel_depthwise_conv2d (ip grad : ndarray Q)
  (kernel_size : Z * Z) (multiplier : Z) : result (ndarray Q) :=
  ip' <- np_swapaxes ip (-1) (-2) ;;
  _backprop_kernel_generic_conv ip' grad kernel_size multiplier [0%Z].

(** [backprop_bias_conv], lines 203-209. *)
Definition backprop_bias_conv (grad : ndarray Q) (axis : list Z)
  (reshape : option (list Z)) : result (ndarray Q) :=
  grad <- np_sum_axes grad axis ;;
  match reshape with
  | Some r => np_reshape grad ((-1)%Z :: r)
  | None => Ok grad
  end.

(** [backprop_ip_depthwise_conv2d], lines 216-219. *)
Definition backprop_ip_depthwise_conv2d (grad kernel : ndarray Q)
  : result (ndarray Q) :=
  kernel <- np_swapaxes kernel (-1) (-2) ;;
  dIp <- np_matmul grad kernel ;;
  np_moveaxis dIp 2 1.

(** ** The shape a concatenation announces ([concatenate.py]) *)

(** [t[i]] and [t[i] = v] on a list: negative indices count from the
    end. *)
Definition py_index {B : Type} (t : list B) (i : Z) : result B :=
  if ((- Z.of_nat (length t) <=? i) && (i <? Z.of_nat (length t)))%Z
  then match nth_error t (Z.to_nat (if (i <? 0)%Z
                                    then i + Z.of_nat (length t) else i)) with
       | Some x => Ok x
       | None => Raise IndexError
       end
  else Raise IndexError.

Fixpoint list_update {B : Type} (n : nat) (v : B) (l : list B) : list B :=
  match l, n with
  | [], _ => []
  | _ :: l', 0 => v :: l'
  | a :: l', S n' => a :: list_update n' v l'
  end.

Definition py_setitem {B : Type} (t : list B) (i : Z) (v : B)
  : result (list B) :=
  if ((- Z.of_nat (length t) <=? i) && (i <? Z.of_nat (length t)))%Z
  then Ok (list_update (Z.to_nat (if (i <? 0)%Z
                                  then i + Z.of_nat (length t) else i)) v t)
  else Raise IndexError.

(** [Concatenate.output_shape], lines 119-139.  [shapes] is what
    [self.input_shape()] returns: a dimension is [None] while the batch
    size is unknown.  Adding [None] to an int is a [TypeError]. *)
Definition output_shape (shapes : list (list (option nat))) (axis : Z)
  : result (list (option nat)) :=
  match shapes with
  | [] => Raise IndexError
  | first_shape :: rest =>
      in_axis_dim <- py_index first_shape axis ;;
      match in_axis_dim with
      | None => Ok first_shape
      | Some d0 =>
          total <- fold_left
                     (fun acc sh =>
                        acc <- acc ;;
                        d <- py_index sh axis ;;
                        match d with
                        | Some d => Ok (acc + d)
                        | None => Raise TypeError
                        end)
                     rest (Ok d0) ;;
          py_setitem first_shape axis (Some total)
      end
  end.

(** ** Batching ([utils.py]) *)






(** ** Looking up a layer ([model.py]) *)

(** [str(i)] for an int. *)
Definition repr_int (i : Z) : string :=
  NilZero.string_of_int (Z.to_int i).

Section FetchLayer.
(** The layers of a model; [layer_name] reads the [name] attribute. *)
Context {L : Type}.
Variable layer_name : L -> string.

(** [Model.fetch_layer], lines 62-83. *)
Definition fetch_layer (layers : list L) (name : option string)
  (idx : option Z) : result L :=
  let num_layers := Z.of_nat (length layers) in
  match name, idx with
  | Some _, Some _ =>
      Raise (ValueError "Specify only one of name or idx at a time.")
  | None, Some idx =>
      if (num_layers <=? idx)%Z
      then Raise (ValueError
                    (repr_int idx ++ " is out of bounds since the model "
                     ++ "has only " ++ repr_int num_layers ++ " layers."))
      else py_index layers idx
  | Some name, None =>
      match find (fun layer => String.eqb (layer_name layer) name) layers with
      | Some layer => Ok layer
      | None =>
          Raise (ValueError ("No layer with name " ++ name
                             ++ " exists in the model."))
      end
  | None, None =>
      Raise (ValueError "Specify either a name or an index to fetch a layer.")
  end%string.
End FetchLayer.

(** ** More concrete inputs *)


(** Two batch elements of three vectorised windows of four entries, a
    gradient for two filters at each of them, and a 4 x 2 weight
    matrix. *)
Definition vec_ip_2x3x4 : ndarray Q :=
  NdArray [2; 3; 4]
    (fun idx => inject_Z (Z.of_nat (ravel_index [2; 3; 4] idx))).

Definition vec_grad_2x3x2 : ndarray Q :=
  NdArray [2; 3; 2]
    (fun idx => inject_Z (Z.of_nat (1 + ravel_index [2; 3; 2] idx))).

Definition weights_4x2 : ndarray Q :=
  NdArray [4; 2]
    (fun idx => inject_Z (Z.of_nat (ravel_index [4; 2] idx))).

(** The pooling layers over the 4 x 4 input as the forward pass leaves
    them: the output, the padded spatial shape and the share computed from
    the windowed input are stored. *)
Definition pooled_state (self : pool_layer) (ip : ndarray Q)
  (padded_shape : nat * nat) : pool_layer :=
  match _get_pool_outputs self ip with
  | Ok (out, dX_share) =>
      PoolLayer (cls self) (layer_input self) (requires_dX self)
        (pool_size self) (stride self) (padding self) (p_H self)
        (p_W self) (windows self) (ip_H self) (ip_W self) (out_H self)
        (out_W self) (Some out) (Some padded_shape) (Some dX_share)
  | Raise _ => self
  end.

Definition max_layer_2x2_pooled : pool_layer :=
  pooled_state max_layer_2x2 windowed_4x4 (4, 4).

Definition avg_layer_2x2_pooled : pool_layer :=
  pooled_state avg_layer_2x2 windowed_4x4 (4, 4).

(** The position along axis [ax] at which the [k]-th of the inputs [Xs]
    starts in their concatenation: the sum of the lengths of the inputs
    before it. *)
Definition axis_offset {A : Type} (ax : nat) (Xs : list (ndarray A))
  (k : nat) : nat :=
  fold_right Nat.add 0 (map (fun Y => nth ax (shape Y) 0) (firstn k Xs)).





(** Vectorised windows and gradients of a depthwise convolution: one
    batch element, two channels, three windows of four entries, two
    filters per channel. *)
Definition depthwise_ip_1x2x3x4 : ndarray Q :=
  NdArray [1; 2; 3; 4]
    (fun idx => inject_Z (Z.of_nat (ravel_index [1; 2; 3; 4] idx))).

Definition depthwise_grad_1x2x3x2 : ndarray Q :=
  NdArray [1; 2; 3; 2]
    (fun idx => inject_Z (Z.of_nat (1 + ravel_index [1; 2; 3; 2] idx))).

Definition depthwise_weights_2x4x2 : ndarray Q :=
  NdArray [2; 4; 2]
    (fun idx => inject_Z (Z.of_nat (2 + ravel_index [2; 4; 2] idx))).

(** * Properties

    ** Shape and padding arithmetic *)

Open Scope Z_scope.

Lemma py_int_plus_one (a s : Z) :
  0 <= a -> 0 < s ->
  py_int (inject_Z a / inject_Z s + 1)%Q = a / s + 1.
Proof.
  intros Ha Hs. destruct s as [|s'|s']; try lia.
  unfold py_int, Qdiv, Qinv, Qmult, Qplus, inject_Z. simpl Qnum. simpl Qden.
  rewrite ?Z.mul_1_r, ?Pos.mul_1_l, ?Pos.mul_1_r, ?Z.mul_1_l.
  rewrite Z.quot_div_nonneg by lia.
  replace (a + Z.pos s') with (a + 1 * Z.pos s') by lia.
  rewrite Z.div_add by lia. reflexivity.
Qed.

Lemma py_int_quot (a s : Z) :
  0 < s -> py_int (inject_Z a / inject_Z s + 1)%Q = Z.quot (a + s) s.
Proof.
  intros Hs. destruct s as [|s'|s']; try lia.
  unfold py_int, Qdiv, Qinv, Qmult, Qplus, inject_Z. simpl Qnum. simpl Qden.
  rewrite ?Z.mul_1_r, ?Pos.mul_1_l, ?Pos.mul_1_r, ?Z.mul_1_l. reflexivity.
Qed.

Lemma output_dim_nonneg (n f p s : Z) :
  0 < s -> f <= n + 2 * p ->
  compute_conv_output_dim n f p s = Ok ((n - f + 2 * p) / s + 1).
Proof.
  intros Hs Hfit. unfold compute_conv_output_dim, py_truediv.
  destruct (Z.eqb_spec s 0) as [->|_]; [lia|]. cbn [bind].
  rewrite py_int_plus_one by lia. reflexivity.
Qed.

Example compute_conv_output_dim_drops_remainder :
  compute_conv_output_dim 8 3 0 2 = Ok 3.
Proof. reflexivity. Qed.

Lemma ceil_half (k : Z) : Qceiling (inject_Z (k - 1) / 2) = k / 2.
Proof.
  unfold Qceiling, Qfloor, Qdiv, Qinv, Qmult, Qopp, inject_Z. simpl.
  rewrite Z.mul_1_r.
  pose proof (Z.div_mod k 2 ltac:(lia)).
  pose proof (Z.mod_pos_bound k 2 ltac:(lia)).
  pose proof (Z.div_mod (- (k - 1)) 2 ltac:(lia)).
  pose proof (Z.mod_pos_bound (- (k - 1)) 2 ltac:(lia)).
  lia.
Qed.

Lemma same_padding (kH kW : Z) :
  compute_conv_padding (kH, kW) "same" = (kH / 2, kW / 2).
Proof. unfold compute_conv_padding. simpl. now rewrite !ceil_half. Qed.

(** *** Double precision *)

Lemma pow2_nonneg_exponent (e : Z) : 0 <= e -> (pow2 e == inject_Z (2 ^ e))%Q.
Proof.
  intros He. unfold pow2. rewrite Zpower_Qpower by exact He. reflexivity.
Qed.

Lemma pow2_pos (e : Z) : (0 < pow2 e)%Q.
Proof.
  unfold pow2. apply Qpower_0_lt. reflexivity.
Qed.

Lemma pow2_add (a b : Z) : (pow2 (a + b) == pow2 a * pow2 b)%Q.
Proof. unfold pow2. apply Qpower_plus. discriminate. Qed.

Lemma pow2_le (a b : Z) : a <= b -> (pow2 a <= pow2 b)%Q.
Proof.
  intros Hab. replace b with (a + (b - a)) by lia. rewrite pow2_add.
  rewrite (pow2_nonneg_exponent (e := b - a)) by lia.
  pose proof (pow2_pos a) as Ha.
  assert (H1 : (1 <= inject_Z (2 ^ (b - a)))%Q).
  { change 1%Q with (inject_Z 1). rewrite <- Zle_Qle.
    pose proof (Z.pow_pos_nonneg 2 (b - a)). lia. }
  nra.
Qed.

Lemma pow2_lt (a b : Z) : a < b -> (pow2 a < pow2 b)%Q.
Proof.
  intros Hab. replace b with (a + (b - a)) by lia. rewrite pow2_add.
  rewrite (pow2_nonneg_exponent (e := b - a)) by lia.
  pose proof (pow2_pos a) as Ha.
  assert (H1 : (2 <= inject_Z (2 ^ (b - a)))%Q).
  { change 2%Q with (inject_Z 2). rewrite <- Zle_Qle.
    replace (b - a) with (1 + (b - a - 1)) by lia.
    rewrite Z.pow_add_r by lia.
    pose proof (Z.pow_pos_nonneg 2 (b - a - 1)). lia. }
  nra.
Qed.

Lemma pow2_lt_inv (a b : Z) : (pow2 a < pow2 b)%Q -> a < b.
Proof.
  intros H. destruct (Z.lt_ge_cases a b) as [|Hge]; [assumption|].
  pose proof (pow2_le Hge). lra.
Qed.

Lemma binade_le (x : Q) : (0 < x)%Q -> (pow2 (binade x) <= x)%Q.
Proof.
  intros Hx. unfold binade.
  destruct (Qle_bool (pow2 (Z.log2 (Qnum x) - Z.log2 (Z.pos (Qden x))))
              x) eqn:E.
  - apply Qle_bool_iff. exact E.
  - clear E. destruct x as [a b]. cbn [Qnum Qden].
    assert (Ha : 0 < a).
    { unfold Qlt in Hx. cbn in Hx. lia. }
    pose proof (Z.log2_spec a Ha) as [Hla _].
    pose proof (Z.log2_spec (Z.pos b) ltac:(lia)) as [_ Hlb].
    pose proof (Z.log2_nonneg a) as Hna.
    pose proof (Z.log2_nonneg (Z.pos b)) as Hnb.
    set (la := Z.log2 a) in *. set (lb := Z.log2 (Z.pos b)) in *.
    replace (la - lb - 1) with (la + - (lb + 1)) by lia.
    rewrite pow2_add. unfold pow2 at 2. rewrite Qpower_opp.
    fold (pow2 (lb + 1)). rewrite !pow2_nonneg_exponent by lia.
    replace (Z.succ lb) with (lb + 1) in Hlb by lia.
    pose proof (Z.pow_pos_nonneg 2 (lb + 1) ltac:(lia) ltac:(lia)) as Hp.
    pose proof (Z.pow_pos_nonneg 2 la ltac:(lia) ltac:(lia)) as Hq.
    set (u := 2 ^ la) in *. set (v := 2 ^ (lb + 1)) in *.
    destruct v as [|v|v]; try lia.
    unfold Qle, Qmult, Qinv, inject_Z. cbn [Qnum Qden].
    rewrite !Z.mul_1_r, ?Pos.mul_1_l. nia.
Qed.

Lemma binade_lt (x : Q) (g : Z) :
  (0 < x)%Q -> (x < pow2 (g + 1))%Q -> binade x <= g.
Proof.
  intros Hx Hlt. pose proof (binade_le Hx) as Hle.
  assert (H : (pow2 (binade x) < pow2 (g + 1))%Q) by lra.
  apply pow2_lt_inv in H. lia.
Qed.

Lemma round_half_even_ge (x : Q) (lo : Z) :
  (inject_Z lo <= x)%Q -> lo <= round_half_even x.
Proof.
  intros H. apply Qfloor_resp_le in H. rewrite Qfloor_Z in H.
  unfold round_half_even.
  destruct (x - inject_Z (Qfloor x) ?= 1 # 2)%Q; [|lia|lia].
  destruct (Z.even (Qfloor x)); lia.
Qed.

Lemma round_half_even_le (x : Q) (hi : Z) :
  (x <= inject_Z hi)%Q -> round_half_even x <= hi.
Proof.
  intros H. pose proof (Qfloor_resp_le _ _ H) as Hf. rewrite Qfloor_Z in Hf.
  unfold round_half_even.
  destruct (Z.eq_dec (Qfloor x) hi) as [E|NE].
  - assert (Hx : (x - inject_Z (Qfloor x) < 1 # 2)%Q).
    { rewrite E. lra. }
    rewrite Qlt_alt in Hx. rewrite Hx. lia.
  - destruct (x - inject_Z (Qfloor x) ?= 1 # 2)%Q; [|lia|lia].
    destruct (Z.even (Qfloor x)); lia.
Qed.

(** A multiple of [2 ^ g] is a multiple of every finer spacing. *)
Lemma multiple_of_finer (n e g : Z) :
  e <= g ->
  (inject_Z n * pow2 g == inject_Z (n * 2 ^ (g - e)) * pow2 e)%Q.
Proof.
  intros H. replace g with ((g - e) + e) at 1 by lia. rewrite pow2_add.
  rewrite (pow2_nonneg_exponent (e := g - e)) by lia.
  rewrite inject_Z_mult. ring.
Qed.

Lemma round_to_spacing_ge (x : Q) (n g : Z) :
  Z.max (binade x - 52) (-1074) <= g ->
  (inject_Z n * pow2 g <= x)%Q ->
  (inject_Z n * pow2 g <= round_to_spacing x)%Q.
Proof.
  intros Hg Hle. unfold round_to_spacing.
  set (e := Z.max (binade x - 52) (-1074)) in *.
  rewrite (@multiple_of_finer n e g Hg) in Hle |- *.
  pose proof (pow2_pos e) as He.
  assert (H : (inject_Z (n * 2 ^ (g - e)) <= x / pow2 e)%Q).
  { apply Qle_shift_div_l; assumption. }
  apply round_half_even_ge in H. rewrite Zle_Qle in H. nra.
Qed.

Lemma round_to_spacing_le (x : Q) (n g : Z) :
  Z.max (binade x - 52) (-1074) <= g ->
  (x <= inject_Z n * pow2 g)%Q ->
  (round_to_spacing x <= inject_Z n * pow2 g)%Q.
Proof.
  intros Hg Hle. unfold round_to_spacing.
  set (e := Z.max (binade x - 52) (-1074)) in *.
  rewrite (@multiple_of_finer n e g Hg) in Hle |- *.
  pose proof (pow2_pos e) as He.
  assert (H : (x / pow2 e <= inject_Z (n * 2 ^ (g - e)))%Q).
  { apply Qle_shift_div_r; assumption. }
  apply round_half_even_le in H. rewrite Zle_Qle in H. nra.
Qed.

Lemma inject_Z_minus (a b : Z) :
  (inject_Z (a - b) == inject_Z a - inject_Z b)%Q.
Proof.
  unfold Z.sub. rewrite inject_Z_plus, inject_Z_opp. reflexivity.
Qed.

Lemma spacing_le (x : Q) (G : Z) :
  (0 < x)%Q -> (x < pow2 (G + 1))%Q -> -1022 <= G ->
  Z.max (binade x - 52) (-1074) <= G - 52.
Proof.
  intros Hx Hlt HG. pose proof (@binade_lt x G Hx Hlt). lia.
Qed.

(** A positive [x] between two multiples of the spacing around it rounds
    to a double between them. *)
Lemma round_double_between (x : Q) (n1 g1 n2 g2 : Z) :
  (0 < x)%Q ->
  Z.max (binade x - 52) (-1074) <= g1 ->
  Z.max (binade x - 52) (-1074) <= g2 ->
  (inject_Z n1 * pow2 g1 <= x)%Q ->
  (x <= inject_Z n2 * pow2 g2)%Q ->
  (inject_Z n2 * pow2 g2 < pow2 1024)%Q ->
  exists r, round_double x = Some r
            /\ (inject_Z n1 * pow2 g1 <= r)%Q
            /\ (r <= inject_Z n2 * pow2 g2)%Q.
Proof.
  intros Hx Hg1 Hg2 Hlo Hhi Hmax. unfold round_double.
  rewrite Qgt_alt in Hx. rewrite Hx.
  pose proof (@round_to_spacing_ge x n1 g1 Hg1 Hlo) as H1.
  pose proof (@round_to_spacing_le x n2 g2 Hg2 Hhi) as H2.
  destruct (Qle_bool (pow2 1024) (round_to_spacing x)) eqn:E.
  - apply Qle_bool_iff in E. lra.
  - eexists. split; [reflexivity|]. split; assumption.
Qed.

Lemma py_int_between (r : Q) (m : Z) :
  0 <= m -> (inject_Z m <= r)%Q -> (r < inject_Z (m + 1))%Q ->
  py_int r = m.
Proof.
  intros Hm Hlo Hhi. unfold py_int.
  assert (Hn : 0 <= Qnum r).
  { assert (H0 : (0 <= r)%Q).
    { apply Qle_trans with (inject_Z m); [|exact Hlo].
      change 0%Q with (inject_Z 0). rewrite <- Zle_Qle. exact Hm. }
    unfold Qle in H0. cbn in H0. lia. }
  rewrite Z.quot_div_nonneg by lia.
  replace (Qnum r / Z.pos (Qden r)) with (Qfloor r)
    by (destruct r; reflexivity).
  pose proof (Qfloor_resp_le _ _ Hlo) as H1. rewrite Qfloor_Z in H1.
  pose proof (Qfloor_le r) as H2.
  assert (H3 : (inject_Z (Qfloor r) < inject_Z (m + 1))%Q) by lra.
  rewrite <- Zlt_Qlt in H3. lia.
Qed.

Lemma pow2_neg_exponent (e : Z) :
  0 <= e -> (pow2 (- e) == / inject_Z (2 ^ e))%Q.
Proof.
  intros He. unfold pow2. rewrite Qpower_opp. fold (pow2 e).
  rewrite pow2_nonneg_exponent by exact He. reflexivity.
Qed.

Lemma pow2_0 : (pow2 0 == 1)%Q.
Proof. reflexivity. Qed.

(** The arithmetic behind the bound: with [k] the floor of [a / s] and
    [2 ^ G <= k + 1], the quotient stays [2 ^ (G - 52)] below [k + 1] as
    long as [a + s <= 2 ^ 52]. *)
Lemma quotient_below_next (a s : Z) :
  0 <= a -> 0 < s -> a + s <= 2 ^ 52 ->
  let k := a / s in
  let G := Z.log2 (k + 1) in
  0 <= k /\ 0 <= G <= 52 /\ k + 2 <= 2 ^ (G + 1)
  /\ (inject_Z k <= inject_Z a / inject_Z s)%Q
  /\ (inject_Z a / inject_Z s
      <= inject_Z ((k + 1) * 2 ^ (52 - G) - 1) * pow2 (G - 52))%Q.
Proof.
  intros Ha Hs Hb k G.
  pose proof (Z.div_mod a s ltac:(lia)) as Hdm.
  pose proof (Z.mod_pos_bound a s Hs) as Hmod.
  pose proof (Z.div_pos a s Ha Hs) as Hk. fold k in Hdm, Hk.
  pose proof (Z.log2_spec (k + 1) ltac:(lia)) as [HG1 HG2]. fold G in HG1, HG2.
  pose proof (Z.log2_nonneg (k + 1)) as HG0. fold G in HG0.
  replace (Z.succ G) with (G + 1) in HG2 by lia.
  assert (Hks : s * (k + 1) <= 2 ^ 52) by nia.
  assert (HG52 : G <= 52).
  { destruct (Z.le_gt_cases G 52) as [|Hgt]; [assumption|].
    assert (2 ^ 53 <= 2 ^ G) by (apply Z.pow_le_mono_r; lia).
    assert (2 ^ 52 < 2 ^ 53) by (apply Z.pow_lt_mono_r; lia). nia. }
  assert (HD : 2 ^ G * 2 ^ (52 - G) = 2 ^ 52).
  { rewrite <- Z.pow_add_r by lia. f_equal. lia. }
  pose proof (Z.pow_pos_nonneg 2 G ltac:(lia) ltac:(lia)) as HpG.
  pose proof (Z.pow_pos_nonneg 2 (52 - G) ltac:(lia) ltac:(lia)) as HpD.
  set (D := 2 ^ (52 - G)) in *. set (P := 2 ^ G) in *.
  assert (HsD : s <= D) by nia.
  split; [exact Hk|]. split; [lia|]. split; [lia|].
  assert (Hsq : (0 < inject_Z s)%Q).
  { change 0%Q with (inject_Z 0). rewrite <- Zlt_Qlt. exact Hs. }
  split.
  - apply Qle_shift_div_l; [exact Hsq|].
    rewrite <- inject_Z_mult, <- Zle_Qle. nia.
  - replace (G - 52) with (- (52 - G)) by lia.
    rewrite pow2_neg_exponent by lia. fold D.
    assert (HDq : (0 < inject_Z D)%Q).
    { change 0%Q with (inject_Z 0). rewrite <- Zlt_Qlt. exact HpD. }
    apply Qle_shift_div_r; [exact Hsq|].
    change (inject_Z ((k + 1) * D - 1) * / inject_Z D)%Q
      with (inject_Z ((k + 1) * D - 1) / inject_Z D)%Q.
    assert (Hz : (inject_Z a * inject_Z D
                  <= inject_Z ((k + 1) * D - 1) * inject_Z s)%Q).
    { rewrite <- !inject_Z_mult, <- Zle_Qle. nia. }
    apply Qle_shift_div_l in Hz; [|exact HDq].
    unfold Qdiv in *.
    setoid_replace (inject_Z ((k + 1) * D - 1) * / inject_Z D * inject_Z s)%Q
      with (inject_Z ((k + 1) * D - 1) * inject_Z s * / inject_Z D)%Q
      by ring.
    exact Hz.
Qed.

Lemma output_dim_double_nonneg (n f p s : Z) :
  0 < s -> f <= n + 2 * p -> n - f + 2 * p + s <= 2 ^ 52 ->
  compute_conv_output_dim_double n f p s = Ok ((n - f + 2 * p) / s + 1).
Proof.
  intros Hs Hfit Hb. unfold compute_conv_output_dim_double, py_truediv_double.
  destruct (Z.eqb_spec s 0) as [->|_]; [lia|].
  set (a := n - f + 2 * p) in *.
  destruct (@quotient_below_next a s ltac:(lia) Hs Hb)
    as (Hk & HG & HG2 & Hlo & Hhi).
  set (k := a / s) in *. set (G := Z.log2 (k + 1)) in *.
  set (x := (inject_Z a / inject_Z s)%Q) in *.
  pose proof (Z.pow_pos_nonneg 2 (52 - G) ltac:(lia) ltac:(lia)) as HpD.
  set (D := 2 ^ (52 - G)) in *.
  assert (Hd : (pow2 (G - 52) * inject_Z D == 1)%Q).
  { replace (G - 52) with (- (52 - G)) by lia.
    rewrite pow2_neg_exponent by lia. fold D. field.
    intros E. unfold Qeq in E. cbn in E. lia. }
  pose proof (pow2_pos (G - 52)) as Hdp.
  assert (Hk2 : (inject_Z (k + 2) <= pow2 (G + 1))%Q).
  { rewrite pow2_nonneg_exponent by lia. rewrite <- Zle_Qle. lia. }
  assert (Hbig : (pow2 (G + 1) < pow2 1024)%Q) by (apply pow2_lt; lia).
  assert (Hq : exists q, round_double x = Some q
                         /\ (inject_Z k <= q)%Q
                         /\ (q <= inject_Z (k + 1) - pow2 (G - 52))%Q).
  { destruct (Qlt_le_dec 0 x) as [Hx|Hx0].
    - assert (Hxlt : (x < pow2 (G + 1))%Q).
      { rewrite inject_Z_minus, inject_Z_mult, !inject_Z_plus in Hhi.
        rewrite inject_Z_plus in Hk2. change (inject_Z 1) with 1%Q in *.
        change (inject_Z 2) with 2%Q in *. nra. }
      pose proof (@spacing_le x G Hx Hxlt ltac:(lia)) as Hsp.
      destruct (@round_double_between x k 0 ((k + 1) * D - 1) (G - 52) Hx
                  ltac:(lia) Hsp) as (q & Eq & Hq1 & Hq2).
      + rewrite pow2_0. lra.
      + exact Hhi.
      + rewrite inject_Z_minus, inject_Z_mult, !inject_Z_plus.
        rewrite inject_Z_plus in Hk2. change (inject_Z 1) with 1%Q in *.
        change (inject_Z 2) with 2%Q in *. nra.
      + exists q. split; [exact Eq|]. rewrite pow2_0 in Hq1.
        rewrite inject_Z_minus, inject_Z_mult, !inject_Z_plus in Hq2.
        change (inject_Z 1) with 1%Q in *.
        rewrite inject_Z_plus. change (inject_Z 1) with 1%Q. split; nra.
    - assert (Ex : (x == 0)%Q).
      { assert (H0 : (0 <= inject_Z k)%Q).
        { change 0%Q with (inject_Z 0). rewrite <- Zle_Qle. exact Hk. }
        lra. }
      assert (Ek : k = 0).
      { assert (H0 : (inject_Z k <= inject_Z 0)%Q).
        { change (inject_Z 0) with 0%Q. lra. }
        rewrite <- Zle_Qle in H0. lia. }
      exists 0%Q. split.
      + unfold round_double. rewrite Qeq_alt in Ex. rewrite Ex. reflexivity.
      + rewrite Ek in *. change (inject_Z 0) with 0%Q.
        change (inject_Z (0 + 1)) with 1%Q.
        assert (HD1 : (1 <= inject_Z D)%Q).
        { change 1%Q with (inject_Z 1). rewrite <- Zle_Qle. lia. }
        split; [lra|]. nra. }
  destruct Hq as (q & Eq & Hq1 & Hq2). rewrite Eq. cbn [bind].
  unfold py_add_double.
  assert (Hy : (0 < q + 1)%Q).
  { assert (H0 : (0 <= inject_Z k)%Q).
    { change 0%Q with (inject_Z 0). rewrite <- Zle_Qle. exact Hk. }
    lra. }
  rewrite inject_Z_plus in Hq2, Hk2. change (inject_Z 1) with 1%Q in *.
  change (inject_Z 2) with 2%Q in *.
  assert (Hylt : (q + 1 < pow2 (G + 1))%Q) by lra.
  pose proof (@spacing_le (q + 1) G Hy Hylt ltac:(lia)) as Hsp.
  destruct (@round_double_between (q + 1) (k + 1) 0 ((k + 2) * D - 1)
              (G - 52) Hy ltac:(lia) Hsp) as (r & Er & Hr1 & Hr2).
  - rewrite pow2_0, inject_Z_plus. change (inject_Z 1) with 1%Q. lra.
  - rewrite inject_Z_minus, inject_Z_mult, !inject_Z_plus.
    change (inject_Z 1) with 1%Q. change (inject_Z 2) with 2%Q. nra.
  - rewrite inject_Z_minus, inject_Z_mult, !inject_Z_plus.
    change (inject_Z 1) with 1%Q. change (inject_Z 2) with 2%Q. nra.
  - rewrite Er. cbn [py_int_double]. f_equal.
    apply py_int_between; [lia| |].
    + rewrite pow2_0 in Hr1. lra.
    + rewrite inject_Z_minus, inject_Z_mult, !inject_Z_plus in Hr2.
      rewrite !inject_Z_plus.
      change (inject_Z 1) with 1%Q in *. change (inject_Z 2) with 2%Q in *.
      nra.
Qed.

Lemma round_to_spacing_ge_pow2 (x : Q) (g : Z) :
  (0 < x)%Q -> -1074 <= g -> (pow2 g <= x)%Q ->
  (pow2 g <= round_to_spacing x)%Q.
Proof.
  intros Hx Hg Hle.
  destruct (Z.le_gt_cases (Z.max (binade x - 52) (-1074)) g) as [He|He].
  - pose proof (@round_to_spacing_ge x 1 g He) as H.
    change (inject_Z 1) with 1%Q in H. rewrite Qmult_1_l in H. auto.
  - pose proof (@round_to_spacing_ge x 1 (binade x) ltac:(lia)) as H.
    change (inject_Z 1) with 1%Q in H. rewrite Qmult_1_l in H.
    specialize (H (binade_le Hx)).
    pose proof (@pow2_le g (binade x) ltac:(lia)). lra.
Qed.

(** The same for a negative [x], through its magnitude. *)
Lemma round_double_between_neg (x : Q) (n1 g1 n2 g2 : Z) :
  (x < 0)%Q ->
  Z.max (binade (- x) - 52) (-1074) <= g1 ->
  Z.max (binade (- x) - 52) (-1074) <= g2 ->
  (inject_Z n1 * pow2 g1 <= - x)%Q ->
  (- x <= inject_Z n2 * pow2 g2)%Q ->
  (inject_Z n2 * pow2 g2 < pow2 1024)%Q ->
  exists r, round_double x = Some (- r)%Q
            /\ (inject_Z n1 * pow2 g1 <= r)%Q
            /\ (r <= inject_Z n2 * pow2 g2)%Q.
Proof.
  intros Hx Hg1 Hg2 Hlo Hhi Hmax. unfold round_double.
  rewrite Qlt_alt in Hx. rewrite Hx.
  pose proof (@round_to_spacing_ge (- x) n1 g1 Hg1 Hlo) as H1.
  pose proof (@round_to_spacing_le (- x) n2 g2 Hg2 Hhi) as H2.
  destruct (Qle_bool (pow2 1024) (round_to_spacing (- x))) eqn:E.
  - apply Qle_bool_iff in E. lra.
  - eexists. split; [reflexivity|]. split; assumption.
Qed.

Lemma py_int_opp (r : Q) : py_int (- r) = - py_int r.
Proof.
  unfold py_int. destruct r as [a b]. cbn [Qopp Qnum Qden].
  apply Z.quot_opp_l. lia.
Qed.

Lemma output_dim_double_neg (n f p s : Z) :
  0 < s -> n + 2 * p < f -> f - n - 2 * p + s <= 2 ^ 52 ->
  compute_conv_output_dim_double n f p s
  = Ok (Z.quot (n - f + 2 * p + s) s).
Proof.
  intros Hs Hbig Hb. unfold compute_conv_output_dim_double, py_truediv_double.
  destruct (Z.eqb_spec s 0) as [->|_]; [lia|].
  set (b := f - n - 2 * p) in *.
  replace (n - f + 2 * p) with (- b) by (unfold b; lia).
  assert (Hbpos : 0 < b) by (unfold b; lia).
  destruct (@quotient_below_next b s ltac:(lia) Hs Hb)
    as (Hk & HG & HG2 & Hlo & Hhi).
  pose proof (Z.div_mod b s ltac:(lia)) as Hdm.
  pose proof (Z.mod_pos_bound b s Hs) as Hmod.
  set (k := b / s) in *. set (G := Z.log2 (k + 1)) in *.
  set (x := (inject_Z (- b) / inject_Z s)%Q).
  assert (Hsq : (0 < inject_Z s)%Q).
  { change 0%Q with (inject_Z 0). rewrite <- Zlt_Qlt. exact Hs. }
  assert (Ex : (- x == inject_Z b / inject_Z s)%Q).
  { unfold x. rewrite inject_Z_opp. field. lra. }
  assert (Hxneg : (x < 0)%Q).
  { assert (H0 : (0 < inject_Z b / inject_Z s)%Q).
    { apply Qlt_shift_div_l; [exact Hsq|]. rewrite Qmult_0_l.
      change 0%Q with (inject_Z 0). rewrite <- Zlt_Qlt. exact Hbpos. }
    lra. }
  rewrite <- Ex in Hlo, Hhi.
  pose proof (Z.pow_pos_nonneg 2 (52 - G) ltac:(lia) ltac:(lia)) as HpD.
  set (D := 2 ^ (52 - G)) in *.
  assert (Hd : (pow2 (G - 52) * inject_Z D == 1)%Q).
  { replace (G - 52) with (- (52 - G)) by lia.
    rewrite pow2_neg_exponent by lia. fold D. field.
    intros E. unfold Qeq in E. cbn in E. lia. }
  pose proof (pow2_pos (G - 52)) as Hdp.
  assert (Hk2 : (inject_Z (k + 2) <= pow2 (G + 1))%Q).
  { rewrite pow2_nonneg_exponent by lia. rewrite <- Zle_Qle. lia. }
  assert (Hbig2 : (pow2 (G + 1) < pow2 1024)%Q) by (apply pow2_lt; lia).
  assert (Hk0 : (0 <= inject_Z k)%Q).
  { change 0%Q with (inject_Z 0). rewrite <- Zle_Qle. exact Hk. }
  rewrite inject_Z_minus, inject_Z_mult, inject_Z_plus in Hhi.
  rewrite inject_Z_plus in Hk2.
  change (inject_Z 1) with 1%Q in *. change (inject_Z 2) with 2%Q in *.
  assert (Hxlt : (- x < pow2 (G + 1))%Q) by nra.
  assert (Hxpos : (0 < - x)%Q) by lra.
  pose proof (@spacing_le (- x) G Hxpos Hxlt ltac:(lia)) as Hsp.
  destruct (@round_double_between_neg x k 0 ((k + 1) * D - 1) (G - 52) Hxneg
              ltac:(lia) Hsp) as (r1 & Er1 & Hr1 & Hr2).
  { rewrite pow2_0. lra. }
  { rewrite inject_Z_minus, inject_Z_mult, inject_Z_plus.
    change (inject_Z 1) with 1%Q. nra. }
  { rewrite inject_Z_minus, inject_Z_mult, inject_Z_plus.
    change (inject_Z 1) with 1%Q. nra. }
  rewrite pow2_0 in Hr1.
  rewrite inject_Z_minus, inject_Z_mult, inject_Z_plus in Hr2.
  change (inject_Z 1) with 1%Q in *.
  assert (Hr2' : (r1 <= inject_Z k + 1 - pow2 (G - 52))%Q) by nra.
  fold x. rewrite Er1. cbn [bind]. unfold py_add_double.
  destruct (Z.eq_dec k 0) as [Ek|Ek].
  - (* the quotient lies in (-1, 0) *)
    assert (HG0 : G = 0) by (unfold G; rewrite Ek; reflexivity).
    rewrite Z.quot_small by nia.
    assert (Hsmall : (pow2 (-52) <= - x)%Q).
    { rewrite (@pow2_neg_exponent 52) by lia. rewrite Ex.
      apply Qle_shift_div_l; [exact Hsq|].
      assert (Hs52 : (inject_Z s <= inject_Z (2 ^ 52))%Q).
      { rewrite <- Zle_Qle. lia. }
      assert (Hb1 : (1 <= inject_Z b)%Q).
      { change 1%Q with (inject_Z 1). rewrite <- Zle_Qle. lia. }
      assert (Hp : (0 < inject_Z (2 ^ 52))%Q) by reflexivity.
      apply Qle_trans with (/ inject_Z (2 ^ 52) * inject_Z (2 ^ 52))%Q.
      - apply Qmult_le_l; [|exact Hs52].
        apply Qinv_lt_0_compat. exact Hp.
      - rewrite Qmult_comm, Qmult_inv_r by (intros E; discriminate E).
        exact Hb1. }
    assert (Hr3 : (pow2 (-52) <= r1)%Q).
    { unfold round_double in Er1. rewrite Qlt_alt in Hxneg.
      rewrite Hxneg in Er1.
      destruct (Qle_bool (pow2 1024) (round_to_spacing (- x)));
        [discriminate|].
      apply (f_equal (fun o => match o with Some q => q | None => 0%Q end))
        in Er1.
      assert (E1 : (r1 == round_to_spacing (- x))%Q).
      { assert (E2 : (- round_to_spacing (- x) == - r1)%Q)
          by (rewrite Er1; reflexivity).
        lra. }
      rewrite E1. apply round_to_spacing_ge_pow2; [exact Hxpos|lia|].
      exact Hsmall. }
    rewrite Ek, HG0 in *. change (0 - 52) with (-52) in *.
    change (inject_Z 0) with 0%Q in *.
    pose proof (pow2_pos (-52)) as Hp52.
    assert (Hy : (0 < - r1 + 1)%Q) by lra.
    assert (Hylt : (- r1 + 1 < pow2 (0 + 1))%Q).
    { change (pow2 (0 + 1)) with 2%Q. lra. }
    pose proof (@spacing_le (- r1 + 1) 0 Hy Hylt ltac:(lia)) as Hsp2.
    destruct (@round_double_between (- r1 + 1) 0 0 (2 ^ 52 - 1) (-52) Hy
                ltac:(lia) Hsp2) as (r2 & Er2 & Hr4 & Hr5).
    + change (inject_Z 0) with 0%Q. lra.
    + rewrite inject_Z_minus.
      rewrite <- (@pow2_nonneg_exponent 52) by lia.
      change (inject_Z 1) with 1%Q.
      assert (Hone : (pow2 52 * pow2 (-52) == 1)%Q).
      { rewrite <- pow2_add. reflexivity. }
      nra.
    + apply Qlt_trans with (pow2 1); [|apply pow2_lt; lia].
      rewrite inject_Z_minus.
      rewrite <- (@pow2_nonneg_exponent 52) by lia.
      change (inject_Z 1) with 1%Q. change (pow2 1) with 2%Q.
      assert (Hone : (pow2 52 * pow2 (-52) == 1)%Q).
      { rewrite <- pow2_add. reflexivity. }
      nra.
    + rewrite Er2. cbn [py_int_double]. f_equal.
      apply py_int_between; [lia| |].
      * change (inject_Z 0) with 0%Q in *. lra.
      * rewrite inject_Z_minus in Hr5.
        rewrite <- (@pow2_nonneg_exponent 52) in Hr5 by lia.
        change (inject_Z 1) with 1%Q in Hr5.
        assert (Hone : (pow2 52 * pow2 (-52) == 1)%Q).
        { rewrite <- pow2_add. reflexivity. }
        change (inject_Z (0 + 1)) with 1%Q. nra.
  - (* the quotient is at most -1 *)
    assert (Hk1 : 1 <= k) by lia.
    assert (Eq : Z.quot (- b + s) s = - (k - 1)).
    { replace (- b + s) with (- (b - s)) by lia.
      rewrite Z.quot_opp_l by lia. f_equal.
      rewrite Z.quot_div_nonneg by nia.
      symmetry. apply (Z.div_unique (b - s) s (k - 1) (b mod s)); [lia|nia]. }
    rewrite Eq.
    assert (Hk1q : (1 <= inject_Z k)%Q).
    { change 1%Q with (inject_Z 1). rewrite <- Zle_Qle. exact Hk1. }
    destruct (Qlt_le_dec (- r1 + 1) 0) as [Hy|Hy].
    + assert (Hypos : (0 < - (- r1 + 1))%Q) by lra.
      assert (Hylt : (- (- r1 + 1) < pow2 (G + 1))%Q) by lra.
      pose proof (@spacing_le _ G Hypos Hylt ltac:(lia)) as Hsp2.
      destruct (@round_double_between_neg (- r1 + 1) (k - 1) 0
                  (k * D - 1) (G - 52) Hy ltac:(lia) Hsp2)
        as (r2 & Er2 & Hr4 & Hr5).
      * rewrite pow2_0, inject_Z_minus. change (inject_Z 1) with 1%Q. lra.
      * rewrite inject_Z_minus, inject_Z_mult.
        change (inject_Z 1) with 1%Q. nra.
      * rewrite inject_Z_minus, inject_Z_mult.
        change (inject_Z 1) with 1%Q. nra.
      * rewrite Er2. cbn [py_int_double]. f_equal. rewrite py_int_opp.
        f_equal. apply py_int_between; [lia| |].
        -- rewrite pow2_0 in Hr4. lra.
        -- rewrite inject_Z_minus, inject_Z_mult in Hr5.
           replace (k - 1 + 1) with k by lia.
           change (inject_Z 1) with 1%Q in Hr5. nra.
    + assert (Ey : (- r1 + 1 == 0)%Q) by lra.
      assert (Ek1 : k = 1).
      { assert (H1 : (inject_Z k <= inject_Z 1)%Q).
        { change (inject_Z 1) with 1%Q. lra. }
        rewrite <- Zle_Qle in H1. lia. }
      unfold round_double. rewrite Qeq_alt in Ey. rewrite Ey.
      rewrite Ek1. reflexivity.
Qed.

(** Within the bound the double-precision evaluation and the exact one
    return the same size. *)
Lemma output_dim_double_exact (n f p s : Z) :
  0 < s -> Z.abs (n - f + 2 * p) + s <= 2 ^ 52 ->
  compute_conv_output_dim_double n f p s = compute_conv_output_dim n f p s.
Proof.
  intros Hs Hb. destruct (Z.le_gt_cases f (n + 2 * p)) as [Hfit|Hbig].
  - rewrite output_dim_double_nonneg by lia.
    unfold compute_conv_output_dim, py_truediv.
    destruct (Z.eqb_spec s 0) as [->|_]; [lia|]. cbn [bind].
    rewrite py_int_plus_one by lia. reflexivity.
  - rewrite output_dim_double_neg by lia.
    unfold compute_conv_output_dim, py_truediv.
    destruct (Z.eqb_spec s 0) as [->|_]; [lia|]. cbn [bind].
    rewrite py_int_quot by exact Hs. reflexivity.
Qed.

(** Half of an int below [2 ^ 53] is a double: the quotient of
    [compute_conv_padding] is not rounded. *)
Lemma half_is_exact (m : Z) :
  0 <= m < 2 ^ 53 ->
  exists q, py_truediv_double m 2 = Ok q /\ (q == inject_Z m / 2)%Q.
Proof.
  intros Hm. unfold py_truediv_double. cbn [Z.eqb].
  change (inject_Z 2) with 2%Q.
  destruct (Z.eq_dec m 0) as [->|Hne].
  - exists 0%Q. split; reflexivity.
  - set (x := (inject_Z m / 2)%Q).
    assert (Hm1 : (1 <= inject_Z m)%Q).
    { change 1%Q with (inject_Z 1). rewrite <- Zle_Qle. lia. }
    assert (Hm2 : (inject_Z m < pow2 53)%Q).
    { rewrite pow2_nonneg_exponent by lia. rewrite <- Zlt_Qlt. lia. }
    assert (E53 : (pow2 53 == 2 * pow2 52)%Q) by reflexivity.
    assert (Ex : (x == inject_Z m * pow2 (-1))%Q).
    { unfold x. change (pow2 (-1)) with (/ 2)%Q. reflexivity. }
    assert (Hx : (0 < x)%Q) by (rewrite Ex; change (pow2 (-1)) with (1 # 2); lra).
    assert (Hxlt : (x < pow2 (51 + 1))%Q).
    { rewrite Ex. change (pow2 (-1)) with (1 # 2).
      change (51 + 1) with 52. lra. }
    pose proof (@spacing_le x 51 Hx Hxlt ltac:(lia)) as Hsp.
    destruct (@round_double_between x m (-1) m (-1) Hx ltac:(lia) ltac:(lia))
      as (q & Eq & Hq1 & Hq2).
    + rewrite Ex. apply Qle_refl.
    + rewrite Ex. apply Qle_refl.
    + apply Qlt_trans with (pow2 52); [|apply pow2_lt; lia].
      change (pow2 (-1)) with (1 # 2). lra.
    + exists q. split; [rewrite Eq; reflexivity|]. rewrite Ex.
      apply Qle_antisym; assumption.
Qed.

(** Kernel sizes up to [2 ^ 53] get the same padding in double precision
    as in exact arithmetic; a mode other than "same" involves no
    arithmetic at all. *)
Lemma padding_double_exact (kH kW : Z) (mode : string) :
  (mode = "same"%string -> 0 < kH <= 2 ^ 53 /\ 0 < kW <= 2 ^ 53) ->
  compute_conv_padding_double (kH, kW) mode
  = Ok (compute_conv_padding (kH, kW) mode).
Proof.
  intros Hk. unfold compute_conv_padding_double, compute_conv_padding.
  destruct (String.eqb_spec mode "same") as [E|_]; [|reflexivity].
  destruct (Hk E) as [HkH HkW].
  destruct (@half_is_exact (kH - 1) ltac:(lia)) as (qH & -> & EH).
  destruct (@half_is_exact (kW - 1) ltac:(lia)) as (qW & -> & EW).
  cbn [bind]. unfold py_ceil. now rewrite EH, EW.
Qed.

(** C5 (amended).  For positive [n], [f], [s] and non-negative [p] with
    [f <= n + 2 * p] and [(n - f + 2 * p) + s <= 2 ^ 52],
    [compute_conv_output_dim n f p s] returns
    [floor((n - f + 2 * p) / s) + 1], in double precision as the
    interpreter computes it and in exact arithmetic alike. *)
Theorem compute_conv_output_dim_floor (n f p s : Z) :
  0 < n -> 0 < f -> 0 < s -> 0 <= p -> f <= n + 2 * p ->
  n - f + 2 * p + s <= 2 ^ 52 ->
  compute_conv_output_dim_double n f p s = Ok ((n - f + 2 * p) / s + 1)
  /\ compute_conv_output_dim n f p s = Ok ((n - f + 2 * p) / s + 1).
Proof.
  intros _ _ Hs _ Hfit Hb. split.
  - now apply output_dim_double_nonneg.
  - now apply output_dim_nonneg.
Qed.

Lemma compute_conv_output_dim_floor_witness :
  0 < 7 /\ 0 < 3 /\ 0 < 2 /\ 0 <= 1 /\ 3 <= 7 + 2 * 1
  /\ 7 - 3 + 2 * 1 + 2 <= 2 ^ 52
  /\ compute_conv_output_dim_double 7 3 1 2 = Ok ((7 - 3 + 2 * 1) / 2 + 1)
  /\ compute_conv_output_dim 7 3 1 2 = Ok ((7 - 3 + 2 * 1) / 2 + 1).
Proof.
  repeat (split; [lia|]). apply compute_conv_output_dim_floor; lia.
Defined.

(** An input of length [2 ^ 53 + 1] under a kernel of length 1 at stride
    1: the quotient [2 ^ 53] and the sum [2 ^ 53 + 1] are both rounded to
    the double [2 ^ 53], one less than the floor formula gives. *)
Lemma compute_conv_output_dim_rounds :
  0 < 2 ^ 53 + 1 /\ 0 < 1 /\ 0 <= 0 /\ 1 <= 2 ^ 53 + 1 + 2 * 0
  /\ compute_conv_output_dim_double (2 ^ 53 + 1) 1 0 1 = Ok (2 ^ 53)
  /\ (2 ^ 53 + 1 - 1 + 2 * 0) / 1 + 1 = 2 ^ 53 + 1
  /\ compute_conv_output_dim_double (2 ^ 53 + 1) 1 0 1
     <> Ok ((2 ^ 53 + 1 - 1 + 2 * 0) / 1 + 1).
Proof.
  repeat (split; [lia|]). split; [vm_compute; reflexivity|].
  split; [reflexivity|]. vm_compute. discriminate.
Qed.

(** A stride of [2 ^ 53] under an input of length [3 * 2 ^ 53]: the
    quotient rounds up to 3 and the result is 4, one more than the floor
    formula gives. *)
Example compute_conv_output_dim_rounds_up :
  compute_conv_output_dim_double (3 * 2 ^ 53) 1 0 (2 ^ 53) = Ok 4
  /\ (3 * 2 ^ 53 - 1 + 2 * 0) / 2 ^ 53 + 1 = 3.
Proof. split; [vm_compute; reflexivity|reflexivity]. Qed.

(** A kernel too large for a float makes the division itself fail. *)
Example compute_conv_output_dim_overflows :
  compute_conv_output_dim_double 1 (10 ^ 400) 0 1 = Raise OverflowError.
Proof. vm_compute. reflexivity. Qed.

(** C3 (amended).  At stride 1 and for an input size [n] below [2 ^ 52],
    "same" padding gives back the input size [n] for an odd kernel size
    [k <= n], and [n + 1] for an even one; the padding and the output
    size are those of the double-precision evaluation and of the exact
    one alike. *)
Theorem same_padding_stride_one (k n : Z) :
  0 < k -> k <= n -> n < 2 ^ 52 ->
  (pad <- compute_conv_padding_double (k, k) "same" ;;
   compute_conv_output_dim_double n k (fst pad) 1)
  = Ok (if Z.odd k then n else n + 1)
  /\ compute_conv_output_dim n k (fst (compute_conv_padding (k, k) "same")) 1
     = Ok (if Z.odd k then n else n + 1).
Proof.
  intros Hk Hn Hb.
  assert (H52 : 2 ^ 52 < 2 ^ 53) by (apply Z.pow_lt_mono_r; lia).
  rewrite padding_double_exact by (intros _; lia).
  cbn [bind]. rewrite same_padding. cbn [fst].
  pose proof (Z.div_mod k 2 ltac:(lia)) as Hdm.
  pose proof (Z.mod_pos_bound k 2 ltac:(lia)).
  rewrite output_dim_double_nonneg by lia.
  rewrite output_dim_nonneg by lia.
  rewrite Z.div_1_r.
  assert (E : n - k + 2 * (k / 2) + 1 = if Z.odd k then n else n + 1).
  { destruct (Z.odd k) eqn:E.
    - apply Z.odd_spec in E. destruct E as [q ->]. lia.
    - rewrite <- Z.negb_even in E. apply negb_false_iff, Z.even_spec in E.
      destruct E as [q ->]. lia. }
  rewrite E. split; reflexivity.
Qed.

Lemma same_padding_stride_one_witness :
  0 < 3 /\ 3 <= 5 /\ 5 < 2 ^ 52
  /\ (pad <- compute_conv_padding_double (3, 3) "same" ;;
      compute_conv_output_dim_double 5 3 (fst pad) 1)
     = Ok (if Z.odd 3 then 5 else 5 + 1)
  /\ compute_conv_output_dim 5 3 (fst (compute_conv_padding (3, 3) "same")) 1
     = Ok (if Z.odd 3 then 5 else 5 + 1).
Proof.
  split; [lia|]. split; [lia|]. split; [lia|].
  apply same_padding_stride_one; lia.
Defined.

(** A 2 x 2 kernel on an input of size 4: the padding is 1 and the output
    size is 5, not 4. *)
Lemma same_padding_even_kernel_grows :
  compute_conv_padding (2, 2) "same" = (1, 1)
  /\ compute_conv_output_dim 4 2 1 1 = Ok 5
  /\ compute_conv_output_dim 4 2 1 1 <> Ok 4.
Proof. split; [reflexivity | split; [reflexivity | discriminate]]. Qed.

(** The same in double precision. *)
Example same_padding_even_kernel_grows_double :
  compute_conv_padding_double (2, 2) "same" = Ok (1, 1)
  /\ compute_conv_output_dim_double 4 2 1 1 = Ok 5.
Proof. split; vm_compute; reflexivity. Qed.

(** C9 (amended).  A padding mode other than "same" is never rejected
    and is treated as "valid".  [compute_conv_padding] returns (0, 0) for
    it, with no arithmetic that could fail.  Building a pooling layer with
    it has the outcome of building the layer with "valid": the same
    exception if that raises, and otherwise the same layer with the given
    mode stored in [padding].  [Conv.__init__] stores the mode unchecked,
    and the layer has the output area and the padded shape of "valid". *)
Theorem unknown_padding_mode_is_valid (mode : string) (size : Z * Z)
  (c : pool_class) (ip : ndarray Q) (needs_dX : bool)
  (input_shape : list nat) (filters : Z) (step : Z * Z) :
  mode <> "same"%string ->
  compute_conv_padding size mode = (0, 0)
  /\ compute_conv_padding_double size mode = Ok (0, 0)
  /\ pool_init c ip needs_dX input_shape size step mode
     = (l <- pool_init c ip needs_dX input_shape size step "valid" ;;
        Ok (PoolLayer (cls l) (layer_input l) (requires_dX l) (pool_size l)
              (stride l) mode (p_H l) (p_W l) (windows l) (ip_H l)
              (ip_W l) (out_H l) (out_W l) (pooled l) (_padded_shape l)
              (_dX_share l)))
  /\ Conv.init input_shape filters size step mode
     = (l <- Conv.init input_shape filters size step "valid" ;;
        Ok (Conv.Layer (Conv.input_shape l) (Conv.filters l)
              (Conv.kernel_size l) (Conv.stride l) mode (Conv.ip_C l)))
  /\ (l <- Conv.init input_shape filters size step mode ;;
      Conv.output_area l)
     = (l <- Conv.init input_shape filters size step "valid" ;;
        Conv.output_area l)
  /\ (l <- Conv.init input_shape filters size step mode ;;
      Conv.padded_shape l)
     = (l <- Conv.init input_shape filters size step "valid" ;;
        Conv.padded_shape l).
Proof.
  intros Hmode.
  assert (Hpad : forall ks, compute_conv_padding ks mode = (0, 0)).
  { intros ks. unfold compute_conv_padding.
    destruct (String.eqb_spec mode "same") as [E|_]; [contradiction|].
    reflexivity. }
  split; [apply Hpad|]. split.
  { unfold compute_conv_padding_double.
    destruct (String.eqb_spec mode "same") as [E|_]; [contradiction|].
    reflexivity. }
  split.
  { unfold pool_init. destruct size as [pool_H pool_W].
    destruct step as [stride_H stride_W]. rewrite Hpad.
    change (compute_conv_padding (pool_H, pool_W) "valid") with (0, 0).
    destruct (removelast input_shape) as [|w [|h [|w' [|x l]]]];
      try reflexivity.
    destruct (compute_conv_output_dim (Z.of_nat h) pool_H 0 stride_H);
      [|reflexivity].
    destruct (compute_conv_output_dim (Z.of_nat w') pool_W 0 stride_W);
      reflexivity. }
  unfold Conv.init. destruct input_shape as [|ip_C rest].
  { repeat split; reflexivity. }
  cbn [bind]. split; [reflexivity|].
  unfold Conv.output_area, Conv.padded_shape.
  cbn [Conv.input_shape Conv.kernel_size Conv.padding Conv.stride].
  rewrite Hpad.
  change (compute_conv_padding size "valid") with (0, 0).
  split; reflexivity.
Qed.

Lemma unknown_padding_mode_is_valid_witness :
  "full"%string <> "same"%string
  /\ compute_conv_padding (2, 2) "full" = (0, 0)
  /\ compute_conv_padding_double (2, 2) "full" = Ok (0, 0)
  /\ pool_init MaxPooling2D input_4x4 true [1; 4; 4; 1]%nat (2, 2) (2, 2)
       "full"
     = (l <- pool_init MaxPooling2D input_4x4 true [1; 4; 4; 1]%nat (2, 2)
               (2, 2) "valid" ;;
        Ok (PoolLayer (cls l) (layer_input l) (requires_dX l) (pool_size l)
              (stride l) "full" (p_H l) (p_W l) (windows l) (ip_H l)
              (ip_W l) (out_H l) (out_W l) (pooled l) (_padded_shape l)
              (_dX_share l)))
  /\ Conv.init [1; 4; 4; 1]%nat 1 (2, 2) (2, 2) "full"
     = (l <- Conv.init [1; 4; 4; 1]%nat 1 (2, 2) (2, 2) "valid" ;;
        Ok (Conv.Layer (Conv.input_shape l) (Conv.filters l)
              (Conv.kernel_size l) (Conv.stride l) "full" (Conv.ip_C l)))
  /\ (l <- Conv.init [1; 4; 4; 1]%nat 1 (2, 2) (2, 2) "full" ;;
      Conv.output_area l)
     = (l <- Conv.init [1; 4; 4; 1]%nat 1 (2, 2) (2, 2) "valid" ;;
        Conv.output_area l)
  /\ (l <- Conv.init [1; 4; 4; 1]%nat 1 (2, 2) (2, 2) "full" ;;
      Conv.padded_shape l)
     = (l <- Conv.init [1; 4; 4; 1]%nat 1 (2, 2) (2, 2) "valid" ;;
        Conv.padded_shape l).
Proof.
  split; [discriminate|].
  apply (@unknown_padding_mode_is_valid "full" (2, 2) MaxPooling2D input_4x4
           true [1; 4; 4; 1]%nat 1 (2, 2)).
  discriminate.
Defined.

(** With a zero stride the pooling layer fails in its constructor, on the
    division of the output size, whatever the mode. *)
Example pool_init_zero_stride :
  pool_init MaxPooling2D input_4x4 true [1; 4; 4; 1]%nat (2, 2) (0, 2) "full"
  = Raise ZeroDivisionError
  /\ pool_init MaxPooling2D input_4x4 true [1; 4; 4; 1]%nat (2, 2) (0, 2)
       "valid"
     = Raise ZeroDivisionError.
Proof. split; reflexivity. Qed.

Close Scope Z_scope.

(** ** The gradient scatter-accumulator *)

Lemma clamp_inside (d : nat) (i : Z) :
  (0 <= i <= Z.of_nat d)%Z -> clamp d i = i.
Proof.
  intros Hi. unfold clamp. destruct (Z.ltb_spec i 0); lia.
Qed.

Lemma slice_bounds_inside (d : nat) (a len : Z) :
  (0 <= a)%Z -> (0 <= len)%Z -> (a + len <= Z.of_nat d)%Z ->
  slice_bounds d (Range a (a + len)) = (Z.to_nat a, Z.to_nat len).
Proof.
  intros Ha Hl Hd. unfold slice_bounds.
  rewrite !clamp_inside by lia. f_equal. f_equal. lia.
Qed.

Lemma resolve_shape_window (m C : nat) (kH kW : Z) :
  0 < C -> (0 < kH)%Z -> (0 < kW)%Z ->
  resolve_shape (m * (C * Z.to_nat kH * Z.to_nat kW))
                [(-1)%Z; Z.of_nat C; kH; kW]
  = Ok [m; C; Z.to_nat kH; Z.to_nat kW].
Proof.
  intros HC HkH HkW. unfold resolve_shape.
  assert (E1 : (Z.of_nat C <? -1)%Z = false) by (apply Z.ltb_ge; lia).
  assert (E2 : (kH <? -1)%Z = false) by (apply Z.ltb_ge; lia).
  assert (E3 : (kW <? -1)%Z = false) by (apply Z.ltb_ge; lia).
  assert (F1 : (Z.of_nat C =? -1)%Z = false) by (apply Z.eqb_neq; lia).
  assert (F2 : (kH =? -1)%Z = false) by (apply Z.eqb_neq; lia).
  assert (F3 : (kW =? -1)%Z = false) by (apply Z.eqb_neq; lia).
  cbn [existsb orb]. rewrite E1, E2, E3. cbn [orb Z.ltb Z.compare].
  cbn [filter negb Z.eqb Pos.eqb]. rewrite F1, F2, F3. cbn [negb map prod fold_right].
  cbn [count_occ].
  destruct (Z.eq_dec (-1) (-1)) as [_|N]; [|contradiction].
  destruct (Z.eq_dec (Z.of_nat C) (-1)); [lia|].
  destruct (Z.eq_dec kH (-1)); [lia|].
  destruct (Z.eq_dec kW (-1)); [lia|].
  rewrite Nat2Z.id, Nat.mul_1_r.
  set (K := C * (Z.to_nat kH * Z.to_nat kW)).
  assert (HK : K <> 0) by (unfold K; nia).
  replace (m * (C * Z.to_nat kH * Z.to_nat kW)) with (m * K) by (unfold K; lia).
  destruct (Nat.eqb_spec K 0) as [E|_]; [contradiction|].
  rewrite Nat.Div0.mod_mul, Nat.div_mul by exact HK.
  cbn [orb negb Nat.eqb map]. rewrite F1, F2, F3. reflexivity.
Qed.

Section ScatterProof.
Context {A : Type} {DA : Dtype A}.
Variables (m C H W nW : nat) (kH kW : Z) (dIp : ndarray A)
  (rest : list nat).
Hypothesis dIp_shape : shape dIp = m :: nW :: rest.
Hypothesis dIp_row : prod rest = C * Z.to_nat kH * Z.to_nat kW.
Hypothesis C_pos : 0 < C.
Hypothesis kH_pos : (0 < kH)%Z.
Hypothesis kW_pos : (0 < kW)%Z.

Let reshape : list Z := [(-1)%Z; Z.of_nat C; kH; kW].

Lemma window_grad_ok (k : nat) :
  k < nW ->
  exists w,
    np_select_axis1 dIp k = Ok w
    /\ np_reshape w reshape = Ok (window_grad dIp reshape k)
    /\ shape (window_grad dIp reshape k)
       = [m; C; Z.to_nat kH; Z.to_nat kW].
Proof.
  intros Hk. unfold window_grad, np_select_axis1. rewrite dIp_shape.
  destruct (Nat.ltb_spec k nW) as [_|]; [|lia].
  eexists. split; [reflexivity|].
  cbn [bind]. unfold np_reshape, size. cbn [shape prod fold_right].
  fold (prod rest). rewrite dIp_row.
  unfold reshape. rewrite resolve_shape_window by assumption.
  cbn [bind shape]. split; reflexivity.
Qed.

Lemma scatter_step_ok (dX : ndarray A) (k : nat) (start : Z * Z) :
  shape dX = [m; C; H; W] -> k < nW -> fits H W kH kW start ->
  exists dX',
    scatter_step dIp kH kW reshape dX k start = Ok dX'
    /\ shape dX' = [m; C; H; W]
    /\ forall b c r col, b < m -> c < C ->
         item dX' [b; c; r; col]
         = covering_sum_from dIp (kH, kW) reshape [(k, start)]
             (item dX [b; c; r; col]) b c r col.
Proof.
  intros HdX Hk (Hr0 & Hr1 & Hc0 & Hc1).
  destruct start as [r0 c0]. cbn [fst snd] in *.
  destruct (window_grad_ok Hk) as (w & Hsel & Hw & Hws).
  unfold scatter_step. rewrite Hsel. cbn [bind]. rewrite Hw. cbn [bind].
  unfold expand_ellipsis, ndim. rewrite HdX. cbn [length Nat.leb Nat.sub repeat app bind].
  unfold np_iadd_slice. rewrite HdX, Hws.
  unfold bounds. cbn [combine map fst snd].
  rewrite !slice_bounds_inside by lia.
  cbn [slice_bounds map snd].
  unfold broadcastable_to, bcast_dim_ok. cbn [length rev app combine forallb fst snd Nat.leb].
  rewrite !Nat.eqb_refl. cbn [orb andb].
  eexists. split; [reflexivity|]. split; [reflexivity|].
  intros b c r col Hb Hc. cbn [item shape].
  unfold covering_sum_from, covers, in_box, unshift, bcast_index.
  cbn [fold_left fst snd combine forallb map length Nat.sub skipn].
  match goal with
  | |- (if ?c1 then _ else _) = (if ?c2 then _ else _) =>
      assert (Hcond : c1 = c2);
      [ apply eq_true_iff_eq;
        rewrite ?andb_true_iff, ?Nat.leb_le, ?Nat.ltb_lt, ?Z.leb_le,
          ?Z.ltb_lt; lia
      | rewrite Hcond; destruct c2 eqn:Hin; [|reflexivity] ]
  end.
  rewrite ?andb_true_iff, ?Z.leb_le, ?Z.ltb_lt in Hin.
  replace (if m =? 1 then 0 else b - 0) with b
    by (destruct (Nat.eqb_spec m 1); lia).
  replace (if C =? 1 then 0 else c - 0) with c
    by (destruct (Nat.eqb_spec C 1); lia).
  replace (if Z.to_nat kH =? 1 then 0 else r - Z.to_nat r0)
    with (Z.to_nat (Z.of_nat r - r0))
    by (destruct (Nat.eqb_spec (Z.to_nat kH) 1); lia).
  replace (if Z.to_nat kW =? 1 then 0 else col - Z.to_nat c0)
    with (Z.to_nat (Z.of_nat col - c0))
    by (destruct (Nat.eqb_spec (Z.to_nat kW) 1); lia).
  reflexivity.
Qed.

Lemma scatter_loop_ok (slice_idx : list (Z * Z)) :
  forall (k : nat) (dX : ndarray A),
    shape dX = [m; C; H; W] ->
    k + length slice_idx <= nW ->
    Forall (fits H W kH kW) slice_idx ->
    exists dX',
      scatter_loop dIp kH kW reshape slice_idx k dX = Ok dX'
      /\ shape dX' = [m; C; H; W]
      /\ forall b c r col, b < m -> c < C ->
           item dX' [b; c; r; col]
           = covering_sum_from dIp (kH, kW) reshape
               (combine (seq k (length slice_idx)) slice_idx)
               (item dX [b; c; r; col]) b c r col.
Proof.
  induction slice_idx as [|start ws IH]; intros k dX HdX Hlen Hfit.
  - exists dX. repeat split; auto.
  - cbn [length] in Hlen. inversion Hfit as [|? ? Hs Hws]; subst.
    destruct (@scatter_step_ok dX k start HdX ltac:(lia) Hs)
      as (dX1 & Hstep & Hsh1 & Hit1).
    destruct (IH (S k) dX1 Hsh1 ltac:(lia) Hws)
      as (dX' & Hloop & Hsh' & Hit').
    exists dX'. split; [|split; [exact Hsh'|]].
    + cbn [scatter_loop]. rewrite Hstep. cbn [bind]. exact Hloop.
    + intros b c r col Hb Hc. rewrite Hit' by assumption.
      rewrite Hit1 by assumption. reflexivity.
Qed.
End ScatterProof.



Lemma flat_map_length_const {B D : Type} (f : B -> list D) (n : nat)
  (l : list B) :
  (forall x, length (f x) = n) -> length (flat_map f l) = length l * n.
Proof.
  intros Hf. induction l as [|x l IH]; [reflexivity|].
  cbn [flat_map length]. rewrite length_app, Hf, IH. lia.
Qed.

Lemma py_range_length (n : Z) : length (py_range n) = Z.to_nat n.
Proof. unfold py_range. now rewrite length_map, length_seq. Qed.

Lemma in_py_range (n i : Z) : In i (py_range n) <-> (0 <= i < n)%Z.
Proof.
  unfold py_range. rewrite in_map_iff. split.
  - intros (k & <- & Hk). apply in_seq in Hk. lia.
  - intros Hi. exists (Z.to_nat i). split; [lia|]. apply in_seq. lia.
Qed.

Section SliceIdx.

Lemma slice_idx_generator_length (oH oW sH sW : Z) :
  length (slice_idx_generator oH oW sH sW)
  = Z.to_nat oH * Z.to_nat oW.
Proof.
  unfold slice_idx_generator.
  rewrite flat_map_length_const with (n := Z.to_nat oW).
  - now rewrite py_range_length.
  - intros i. now rewrite length_map, py_range_length.
Qed.

Lemma in_slice_idx_generator (oH oW sH sW : Z) (start : Z * Z) :
  In start (slice_idx_generator oH oW sH sW) <->
  exists i j, (0 <= i < oH)%Z /\ (0 <= j < oW)%Z
              /\ start = (i * sH, j * sW)%Z.
Proof.
  unfold slice_idx_generator. rewrite in_flat_map. split.
  - intros (i & Hi & Hin). apply in_map_iff in Hin.
    destruct Hin as (j & <- & Hj). apply in_py_range in Hi, Hj.
    exists i, j. auto.
  - intros (i & j & Hi & Hj & ->). exists i. split.
    + now apply in_py_range.
    + apply in_map_iff. exists j. split; [reflexivity|].
      now apply in_py_range.
Qed.
End SliceIdx.

(** The loop of [accumulate_dX_conv] over a padded shape that holds every
    window: the entry at batch [b], channel [c], row [r], column [col] is
    the sum, taken in window order, of the gradients of exactly the
    windows covering ([r], [col]). *)
Lemma accumulate_padded_ok {A : Type} {DA : Dtype A}
  (m C H W nW : nat) (kH kW sH sW oH oW : Z) (dIp : ndarray A)
  (rest : list nat) :
  shape dIp = m :: nW :: rest ->
  prod rest = C * Z.to_nat kH * Z.to_nat kW ->
  0 < C -> (0 < kH)%Z -> (0 < kW)%Z -> (0 < sH)%Z -> (0 < sW)%Z ->
  ((oH - 1) * sH + kH <= Z.of_nat H)%Z ->
  ((oW - 1) * sW + kW <= Z.of_nat W)%Z ->
  Z.to_nat oH * Z.to_nat oW <= nW ->
  exists dX,
    accumulate_padded [m; C; H; W] (oH, oW) dIp (sH, sW) (kH, kW)
      [(-1)%Z; Z.of_nat C; kH; kW] = Ok dX
    /\ shape dX = [m; C; H; W]
    /\ forall b c r col, b < m -> c < C ->
         item dX [b; c; r; col]
         = covering_sum dIp (kH, kW) [(-1)%Z; Z.of_nat C; kH; kW]
             (enumerate (slice_idx_generator oH oW sH sW))
             b c r col.
Proof.
  intros Hsh Hrow HC HkH HkW HsH HsW HfitH HfitW Hcount.
  unfold accumulate_padded. cbn [fst snd].
  destruct (@scatter_loop_ok A DA m C H W nW kH kW dIp rest Hsh Hrow HC HkH
              HkW (slice_idx_generator oH oW sH sW) 0
              (np_zeros [m; C; H; W]) eq_refl)
    as (dX & Hloop & HdX & Hitem).
  - rewrite slice_idx_generator_length. lia.
  - apply Forall_forall. intros start Hin.
    apply in_slice_idx_generator in Hin.
    destruct Hin as (i & j & Hi & Hj & ->). unfold fits. cbn [fst snd].
    repeat split; nia.
  - exists dX. split; [exact Hloop|]. split; [exact HdX|].
    intros b c r col Hb Hc. rewrite Hitem by assumption. reflexivity.
Qed.

Example overlap_centre :
  match accumulate_padded [1; 1; 3; 3] (2, 2)%Z overlap_dIp (1, 1)%Z
          (2, 2)%Z [-1; 1; 2; 2]%Z with
  | Ok dX => Some (item dX [0; 0; 1; 1])
  | Raise _ => None
  end = Some (4 + 7 + 10 + 13)%Q.
Proof. reflexivity. Qed.

(** ** Stripping the padding *)

Lemma slice_bounds_strip (d : nat) (p : Z) :
  (0 < p)%Z -> slice_bounds (d + 2 * Z.to_nat p) (Range p (- p))
               = (Z.to_nat p, d).
Proof.
  intros Hp. unfold slice_bounds, clamp.
  destruct (Z.ltb_spec p 0); [lia|].
  destruct (Z.ltb_spec (- p) 0); [|lia].
  f_equal; lia.
Qed.

Lemma slice_bounds_minus_zero (d : nat) :
  slice_bounds d (Range 0 (- 0)) = (0, 0).
Proof. unfold slice_bounds, clamp. cbn. f_equal; lia. Qed.

Section StripPadding.
Context {A : Type} {DA : Dtype A}.
Variables (m C H W : nat) (pH pW : Z).

(** With padding on both spatial axes the original plane comes back. *)
Lemma strip_padding_both (dX : ndarray A) :
  shape dX = [m; C; H + 2 * Z.to_nat pH; W + 2 * Z.to_nat pW] ->
  (0 < pH)%Z -> (0 < pW)%Z ->
  exists dX',
    strip_padding dX (pH, pW) = Ok dX'
    /\ shape dX' = [m; C; H; W]
    /\ forall b c r col,
         item dX' [b; c; r; col]
         = item dX [b; c; Z.to_nat pH + r; Z.to_nat pW + col].
Proof.
  intros Hsh HpH HpW. unfold strip_padding, is_padded. cbn [fst snd].
  destruct (Z.eqb_spec pH 0) as [|_]; [lia|]. cbn [andb negb].
  unfold expand_ellipsis, ndim. rewrite Hsh.
  cbn [length Nat.leb Nat.sub repeat app bind].
  eexists. split; [reflexivity|].
  unfold np_getslice, bounds. rewrite Hsh. cbn [combine map fst snd shape].
  rewrite !slice_bounds_strip by assumption.
  cbn [slice_bounds snd]. split; [reflexivity|].
  intros b c r col. cbn [item shift combine map fst snd]. reflexivity.
Qed.
End StripPadding.

(** C4.  When exactly one of the two paddings is zero, the slice
    [dX[..., pH:-pH, pW:-pW]] has the stop [-0], that is 0, on the
    unpadded axis: that axis comes back with length 0 instead of its
    original length. *)
Theorem strip_padding_one_sided {A : Type} (m C H W : nat) (p : Z)
  (dXh dXw : ndarray A) :
  (0 < p)%Z ->
  shape dXh = [m; C; H; W + 2 * Z.to_nat p] ->
  shape dXw = [m; C; H + 2 * Z.to_nat p; W] ->
  (exists dX', strip_padding dXh (0, p)%Z = Ok dX'
               /\ shape dX' = [m; C; 0; W])
  /\ (exists dX', strip_padding dXw (p, 0)%Z = Ok dX'
                  /\ shape dX' = [m; C; H; 0]).
Proof.
  intros Hp Hh Hw. unfold strip_padding, is_padded. cbn [fst snd].
  destruct (Z.eqb_spec p 0) as [|_]; [lia|].
  cbn [andb negb Z.eqb]. rewrite ?andb_false_r. cbn [negb].
  unfold expand_ellipsis, ndim. rewrite Hh, Hw.
  cbn [length Nat.leb Nat.sub repeat app bind].
  split; eexists; (split; [reflexivity|]);
    unfold np_getslice, bounds; rewrite ?Hh, ?Hw;
    cbn [combine map fst snd shape];
    rewrite !slice_bounds_strip by assumption;
    rewrite slice_bounds_minus_zero; reflexivity.
Qed.

Lemma strip_padding_one_sided_witness :
  (exists dX', strip_padding (np_zeros (A:=Q) [1; 1; 3; 5]) (0, 1)%Z = Ok dX'
               /\ shape dX' = [1; 1; 0; 3])
  /\ (exists dX', strip_padding (np_zeros (A:=Q) [1; 1; 5; 3]) (1, 0)%Z
                  = Ok dX'
                  /\ shape dX' = [1; 1; 3; 0]).
Proof.
  apply (@strip_padding_one_sided Q 1 1 3 3 1%Z); [lia | reflexivity ..].
Defined.

Example same_1x3_padding : compute_conv_padding (1, 3)%Z "same" = (0, 1)%Z.
Proof. reflexivity. Qed.

(** The same through the layer: a convolution with a 1 x 3 kernel and
    "same" padding on an input of shape (1, 3, 3, 1) hands back an input
    gradient of shape (1, 0, 3, 1). *)
Example conv_same_1x3_input_gradient :
  match Conv.init [1; 3; 3; 1] 1 (1, 3)%Z (1, 1)%Z "same" with
  | Ok self =>
      match Conv.backprop_inputs self same_1x3_dIp with
      | Ok dX => Some (Conv.input_shape self, shape dX)
      | Raise _ => None
      end
  | Raise _ => None
  end = Some ([1; 3; 3; 1], [1; 0; 3; 1]).
Proof. reflexivity. Qed.

(** With a 3 x 3 kernel both paddings are 1 and the input shape comes
    back. *)
Example conv_same_3x3_input_gradient :
  match Conv.init [1; 3; 3; 1] 1 (3, 3)%Z (1, 1)%Z "same" with
  | Ok self =>
      match Conv.backprop_inputs self (NdArray [1; 9; 9] (fun _ => 1%Q)) with
      | Ok dX => Some (Conv.input_shape self, shape dX)
      | Raise _ => None
      end
  | Raise _ => None
  end = Some ([1; 3; 3; 1], [1; 3; 3; 1]).
Proof. reflexivity. Qed.

Example same_1x3_gradient_shape :
  match accumulate_dX_conv [1; 1; 3; 5] (3, 3)%Z same_1x3_dIp (1, 1)%Z
          (1, 3)%Z [-1; 1; 1; 3]%Z (0, 1)%Z true with
  | Ok dX => Some (shape dX)
  | Raise _ => None
  end = Some [1; 0; 3; 1].
Proof. reflexivity. Qed.

(** ** From the scatter loop to the returned gradient *)

Lemma np_moveaxis_first_last_4 {A : Type} (X : ndarray A) (a b c d : nat) :
  shape X = [a; b; c; d] ->
  np_moveaxis X 0 (-1) = Ok (np_transpose X [1; 2; 3; 0])
  /\ shape (np_transpose X [1; 2; 3; 0]) = [b; c; d; a]
  /\ forall i j k l,
       item (np_transpose X [1; 2; 3; 0]) [j; k; l; i] = item X [i; j; k; l].
Proof.
  intros E. unfold np_moveaxis, np_transpose, ndim. rewrite E.
  repeat split; reflexivity.
Qed.

Lemma accumulate_dX_conv_any {A : Type} {DA : Dtype A} (moveaxis : bool)
  (m C H W nW : nat) (kH kW sH sW oH oW pH pW : Z) (dIp : ndarray A)
  (rest : list nat) :
  shape dIp = m :: nW :: rest ->
  prod rest = C * Z.to_nat kH * Z.to_nat kW ->
  0 < C -> (0 < kH)%Z -> (0 < kW)%Z -> (0 < sH)%Z -> (0 < sW)%Z ->
  (pH = 0 /\ pW = 0)%Z \/ (0 < pH /\ 0 < pW)%Z ->
  ((oH - 1) * sH + kH <= Z.of_nat H + 2 * pH)%Z ->
  ((oW - 1) * sW + kW <= Z.of_nat W + 2 * pW)%Z ->
  Z.to_nat oH * Z.to_nat oW <= nW ->
  exists dX,
    accumulate_dX_conv [m; C; H + 2 * Z.to_nat pH; W + 2 * Z.to_nat pW]
      (oH, oW) dIp (sH, sW) (kH, kW) [(-1)%Z; Z.of_nat C; kH; kW]
      (pH, pW) moveaxis = Ok dX
    /\ shape dX = (if moveaxis then [C; H; W; m] else [m; C; H; W])
    /\ forall b c r col, b < m -> c < C ->
         item dX (if moveaxis then [c; r; col; b] else [b; c; r; col])
         = covering_sum dIp (kH, kW) [(-1)%Z; Z.of_nat C; kH; kW]
             (enumerate (slice_idx_generator oH oW sH sW))
             b c (Z.to_nat pH + r) (Z.to_nat pW + col).
Proof.
  intros Hsh Hrow HC HkH HkW HsH HsW Hpad HfitH HfitW Hcount.
  destruct (@accumulate_padded_ok A DA m C (H + 2 * Z.to_nat pH)
              (W + 2 * Z.to_nat pW) nW kH kW sH sW oH oW dIp rest Hsh Hrow
              HC HkH HkW HsH HsW) as (P & HP & HPs & HPi);
    [lia|lia|exact Hcount|].
  unfold accumulate_dX_conv. rewrite HP. cbn [bind].
  assert (Hstrip : exists T,
             strip_padding P (pH, pW) = Ok T
             /\ shape T = [m; C; H; W]
             /\ forall b c r col,
                  item T [b; c; r; col]
                  = item P [b; c; Z.to_nat pH + r; Z.to_nat pW + col]).
  { destruct Hpad as [[-> ->]|[HpH HpW]].
    - exists P. split; [reflexivity|]. split.
      + rewrite HPs. f_equal. f_equal. f_equal; [lia|]. f_equal. lia.
      + intros. reflexivity.
    - now apply strip_padding_both. }
  destruct Hstrip as (T & HS & HSs & HSi). rewrite HS. cbn [bind].
  destruct moveaxis; cbn [negb].
  - destruct (@np_moveaxis_first_last_4 A T _ _ _ _ HSs) as (HM & HMs & HMi).
    rewrite HM. eexists. split; [reflexivity|]. split; [exact HMs|].
    intros b c r col Hb Hc. rewrite HMi, HSi. now apply HPi.
  - exists T. split; [reflexivity|]. split; [exact HSs|].
    intros b c r col Hb Hc. rewrite HSi. now apply HPi.
Qed.

Lemma accumulate_dX_conv_ok {A : Type} {DA : Dtype A}
  (m C H W nW : nat) (kH kW sH sW oH oW pH pW : Z) (dIp : ndarray A)
  (rest : list nat) :
  shape dIp = m :: nW :: rest ->
  prod rest = C * Z.to_nat kH * Z.to_nat kW ->
  0 < C -> (0 < kH)%Z -> (0 < kW)%Z -> (0 < sH)%Z -> (0 < sW)%Z ->
  (pH = 0 /\ pW = 0)%Z \/ (0 < pH /\ 0 < pW)%Z ->
  ((oH - 1) * sH + kH <= Z.of_nat H + 2 * pH)%Z ->
  ((oW - 1) * sW + kW <= Z.of_nat W + 2 * pW)%Z ->
  Z.to_nat oH * Z.to_nat oW <= nW ->
  exists dX,
    accumulate_dX_conv [m; C; H + 2 * Z.to_nat pH; W + 2 * Z.to_nat pW]
      (oH, oW) dIp (sH, sW) (kH, kW) [(-1)%Z; Z.of_nat C; kH; kW]
      (pH, pW) true = Ok dX
    /\ shape dX = [C; H; W; m]
    /\ forall c r col b, c < C -> b < m ->
         item dX [c; r; col; b]
         = covering_sum dIp (kH, kW) [(-1)%Z; Z.of_nat C; kH; kW]
             (enumerate (slice_idx_generator oH oW sH sW))
             b c (Z.to_nat pH + r) (Z.to_nat pW + col).
Proof.
  intros Hsh Hrow HC HkH HkW HsH HsW Hpad HfitH HfitW Hcount.
  destruct (@accumulate_dX_conv_any A DA true m C H W nW kH kW sH sW oH oW
              pH pW dIp rest Hsh Hrow HC HkH HkW HsH HsW Hpad HfitH HfitW
              Hcount) as (dX & HdX & Hs & Hi).
  exists dX. split; [exact HdX|]. split; [exact Hs|].
  intros c r col b Hc Hb. now apply Hi.
Qed.

(** C1.  [accumulate_dX_conv], called with the window origins of
    [slice_idx_generator oH oW sH sW] on per-window gradients [dIp] for a
    padded shape that holds every window (padding zero on both axes or
    positive on both, either value of [moveaxis]), returns the input
    gradient whose entry for batch element [b], channel [c], row [r] and
    column [col] is the sum, taken in window order, of the gradients of
    exactly the windows that cover the padded position ([pH + r],
    [pW + col]).  Strides smaller than the kernel, where windows overlap,
    are included: each covering window adds its share. *)
Theorem accumulate_dX_conv_sums_covering_windows {A : Type} {DA : Dtype A}
  (moveaxis : bool) (m C H W nW : nat) (kH kW sH sW oH oW pH pW : Z)
  (dIp : ndarray A) (rest : list nat) :
  shape dIp = m :: nW :: rest ->
  prod rest = C * Z.to_nat kH * Z.to_nat kW ->
  0 < C -> (0 < kH)%Z -> (0 < kW)%Z -> (0 < sH)%Z -> (0 < sW)%Z ->
  (pH = 0 /\ pW = 0)%Z \/ (0 < pH /\ 0 < pW)%Z ->
  ((oH - 1) * sH + kH <= Z.of_nat H + 2 * pH)%Z ->
  ((oW - 1) * sW + kW <= Z.of_nat W + 2 * pW)%Z ->
  Z.to_nat oH * Z.to_nat oW <= nW ->
  exists dX,
    accumulate_dX_conv [m; C; H + 2 * Z.to_nat pH; W + 2 * Z.to_nat pW]
      (oH, oW) dIp (sH, sW) (kH, kW) [(-1)%Z; Z.of_nat C; kH; kW]
      (pH, pW) moveaxis = Ok dX
    /\ shape dX = (if moveaxis then [C; H; W; m] else [m; C; H; W])
    /\ forall b c r col, b < m -> c < C -> r < H -> col < W ->
         item dX (if moveaxis then [c; r; col; b] else [b; c; r; col])
         = covering_sum dIp (kH, kW) [(-1)%Z; Z.of_nat C; kH; kW]
             (enumerate (slice_idx_generator oH oW sH sW))
             b c (Z.to_nat pH + r) (Z.to_nat pW + col).
Proof.
  intros Hsh Hrow HC HkH HkW HsH HsW Hpad HfitH HfitW Hcount.
  destruct (@accumulate_dX_conv_any A DA moveaxis m C H W nW kH kW sH sW oH
              oW pH pW dIp rest Hsh Hrow HC HkH HkW HsH HsW Hpad HfitH HfitW
              Hcount) as (dX & HdX & Hs & Hi).
  exists dX. split; [exact HdX|]. split; [exact Hs|].
  intros b c r col Hb Hc _ _. now apply Hi.
Qed.

(** Four 2 x 2 windows at stride 1 over a 3 x 3 gradient: every window
    covers the centre. *)
Lemma accumulate_dX_conv_overlap_witness :
  exists dX,
    accumulate_dX_conv [1; 1; 3 + 2 * Z.to_nat 0; 3 + 2 * Z.to_nat 0]
      (2, 2)%Z overlap_dIp (1, 1)%Z (2, 2)%Z
      [(-1)%Z; Z.of_nat 1; 2%Z; 2%Z] (0, 0)%Z false = Ok dX
    /\ shape dX = (if false then [1; 3; 3; 1] else [1; 1; 3; 3])
    /\ forall b c r col, b < 1 -> c < 1 -> r < 3 -> col < 3 ->
         item dX (if false then [c; r; col; b] else [b; c; r; col])
         = covering_sum overlap_dIp (2, 2)%Z [(-1)%Z; Z.of_nat 1; 2%Z; 2%Z]
             (enumerate (slice_idx_generator 2 2 1 1))
             b c (Z.to_nat 0 + r) (Z.to_nat 0 + col).
Proof.
  apply (@accumulate_dX_conv_sums_covering_windows Q _ false 1 1 3 3 4 2 2 1
           1 2 2 0 0 overlap_dIp [4]); try reflexivity; try lia.
Defined.

Example accumulate_dX_conv_overlap_centre :
  match accumulate_dX_conv [1; 1; 3; 3] (2, 2)%Z overlap_dIp (1, 1)%Z
          (2, 2)%Z [-1; 1; 2; 2]%Z (0, 0)%Z false with
  | Ok dX => Some (item dX [0; 0; 1; 1], item dX [0; 0; 0; 0])
  | Raise _ => None
  end = Some ((4 + 7 + 10 + 13)%Q, 1%Q).
Proof. reflexivity. Qed.

(** ** Preparing the input of a convolution *)

(** Whenever padding is requested, [X, _ = pad(X, pH, pW)] iterates over
    the channels of the padded array, and fails unless there are exactly
    two of them. *)
Lemma prepare_ip_raises_unless_two_channels (X : ndarray Q)
  (C h w m : nat) (kH kW sH sW pH pW : Z) (vec_reshape : option (list Z)) :
  shape X = [C; h; w; m] -> C <> 2 ->
  is_padded (pH, pW) = true -> (0 <= pH)%Z -> (0 <= pW)%Z ->
  sH <> 0%Z -> sW <> 0%Z ->
  exists msg,
    _prepare_ip_for_conv X (kH, kW) (sH, sW) (pH, pW) vec_reshape
    = Raise (ValueError msg).
Proof.
  intros Hsh HC Hpad HpH HpW HsH HsW.
  unfold _prepare_ip_for_conv. rewrite Hsh. cbn [bind].
  unfold compute_conv_output_dim, py_truediv.
  destruct (Z.eqb_spec sH 0) as [|_]; [contradiction|].
  destruct (Z.eqb_spec sW 0) as [|_]; [contradiction|].
  cbn [bind]. rewrite Hpad.
  unfold pad, np_pad, ndim. rewrite Hsh. cbn [length Nat.eqb negb].
  cbn [existsb fst snd Z.ltb Z.compare orb].
  destruct (Z.ltb_spec pH 0); [lia|]. destruct (Z.ltb_spec pW 0); [lia|].
  cbn [orb bind]. unfold unpack2. cbn [shape map combine fst snd].
  cbn [Z.to_nat Nat.add].
  destruct (Nat.eqb_spec (C + 0) 2); [lia|].
  destruct (C + 0 <? 2); cbn [bind]; eexists; reflexivity.
Qed.

(** C2.  A single-channel 3 x 3 input with padding (1, 1): the
    preparation step raises instead of returning the windows. *)
Theorem prepare_ip_one_channel_raises :
  _prepare_ip_for_conv one_channel_input (2, 2)%Z (1, 1)%Z (1, 1)%Z None
  = Raise (ValueError "not enough values to unpack (expected 2, got 1)").
Proof. reflexivity. Qed.

Example prepare_ip_unpadded_ok :
  match _prepare_ip_for_conv one_channel_input (2, 2)%Z (1, 1)%Z (0, 0)%Z
          None with
  | Ok (X, oH, oW) => Some (shape X, oH, oW)
  | Raise _ => None
  end = Some ([4; 4; 1], 2%Z, 2%Z).
Proof. reflexivity. Qed.

(** ** Index arithmetic *)

Lemma prod_app (l1 l2 : list nat) : prod (l1 ++ l2) = prod l1 * prod l2.
Proof.
  induction l1 as [|a l1 IH].
  - unfold prod at 2. cbn [app fold_right]. lia.
  - change (a * prod (l1 ++ l2) = a * prod l1 * prod l2). rewrite IH. lia.
Qed.

Lemma ravel_index_lt (sh idx : list nat) :
  in_bounds sh idx = true -> ravel_index sh idx < prod sh.
Proof.
  revert idx. induction sh as [|d sh IH]; intros [|i idx] Hb;
    try discriminate; cbn [ravel_index prod fold_right]; [lia|].
  fold (prod sh). cbn [in_bounds] in Hb. apply andb_prop in Hb.
  destruct Hb as [Hi Hb]. apply Nat.ltb_lt in Hi. specialize (IH _ Hb). nia.
Qed.

Lemma unravel_ravel_index (sh idx : list nat) :
  in_bounds sh idx = true -> unravel_index sh (ravel_index sh idx) = idx.
Proof.
  revert idx. induction sh as [|d sh IH]; intros [|i idx] Hb;
    try discriminate; [reflexivity|].
  cbn [in_bounds] in Hb. apply andb_prop in Hb. destruct Hb as [_ Hb].
  pose proof (ravel_index_lt _ _ Hb) as Hlt.
  cbn [ravel_index unravel_index].
  set (P := prod sh) in *. set (R := ravel_index sh idx) in *.
  assert (Hdiv : (i * P + R) / P = i).
  { rewrite Nat.div_add_l by lia. rewrite Nat.div_small by exact Hlt. lia. }
  assert (Hmod : (i * P + R) mod P = R).
  { rewrite (Nat.add_comm (i * P) R), Nat.Div0.mod_add.
    now apply Nat.mod_small. }
  rewrite Hdiv, Hmod. unfold R. now rewrite IH.
Qed.

Lemma ravel_index_snoc (sh idx : list nat) (p q : nat) :
  length sh = length idx ->
  ravel_index (sh ++ [p]) (idx ++ [q]) = ravel_index sh idx * p + q.
Proof.
  revert idx. induction sh as [|d sh IH]; intros [|i idx] Hlen;
    try discriminate.
  - cbn. lia.
  - cbn [app ravel_index]. rewrite IH by (cbn in Hlen; lia).
    rewrite prod_app. cbn [prod fold_right]. fold (prod sh). lia.
Qed.

Lemma unravel_index_pair (F p R q : nat) :
  q < p -> unravel_index [F; p] (R * p + q) = [R; q].
Proof.
  intros Hq. cbn [unravel_index prod fold_right].
  rewrite Nat.mul_1_r, Nat.div_1_r.
  rewrite Nat.div_add_l by lia. rewrite (Nat.div_small q p) by exact Hq.
  rewrite (Nat.add_comm (R * p) q), Nat.Div0.mod_add.
  rewrite Nat.mod_small by exact Hq. f_equal. lia.
Qed.

Lemma in_bounds_3 (a b c i j k : nat) :
  i < a -> j < b -> k < c -> in_bounds [a; b; c] [i; j; k] = true.
Proof.
  intros Hi Hj Hk. cbn [in_bounds].
  apply Nat.ltb_lt in Hi, Hj, Hk. now rewrite Hi, Hj, Hk.
Qed.

Lemma in_bounds_4 (a b c d i j k l : nat) :
  i < a -> j < b -> k < c -> l < d ->
  in_bounds [a; b; c; d] [i; j; k; l] = true.
Proof.
  intros Hi Hj Hk Hl. cbn [in_bounds].
  apply Nat.ltb_lt in Hi, Hj, Hk, Hl. now rewrite Hi, Hj, Hk, Hl.
Qed.

Lemma bcast_index_in_bounds (vs idx : list nat) :
  in_bounds vs idx = true -> bcast_index vs idx = idx.
Proof.
  intros Hb. unfold bcast_index.
  assert (Hlen : length idx - length vs = 0).
  { revert idx Hb. induction vs as [|d vs IH]; intros [|i idx] Hb;
      try discriminate; [reflexivity|].
    cbn [in_bounds] in Hb. apply andb_prop in Hb. destruct Hb as [_ Hb].
    specialize (IH _ Hb). cbn [length]. lia. }
  rewrite Hlen. cbn [skipn]. clear Hlen.
  revert idx Hb. induction vs as [|d vs IH]; intros [|i idx] Hb;
    try discriminate; [reflexivity|].
  cbn [in_bounds] in Hb. apply andb_prop in Hb. destruct Hb as [Hi Hb].
  apply Nat.ltb_lt in Hi. cbn [combine map fst snd]. rewrite IH by exact Hb.
  f_equal. destruct (Nat.eqb_spec d 1); lia.
Qed.

(** ** Resolving the target shape of a reshape *)

Lemma existsb_negative_of_nat (l : list nat) :
  existsb (fun d => (d <? -1)%Z) (map Z.of_nat l) = false.
Proof.
  induction l as [|a l IH]; [reflexivity|]. cbn [map existsb]. rewrite IH.
  destruct (Z.ltb_spec (Z.of_nat a) (-1)); [lia|reflexivity].
Qed.

Lemma filter_known_of_nat (l : list nat) :
  filter (fun d => negb (d =? -1)%Z) (map Z.of_nat l) = map Z.of_nat l.
Proof.
  induction l as [|a l IH]; [reflexivity|]. cbn [map filter]. rewrite IH.
  destruct (Z.eqb_spec (Z.of_nat a) (-1)); [lia|reflexivity].
Qed.

Lemma count_unknown_of_nat (l : list nat) :
  count_occ Z.eq_dec (map Z.of_nat l) (-1)%Z = 0.
Proof.
  induction l as [|a l IH]; [reflexivity|]. cbn [map count_occ].
  destruct (Z.eq_dec (Z.of_nat a) (-1)); [lia|exact IH].
Qed.

Lemma map_fill_of_nat (x : nat) (l : list nat) :
  map (fun d => if (d =? -1)%Z then x else Z.to_nat d) (map Z.of_nat l) = l.
Proof.
  induction l as [|a l IH]; [reflexivity|]. cbn [map]. rewrite IH.
  destruct (Z.eqb_spec (Z.of_nat a) (-1)); [lia|]. now rewrite Nat2Z.id.
Qed.

Lemma map_to_nat_of_nat (l : list nat) : map Z.to_nat (map Z.of_nat l) = l.
Proof.
  induction l as [|a l IH]; [reflexivity|]. cbn [map].
  now rewrite IH, Nat2Z.id.
Qed.

(** A target shape without [-1] must have the size of the array. *)
Lemma resolve_shape_exact (n : nat) (sh : list nat) :
  n = prod sh -> resolve_shape n (map Z.of_nat sh) = Ok sh.
Proof.
  intros ->. unfold resolve_shape.
  rewrite existsb_negative_of_nat, filter_known_of_nat, count_unknown_of_nat,
    !map_to_nat_of_nat, Nat.eqb_refl. reflexivity.
Qed.

(** A single [-1] is replaced by the quotient of the size by the product
    of the other entries. *)
Lemma resolve_shape_infer (n q : nat) (pre post : list nat) :
  prod pre * prod post <> 0 -> n = q * (prod pre * prod post) ->
  resolve_shape n (map Z.of_nat pre ++ (-1)%Z :: map Z.of_nat post)
  = Ok (pre ++ q :: post).
Proof.
  intros Hk ->. unfold resolve_shape.
  rewrite existsb_app. cbn [existsb].
  rewrite !existsb_negative_of_nat. cbn [orb Z.ltb Z.compare Pos.compare Pos.compare_cont CompOpp].
  rewrite filter_app. cbn [filter Z.eqb Pos.eqb negb].
  rewrite !filter_known_of_nat, <- map_app, map_to_nat_of_nat, prod_app.
  rewrite count_occ_app. cbn [count_occ].
  destruct (Z.eq_dec (-1) (-1)) as [_|N]; [|contradiction].
  rewrite !count_unknown_of_nat. cbn [Nat.add].
  destruct (Nat.eqb_spec (prod pre * prod post) 0) as [E|_]; [contradiction|].
  rewrite Nat.Div0.mod_mul, Nat.div_mul by exact Hk. cbn [orb negb Nat.eqb].
  rewrite map_app. cbn [map Z.eqb Pos.eqb]. rewrite !map_fill_of_nat.
  reflexivity.
Qed.

(** ** The first maximum *)

Lemma Qlt_bool_iff (x y : Q) : Qlt_bool x y = true <-> (x < y)%Q.
Proof.
  unfold Qlt_bool. rewrite negb_true_iff. split.
  - intros E. apply Qnot_le_lt. intros Hle.
    apply Qle_bool_iff in Hle. congruence.
  - intros Hlt. destruct (Qle_bool y x) eqn:E; [|reflexivity].
    apply Qle_bool_iff in E. exfalso. revert E. now apply Qlt_not_le.
Qed.

Lemma Qlt_bool_false (x y : Q) : Qlt_bool x y = false -> (y <= x)%Q.
Proof.
  unfold Qlt_bool. rewrite negb_false_iff. apply Qle_bool_iff.
Qed.

Lemma argmax_from_first_max (l : list Q) :
  forall (pre : list Q) (bi : nat),
    bi < length pre ->
    (forall j, j < length pre -> (nth j pre 0 <= nth bi pre 0)%Q) ->
    (forall j, j < bi -> (nth j pre 0 < nth bi pre 0)%Q) ->
    is_first_max (pre ++ l)
      (argmax_from bi (nth bi pre 0%Q) (length pre) l).
Proof.
  induction l as [|x l IH]; intros pre bi Hbi Hmax Hfirst.
  - rewrite app_nil_r. cbn [argmax_from]. repeat split; assumption.
  - cbn [argmax_from].
    replace (pre ++ x :: l) with ((pre ++ [x]) ++ l)
      by (rewrite <- app_assoc; reflexivity).
    assert (Hlen : length (pre ++ [x]) = S (length pre))
      by (rewrite length_app; cbn; lia).
    destruct (Qlt_bool (nth bi pre 0%Q) x) eqn:E.
    + apply Qlt_bool_iff in E.
      pose proof (IH (pre ++ [x]) (length pre)) as IH'.
      rewrite nth_middle, Hlen in IH'. apply IH'.
      * lia.
      * intros j Hj.
        destruct (Nat.eq_dec j (length pre)) as [->|Hne].
        -- rewrite nth_middle. apply Qle_refl.
        -- rewrite app_nth1 by lia. apply Qlt_le_weak.
           eapply Qle_lt_trans; [apply Hmax; lia | exact E].
      * intros j Hj. rewrite app_nth1 by lia.
        eapply Qle_lt_trans; [apply Hmax; lia | exact E].
    + apply Qlt_bool_false in E.
      pose proof (IH (pre ++ [x]) bi) as IH'.
      rewrite (app_nth1 pre [x] 0%Q Hbi), Hlen in IH'. apply IH'.
      * lia.
      * intros j Hj.
        destruct (Nat.eq_dec j (length pre)) as [->|Hne].
        -- now rewrite nth_middle.
        -- rewrite app_nth1 by lia. apply Hmax. lia.
      * intros j Hj. rewrite !app_nth1 by lia. now apply Hfirst.
Qed.

Lemma argmax_first_max (l : list Q) : l <> [] -> is_first_max l (argmax l).
Proof.
  destruct l as [|x l]; [contradiction|]. intros _. unfold argmax.
  apply (@argmax_from_first_max l [x] 0).
  - cbn. lia.
  - intros j Hj. cbn in Hj. replace j with 0 by lia. apply Qle_refl.
  - intros j Hj. lia.
Qed.

Lemma last_axis_row_length {A : Type} (X : ndarray A) (d : nat)
  (idx : list nat) : length (last_axis_row X d idx) = d.
Proof. unfold last_axis_row. now rewrite length_map, length_seq. Qed.

Lemma argmax_row_lt (X : ndarray Q) (d : nat) (idx : list nat) :
  0 < d -> argmax (last_axis_row X d idx) < d.
Proof.
  intros Hd. destruct (@argmax_first_max (last_axis_row X d idx)) as [Hlt _].
  - intros E. apply (f_equal (@length Q)) in E.
    rewrite last_axis_row_length in E. cbn in E. lia.
  - now rewrite last_axis_row_length in Hlt.
Qed.

Lemma existsb_seq_pick (f : nat -> bool) (i n : nat) :
  existsb (fun k => (k =? i) && f k) (seq 0 n) = (i <? n) && f i.
Proof.
  induction n as [|n IH].
  - reflexivity.
  - rewrite seq_S, existsb_app, IH. cbn [existsb Nat.add].
    rewrite orb_false_r.
    destruct (Nat.eqb_spec n i) as [->|Hne].
    + rewrite Nat.ltb_irrefl. cbn [andb orb].
      destruct (Nat.ltb_spec i (S i)); [reflexivity|lia].
    + cbn [andb]. rewrite orb_false_r.
      destruct (Nat.ltb_spec i n), (Nat.ltb_spec i (S n)); try lia;
        reflexivity.
Qed.

Lemma np_reshape_exact {A : Type} (X : ndarray A) (sh : list nat) :
  size X = prod sh ->
  np_reshape X (map Z.of_nat sh)
  = Ok (NdArray sh
          (fun idx => item X (unravel_index (shape X) (ravel_index sh idx)))).
Proof.
  intros Hsz. unfold np_reshape. now rewrite (resolve_shape_exact sh Hsz).
Qed.

Lemma np_reshape_infer {A : Type} (X : ndarray A) (q : nat)
  (pre post : list nat) :
  prod pre * prod post <> 0 -> size X = q * (prod pre * prod post) ->
  np_reshape X (map Z.of_nat pre ++ (-1)%Z :: map Z.of_nat post)
  = Ok (NdArray (pre ++ q :: post)
          (fun idx => item X (unravel_index (shape X)
                                (ravel_index (pre ++ q :: post) idx)))).
Proof.
  intros Hk Hsz. unfold np_reshape.
  now rewrite (@resolve_shape_infer (size X) q pre post Hk Hsz).
Qed.

Lemma np_swapaxes_ends_3 {A : Type} (X : ndarray A) (a b c : nat) :
  shape X = [a; b; c] ->
  np_swapaxes X 0 (-1) = Ok (np_transpose X [2; 1; 0])
  /\ shape (np_transpose X [2; 1; 0]) = [c; b; a]
  /\ forall i j k,
       item (np_transpose X [2; 1; 0]) [i; j; k] = item X [k; j; i].
Proof.
  intros E. unfold np_swapaxes, np_transpose, ndim. rewrite E.
  repeat split; reflexivity.
Qed.

Lemma np_swapaxes_ends_4 {A : Type} (X : ndarray A) (a b c d : nat) :
  shape X = [a; b; c; d] ->
  np_swapaxes X 0 (-1) = Ok (np_transpose X [3; 1; 2; 0])
  /\ shape (np_transpose X [3; 1; 2; 0]) = [d; b; c; a]
  /\ forall i j k l,
       item (np_transpose X [3; 1; 2; 0]) [i; j; k; l] = item X [l; j; k; i].
Proof.
  intros E. unfold np_swapaxes, np_transpose, ndim. rewrite E.
  repeat split; reflexivity.
Qed.

(** ** Max pooling: the mask and the routed gradient *)

Section MaxPool.
Variables (self : pool_layer) (ip : ndarray Q) (m nW C p oH oW : nat).
Hypothesis ip_shape : shape ip = [m; nW; C; p].
Hypothesis p_pos : 0 < p.
Hypothesis C_pos : 0 < C.
Hypothesis nW_pos : 0 < nW.
Hypothesis windows_C : windows self = C.
Hypothesis out_H_eq : out_H self = Z.of_nat oH.
Hypothesis out_W_eq : out_W self = Z.of_nat oW.
Hypothesis out_area : oH * oW = nW.

Lemma max_get_pool_outputs_mask :
  exists out mask,
    max_get_pool_outputs self ip = Ok (out, Mask mask)
    /\ shape out = [C; oH; oW; m]
    /\ shape mask = [m; nW; C; p]
    /\ forall b w c q, b < m -> w < nW -> c < C -> q < p ->
         item mask [b; w; c; q]
         = (argmax (last_axis_row ip p [b; w; c]) =? q).
Proof.
  unfold max_get_pool_outputs. rewrite ip_shape. cbn [rev app].
  unfold np_argmax_last. rewrite ip_shape. cbn [rev app].
  destruct (Nat.eqb_spec p 0) as [|_]; [lia|]. cbn [bind].
  set (flat := prod [m; nW; C]).
  set (am := NdArray [m; nW; C]
               (fun idx => argmax (last_axis_row ip p idx))).
  pose proof (@np_reshape_infer Q ip flat [] [p]) as E.
  cbn [map app] in E. rewrite E; clear E;
    [ | cbn; lia | unfold size; rewrite ip_shape; unfold flat; cbn; lia ].
  cbn [bind].
  assert (Hchk : forallb
                   (fun k => (item (np_arange flat) [k] <? flat)
                             && (item (np_ravel am) [k] <? p))
                   (seq 0 flat) = true).
  { apply forallb_forall. intros k Hk. apply in_seq in Hk.
    cbn [item np_arange np_ravel hd am]. apply andb_true_intro. split.
    - apply Nat.ltb_lt. lia.
    - apply Nat.ltb_lt. now apply argmax_row_lt. }
  unfold np_take2, np_put2. cbn [shape np_arange np_ravel np_zeros].
  change (size am) with flat. rewrite Nat.eqb_refl. cbn [negb].
  rewrite Hchk. cbn [bind].
  pose proof (@np_reshape_exact Q) as E. rewrite E; clear E;
    [ | unfold size, flat; cbn; lia ].
  cbn [bind].
  pose proof (@np_reshape_exact bool) as E. rewrite E; clear E;
    [ | unfold size, flat; cbn; lia ].
  cbn [bind].
  match goal with
  | |- context [np_swapaxes ?X _ _] => set (mx := X)
  end.
  destruct (@np_swapaxes_ends_3 Q mx m nW C eq_refl) as (Hsw & Hsws & _).
  rewrite Hsw. cbn [bind]. rewrite windows_C, out_H_eq, out_W_eq.
  pose proof (@np_reshape_infer Q (np_transpose mx [2; 1; 0]) m
                [C; oH; oW] []) as E.
  cbn [map app] in E. rewrite E; clear E;
    [ | cbn; nia | unfold size; rewrite Hsws; cbn; nia ].
  cbn [bind]. eexists. eexists. split; [reflexivity|].
  split; [reflexivity|]. split; [reflexivity|].
  intros b w c q Hb Hw Hc Hq. cbn [item shape].
  change [m; nW; C; p] with ([m; nW; C] ++ [p]).
  change [b; w; c; q] with ([b; w; c] ++ [q]).
  rewrite ravel_index_snoc by reflexivity.
  rewrite unravel_index_pair by exact Hq.
  cbn [item np_arange hd np_zeros].
  rewrite (existsb_seq_pick
             (fun k => item (np_ravel am) [k] =? q)
             (ravel_index [m; nW; C] [b; w; c]) flat).
  pose proof (in_bounds_3 Hb Hw Hc) as Hin.
  pose proof (ravel_index_lt _ _ Hin) as Hlt. fold flat in Hlt.
  apply Nat.ltb_lt in Hlt. rewrite Hlt. cbn [andb].
  cbn [np_ravel item hd shape am]. rewrite unravel_ravel_index by exact Hin.
  destruct (argmax (last_axis_row ip p [b; w; c]) =? q); reflexivity.
Qed.

Variable dA : ndarray Q.
Hypothesis dA_shape : shape dA = [C; oH; oW; m].
Hypothesis m_pos : 0 < m.

Lemma reshape_dA_ok :
  exists dA',
    reshape_dA self dA = Ok dA'
    /\ shape dA' = [m; nW; C]
    /\ forall b w c, b < m -> w < nW -> c < C ->
         item dA' [b; w; c] = item dA [c; w / oW; w mod oW; b].
Proof.
  unfold reshape_dA.
  destruct (@np_swapaxes_ends_4 Q dA C oH oW m dA_shape)
    as (Hsw & Hsws & Hswi).
  rewrite Hsw. cbn [bind]. rewrite dA_shape. cbn [rev app]. rewrite windows_C.
  pose proof (@np_reshape_infer Q (np_transpose dA [3; 1; 2; 0]) nW
                [m] [C]) as E.
  cbn [map app] in E. rewrite E; clear E;
    [ | cbn; nia | unfold size; rewrite Hsws; cbn; nia ].
  eexists. split; [reflexivity|]. split; [reflexivity|].
  intros b w c Hb Hw Hc. cbn [item]. rewrite Hsws.
  assert (HoW : oW <> 0) by nia.
  pose proof (Nat.div_mod_eq w oW) as Hw_eq.
  pose proof (Nat.mod_upper_bound w oW HoW) as Hr.
  assert (Hq : w / oW < oH).
  { apply Nat.Div0.div_lt_upper_bound. nia. }
  set (dq := w / oW) in *. set (r := w mod oW) in *.
  replace (ravel_index [m; nW; C] [b; w; c])
    with (ravel_index [m; oH; oW; C] [b; dq; r; c]).
  - rewrite unravel_ravel_index by (now apply in_bounds_4).
    apply Hswi.
  - cbn [ravel_index prod fold_right]. nia.
Qed.

Lemma pool_dIp_mask (mask : ndarray bool) (dA' : ndarray Q) :
  shape mask = [m; nW; C; p] -> shape dA' = [m; nW; C] ->
  exists dIp,
    pool_dIp (Some (Mask mask)) dA' = Ok dIp
    /\ shape dIp = [m; nW; C; p]
    /\ forall b w c q, b < m -> w < nW -> c < C -> q < p ->
         item dIp [b; w; c; q]
         = (bool_to_float (item mask [b; w; c; q]) * item dA' [b; w; c])%Q.
Proof.
  intros Hmask HdA'. unfold pool_dIp, np_broadcast2, np_expand_last.
  cbn [shape]. rewrite Hmask, HdA'. cbn [rev app bcast_rev].
  rewrite !Nat.eqb_refl. cbn [bind].
  destruct (p =? 1); cbn [Nat.eqb bind rev app];
    (eexists; split; [reflexivity|]; split; [reflexivity|]);
    intros b w c q Hb Hw Hc Hq; cbn [item];
    rewrite bcast_index_in_bounds by (now apply in_bounds_4);
    (replace (bcast_index [m; nW; C; 1] [b; w; c; q]) with [b; w; c; 0];
     [ reflexivity
     | unfold bcast_index; cbn;
       destruct (Nat.eqb_spec m 1), (Nat.eqb_spec nW 1), (Nat.eqb_spec C 1);
       repeat f_equal; lia ]).
Qed.
End MaxPool.

(** [backprop_step] hands [self._dX_share * dA[..., None]] to the
    scatter-accumulator as the per-window gradients. *)
Lemma pool_backprop_step_scatters (self : pool_layer) (dA dA' dIp : ndarray Q)
  (padded_H padded_W : nat) :
  requires_dX self = true ->
  reshape_dA self dA = Ok dA' ->
  pool_dIp (_dX_share self) dA' = Ok dIp ->
  _padded_shape self = Some (padded_H, padded_W) ->
  pool_backprop_step self dA
  = (dX <- accumulate_dX_conv
             [hd 0 (shape dA'); windows self; padded_H; padded_W]
             (out_H self, out_W self) dIp (stride self) (pool_size self)
             [(-1)%Z; Z.of_nat (windows self); fst (pool_size self);
              snd (pool_size self)]
             (p_H self, p_W self) true ;;
     Ok (Some dX, reset_attrs self)).
Proof.
  intros Hreq Hre HdIp Hpad. unfold pool_backprop_step.
  rewrite Hre. cbn [bind]. rewrite Hreq. cbn [negb].
  rewrite Hpad, HdIp. reflexivity.
Qed.

(** C6.  [backprop_step] of a max-pooling layer whose [_dX_share] is the
    mask recorded by [_get_pool_outputs] on the windows [ip] (axes batch,
    window, channel, position in the window), for an incoming gradient
    [dA] with axes channel, output row, output column, batch.  The step
    is the scatter-accumulation of a tensor [dIp] of per-window
    gradients, and [dIp] holds, for window [w], channel [c] and batch
    element [b], the incoming gradient of the window at the position of
    the first maximum of the window in its flattened scan order, and zero
    at every other position of the window. *)
Theorem max_pool_routes_gradient_to_first_max (self : pool_layer)
  (ip dA out : ndarray Q) (sh : share) (m nW C p oH oW : nat)
  (padded_H padded_W : nat) :
  shape ip = [m; nW; C; p] -> shape dA = [C; oH; oW; m] ->
  0 < p -> 0 < C -> 0 < nW -> 0 < m ->
  windows self = C -> out_H self = Z.of_nat oH -> out_W self = Z.of_nat oW ->
  oH * oW = nW ->
  requires_dX self = true ->
  _padded_shape self = Some (padded_H, padded_W) ->
  max_get_pool_outputs self ip = Ok (out, sh) -> _dX_share self = Some sh ->
  exists dIp,
    shape dIp = [m; nW; C; p]
    /\ (forall b w c, b < m -> w < nW -> c < C ->
          let row := last_axis_row ip p [b; w; c] in
          is_first_max row (argmax row)
          /\ forall q, q < p ->
               (item dIp [b; w; c; q]
                == if (argmax row =? q)%nat
                   then item dA [c; (w / oW)%nat; (w mod oW)%nat; b]
                   else 0)%Q)
    /\ pool_backprop_step self dA
       = (dX <- accumulate_dX_conv [m; C; padded_H; padded_W]
                  (out_H self, out_W self) dIp (stride self)
                  (pool_size self)
                  [(-1)%Z; Z.of_nat C; fst (pool_size self);
                   snd (pool_size self)]
                  (p_H self, p_W self) true ;;
          Ok (Some dX, reset_attrs self)).
Proof.
  intros Hip HdA Hp HC HnW Hm Hwin HoH HoW Harea Hreq Hpad Hfw Hshare.
  destruct (@max_get_pool_outputs_mask self ip m nW C p oH oW Hip Hp HC HnW
              Hwin HoH HoW Harea)
    as (out' & mask & Hfw' & _ & Hmsh & Hmask).
  rewrite Hfw in Hfw'. injection Hfw' as _ ->.
  destruct (@reshape_dA_ok self m nW C p oH oW Hp HC HnW Hwin Harea dA HdA
              Hm) as (dA' & Hre & HdA' & HdAi).
  destruct (@pool_dIp_mask self m nW C p oH oW Hp HC HnW Hwin Harea Hm mask
              dA' Hmsh HdA') as (dIp & HdIp & Hdsh & Hdi).
  rewrite <- Hshare in HdIp.
  exists dIp. split; [exact Hdsh|]. split.
  - intros b w c Hb Hw Hc row. split.
    + apply argmax_first_max. intros E. apply (f_equal (@length Q)) in E.
      unfold row in E. rewrite last_axis_row_length in E. cbn in E. lia.
    + intros q Hq. rewrite Hdi, Hmask, HdAi by assumption. fold row.
      destruct (argmax row =? q); cbn [bool_to_float]; ring.
  - rewrite (@pool_backprop_step_scatters self dA dA' dIp padded_H padded_W
               Hreq Hre HdIp Hpad).
    rewrite HdA', Hwin. reflexivity.
Qed.


(** ** Average pooling: the gradient does not read the input values *)

Lemma same_outcome_bind {B D : Type} (P : B -> B -> Prop)
  (Q : D -> D -> Prop) (r1 r2 : result B) (k1 k2 : B -> result D) :
  same_outcome P r1 r2 ->
  (forall a b, P a b -> same_outcome Q (k1 a) (k2 b)) ->
  same_outcome Q (bind r1 k1) (bind r2 k2).
Proof.
  intros Hr Hk. destruct r1, r2; cbn in *; try contradiction; auto.
Qed.

Lemma same_outcome_refl {B : Type} (P : B -> B -> Prop) (r : result B) :
  (forall a, P a a) -> same_outcome P r r.
Proof. intros HP. destruct r; cbn; auto. Qed.

Section SameShape.
Context {A : Type} {DA : Dtype A}.
Variables X1 X2 : ndarray A.
Hypothesis HX : same_shape X1 X2.

Lemma np_pad_same_shape (pad_width : list (Z * Z)) :
  same_outcome same_shape (np_pad X1 pad_width) (np_pad X2 pad_width).
Proof.
  unfold np_pad, ndim. rewrite <- HX.
  destruct (negb _); [reflexivity|]. destruct (existsb _ _); reflexivity.
Qed.

Lemma np_getslice_same_shape (specs : list slice) :
  same_shape (np_getslice X1 specs) (np_getslice X2 specs).
Proof. unfold same_shape, np_getslice. cbn [shape]. now rewrite HX. Qed.

Lemma np_reshape_same_shape (newshape : list Z) :
  same_outcome same_shape (np_reshape X1 newshape) (np_reshape X2 newshape).
Proof.
  unfold np_reshape, size. rewrite <- HX.
  destruct (resolve_shape _ _); reflexivity.
Qed.

Lemma np_moveaxis_same_shape (source destination : Z) :
  same_outcome same_shape (np_moveaxis X1 source destination)
    (np_moveaxis X2 source destination).
Proof.
  unfold np_moveaxis, ndim. rewrite <- HX.
  destruct (normalize_axis _ source); [|reflexivity].
  destruct (normalize_axis _ destination); [|reflexivity].
  cbn [bind same_outcome]. unfold same_shape, np_transpose. cbn [shape].
  now rewrite HX.
Qed.

Lemma np_swapaxes_same_shape (axis1 axis2 : Z) :
  same_outcome same_shape (np_swapaxes X1 axis1 axis2)
    (np_swapaxes X2 axis1 axis2).
Proof.
  unfold np_swapaxes, ndim. rewrite <- HX.
  destruct (normalize_axis _ axis1); [|reflexivity].
  destruct (normalize_axis _ axis2); [|reflexivity].
  cbn [bind same_outcome]. unfold same_shape, np_transpose. cbn [shape].
  now rewrite HX.
Qed.
End SameShape.

Section SameShapeLists.
Context {A : Type} {DA : Dtype A}.

Lemma mapM_same_shape {B : Type} (f1 f2 : B -> result (ndarray A))
  (l : list B) :
  (forall x, same_outcome same_shape (f1 x) (f2 x)) ->
  same_outcome (Forall2 same_shape) (mapM f1 l) (mapM f2 l).
Proof.
  intros Hf. induction l as [|x l IH]; cbn [mapM].
  - constructor.
  - eapply same_outcome_bind; [apply Hf|]. intros a b Hab.
    eapply same_outcome_bind; [apply IH|]. intros la lb Hl.
    now constructor.
Qed.

Lemma forallb_shape_same (l1 l2 : list (ndarray A)) (sh : list nat) :
  Forall2 same_shape l1 l2 ->
  forallb (fun X => list_eqb (shape X) sh) l1
  = forallb (fun X => list_eqb (shape X) sh) l2.
Proof.
  induction 1 as [|a b l1 l2 Hab _ IH]; [reflexivity|].
  cbn [forallb]. unfold same_shape in Hab. now rewrite Hab, IH.
Qed.

Lemma np_stack_same_shape (l1 l2 : list (ndarray A)) :
  Forall2 same_shape l1 l2 ->
  same_outcome same_shape (np_stack l1) (np_stack l2).
Proof.
  intros Hl. pose proof (Forall2_length Hl) as Hlen.
  destruct Hl as [|a b l1 l2 Hab Hl]; [reflexivity|].
  unfold np_stack.
  rewrite (@forallb_shape_same (a :: l1) (b :: l2) (shape a))
    by (now constructor).
  unfold same_shape in Hab. rewrite <- Hab.
  destruct (forallb _ _); [|reflexivity].
  cbn [same_outcome]. unfold same_shape. cbn [shape]. now rewrite Hlen.
Qed.

Lemma vectorize_ip_for_conv_same_shape (X1 X2 : ndarray A)
  (kernel_size stride output_size : Z * Z) (reshape : option (list Z)) :
  same_shape X1 X2 ->
  same_outcome same_shape
    (vectorize_ip_for_conv X1 kernel_size stride output_size reshape)
    (vectorize_ip_for_conv X2 kernel_size stride output_size reshape).
Proof.
  intros HX. unfold vectorize_ip_for_conv.
  destruct stride as [sH sW], kernel_size as [kH kW],
    output_size as [oH oW].
  eapply same_outcome_bind with (P := eq).
  - destruct reshape; [reflexivity|]. rewrite <- HX.
    destruct (rev (shape X1)); reflexivity.
  - intros r ? <-. eapply same_outcome_bind.
    + apply mapM_same_shape. intros ij. unfold ndim. rewrite <- HX.
      destruct (expand_trailing _ _); [|reflexivity]. cbn [bind].
      apply np_reshape_same_shape. now apply np_getslice_same_shape.
    + intros l1 l2 Hl. now apply np_stack_same_shape.
Qed.
End SameShapeLists.

Lemma pad_with_shape_same_shape (X1 X2 : ndarray Q) (pad_H pad_W : Z) :
  same_shape X1 X2 ->
  same_outcome (fun a b => same_shape (fst a) (fst b) /\ snd a = snd b)
    (pad_with_shape X1 pad_H pad_W) (pad_with_shape X2 pad_H pad_W).
Proof.
  intros HX. unfold pad_with_shape, pad.
  eapply same_outcome_bind; [now apply np_pad_same_shape|].
  intros a b Hab. unfold same_shape in Hab. rewrite <- Hab.
  destruct (shape a) as [|? [|? [|? [|? [|? ?]]]]] eqn:E; try reflexivity.
  cbn. split; [unfold same_shape; congruence | reflexivity].
Qed.

Lemma np_mean_last_same_shape (X1 X2 : ndarray Q) :
  same_shape X1 X2 ->
  same_outcome same_shape (np_mean_last X1) (np_mean_last X2).
Proof.
  intros HX. unfold np_mean_last. rewrite <- HX.
  destruct (rev (shape X1)); reflexivity.
Qed.

(** The uniform shares of average pooling are a function of the shape of
    the windowed input alone. *)
Lemma avg_get_pool_outputs_same_share (self : pool_layer)
  (ip1 ip2 : ndarray Q) :
  same_shape ip1 ip2 ->
  same_outcome (fun a b => snd a = snd b)
    (avg_get_pool_outputs self ip1) (avg_get_pool_outputs self ip2).
Proof.
  intros Hip. unfold avg_get_pool_outputs.
  eapply same_outcome_bind; [now apply np_mean_last_same_shape|].
  intros a1 a2 Ha. rewrite <- Hip.
  destruct (rev (shape ip1)) as [|p_area ?]; [reflexivity|].
  eapply same_outcome_bind; [now apply np_swapaxes_same_shape|].
  intros s1 s2 Hs.
  eapply same_outcome_bind; [now apply np_reshape_same_shape|].
  intros o1 o2 _. reflexivity.
Qed.

Lemma avg_pool_same_state (self : pool_layer) (Xa Xb X1 X2 : ndarray Q) :
  cls self = AveragePooling2D -> same_shape X1 X2 ->
  same_outcome (fun a b => same_backward_state (snd a) (snd b))
    (_pool (with_input self Xa) X1) (_pool (with_input self Xb) X2).
Proof.
  intros Hcls HX. unfold _pool. cbn [with_input p_H p_W windows pool_size
    stride out_H out_W cls layer_input requires_dX padding ip_H ip_W pooled].
  eapply same_outcome_bind; [now apply pad_with_shape_same_shape|].
  intros [P1 hw1] [P2 hw2] [HP Hhw]. cbn [fst snd] in HP, Hhw. subst hw2.
  unfold same_shape in HP. rewrite <- HP.
  destruct (rev (shape P1)) as [|batch ?]; [reflexivity|].
  eapply same_outcome_bind;
    [now apply vectorize_ip_for_conv_same_shape|].
  intros V1 V2 HV.
  eapply same_outcome_bind; [now apply np_moveaxis_same_shape|].
  intros M1 M2 HM.
  eapply same_outcome_bind with (P := fun a b => snd a = snd b).
  - unfold _get_pool_outputs. cbn [with_input cls]. rewrite Hcls.
    pose proof (avg_get_pool_outputs_same_share self HM) as Hs.
    unfold avg_get_pool_outputs in *. exact Hs.
  - intros [o1 s1] [o2 s2] Hs. cbn [snd] in Hs. subst s2.
    cbn [same_outcome snd]. unfold same_backward_state.
    cbn. repeat split; reflexivity.
Qed.

Lemma same_outcome_eq {B : Type} (r1 r2 : result B) :
  same_outcome eq r1 r2 -> r1 = r2.
Proof. destruct r1, r2; cbn; intros E; congruence || contradiction. Qed.

Ltac case_scrutinee :=
  match goal with
  | |- same_outcome _ (bind ?x _) _ => destruct x; cbn [bind]
  | |- same_outcome _ (match ?x with _ => _ end) _ => destruct x
  end.

Lemma pool_backprop_step_same_state (s1 s2 : pool_layer) (dA : ndarray Q) :
  same_backward_state s1 s2 ->
  same_outcome (fun a b => fst a = fst b)
    (pool_backprop_step s1 dA) (pool_backprop_step s2 dA).
Proof.
  intros (Hreq & Hps & Hst & HpH & HpW & Hwin & HoH & HoW & Hpad & Hsh).
  unfold pool_backprop_step, reshape_dA.
  rewrite <- Hreq, <- Hps, <- Hst, <- HpH, <- HpW, <- Hwin, <- HoH, <- HoW,
    <- Hpad, <- Hsh.
  repeat case_scrutinee; reflexivity.
Qed.

(** C10.  For an average-pooling layer, a forward pass followed by a
    backward pass hands back the same input gradient (or fails in the same
    way) for any two inputs of one shape: the shares are the constant
    1 / window area and nothing else of the forward input is read. *)
Theorem average_pool_gradient_ignores_input_values (self : pool_layer)
  (X1 X2 dA : ndarray Q) :
  cls self = AveragePooling2D -> shape X1 = shape X2 ->
  pool_forward_backward (with_input self X1) dA
  = pool_forward_backward (with_input self X2) dA.
Proof.
  intros Hcls HX. apply same_outcome_eq.
  unfold pool_forward_backward, pool_forward_step.
  cbn [with_input layer_input].
  eapply same_outcome_bind
    with (P := fun a b => same_backward_state (snd a) (snd b)).
  - eapply same_outcome_bind; [now apply avg_pool_same_state|].
    intros [o1 s1] [o2 s2] Hs. cbn [snd] in Hs. cbn [same_outcome snd].
    unfold same_backward_state in *. cbn. exact Hs.
  - intros [o1 s1] [o2 s2] Hs. cbn [snd] in Hs.
    eapply same_outcome_bind;
      [now apply pool_backprop_step_same_state|].
    intros [g1 t1] [g2 t2] Hg. cbn [fst] in Hg. subst g2. reflexivity.
Qed.

(** ** Concatenation *)

Lemma list_eqb_eq (l1 l2 : list nat) : list_eqb l1 l2 = true <-> l1 = l2.
Proof.
  revert l2. induction l1 as [|a l1 IH]; intros [|b l2]; cbn [list_eqb];
    try (split; [discriminate|discriminate]); [tauto|].
  rewrite andb_true_iff, Nat.eqb_eq, IH. split.
  - intros [-> ->]. reflexivity.
  - intros E. injection E as -> ->. auto.
Qed.

Lemma list_eqb_refl (l : list nat) : list_eqb l l = true.
Proof. now apply list_eqb_eq. Qed.

(** Positions counted from [k] on never meet an axis below [k]. *)
Lemma excluded_all_kept (axis : Z) (sh : list nat) (k : nat) :
  (axis < Z.of_nat k)%Z ->
  map snd (filter (fun id => negb (Z.of_nat (fst id) =? axis)%Z)
                  (combine (seq k (length sh)) sh)) = sh.
Proof.
  revert k. induction sh as [|d sh IH]; intros k Hk; [reflexivity|].
  cbn [length seq combine filter fst].
  destruct (Z.eqb_spec (Z.of_nat k) axis) as [E|_]; [lia|].
  cbn [negb map snd]. rewrite IH by lia. reflexivity.
Qed.

Lemma excluded_from (ax : nat) (sh : list nat) (k : nat) :
  map snd (filter (fun id => negb (Z.of_nat (fst id) =? Z.of_nat (k + ax))%Z)
                  (combine (seq k (length sh)) sh))
  = remove_axis ax sh.
Proof.
  revert k ax. induction sh as [|d sh IH]; intros k ax.
  - unfold remove_axis. now destruct ax.
  - cbn [length seq combine filter fst].
    destruct ax as [|ax].
    + rewrite Nat.add_0_r, Z.eqb_refl. cbn [negb].
      rewrite excluded_all_kept by lia. reflexivity.
    + destruct (Z.eqb_spec (Z.of_nat k) (Z.of_nat (k + S ax))) as [E|_];
        [lia|].
      cbn [negb map snd].
      replace (k + S ax) with (S k + ax) by lia. rewrite IH.
      reflexivity.
Qed.

Section ConcatValidation.
Context {A : Type}.
Variable self : concat_layer A.

(** With a non-negative axis the validator compares the shapes without
    that axis. *)
Lemma excluded_shapes_nonneg (ax : nat) :
  _get_axis_excluded_shapes self (Z.of_nat ax)
  = map (remove_axis ax) (input_shape self).
Proof.
  unfold _get_axis_excluded_shapes. apply map_ext. intros sh.
  apply (excluded_from ax sh 0).
Qed.

(** With a negative axis no position is excluded: whole shapes are
    compared. *)
Lemma excluded_shapes_negative (axis : Z) :
  (axis < 0)%Z ->
  _get_axis_excluded_shapes self axis = input_shape self.
Proof.
  intros Hneg. unfold _get_axis_excluded_shapes.
  rewrite <- (map_id (input_shape self)) at 2. apply map_ext. intros sh.
  apply excluded_all_kept. lia.
Qed.

(** A failed validation is the outcome of the forward call, and the layer
    is left as it was. *)
Lemma forward_step_validation_error (e : exn) :
  _validate_same_shape self (axis self) = Raise e ->
  forward_step self = (Raise e, self).
Proof. intros E. unfold forward_step. now rewrite E. Qed.
End ConcatValidation.

Lemma remove_axis_middle (pre post : list nat) (d : nat) :
  remove_axis (length pre) (pre ++ d :: post) = pre ++ post.
Proof.
  unfold remove_axis. rewrite firstn_app, Nat.sub_diag, firstn_all.
  cbn [firstn]. rewrite app_nil_r. f_equal.
  induction pre as [|a pre IH]; [reflexivity|exact IH].
Qed.

Lemma set_nth_middle (pre post : list nat) (v x : nat) :
  set_nth (length pre) v (pre ++ x :: post) = pre ++ v :: post.
Proof.
  induction pre as [|a pre IH]; [reflexivity|].
  cbn [length app set_nth]. now rewrite IH.
Qed.

Lemma bounds_middle (pre post : list nat) (d : nat) (s : slice) :
  bounds (pre ++ d :: post)
         (repeat Full (length pre) ++ s :: repeat Full (length post))
  = map (fun d => (0, d)) pre ++ slice_bounds d s
      :: map (fun d => (0, d)) post.
Proof.
  unfold bounds. induction pre as [|a pre IH].
  - cbn [length repeat app combine map fst snd]. f_equal.
    induction post as [|b post IHp]; [reflexivity|].
    cbn [length repeat combine map fst snd slice_bounds]. now rewrite IHp.
  - cbn [length repeat app combine map fst snd slice_bounds].
    now rewrite IH.
Qed.

Lemma shift_zero (post idx : list nat) :
  length idx = length post ->
  shift (map (fun d => (0, d)) post) idx = idx.
Proof.
  revert idx. induction post as [|b post IH]; intros [|i idx] Hlen;
    try discriminate; [reflexivity|].
  unfold shift in *. cbn [map combine fst snd Nat.add].
  f_equal. apply IH. cbn in Hlen. lia.
Qed.

Lemma shift_middle (pre post ipre ipost : list nat) (s l i : nat) :
  length ipre = length pre -> length ipost = length post ->
  shift (map (fun d => (0, d)) pre ++ (s, l) :: map (fun d => (0, d)) post)
        (ipre ++ i :: ipost)
  = ipre ++ (s + i) :: ipost.
Proof.
  revert ipre. induction pre as [|a pre IH]; intros [|j ipre] Hpre Hpost;
    try discriminate.
  - cbn [map app]. unfold shift. cbn [combine map fst snd]. f_equal.
    now apply shift_zero.
  - cbn [map app]. unfold shift in *. cbn [combine map fst snd Nat.add].
    f_equal. apply IH; [cbn in Hpre; lia | exact Hpost].
Qed.

Lemma in_bounds_middle (pre post idx : list nat) (d : nat) :
  in_bounds (pre ++ d :: post) idx = true ->
  exists ipre i ipost,
    idx = ipre ++ i :: ipost /\ length ipre = length pre /\ i < d
    /\ length ipost = length post.
Proof.
  revert idx. induction pre as [|a pre IH]; intros [|j idx] Hb;
    try discriminate; cbn [app in_bounds] in Hb;
    apply andb_prop in Hb; destruct Hb as [Hj Hb].
  - exists [], j, idx. repeat split; [now apply Nat.ltb_lt|].
    clear Hj. revert idx Hb.
    induction post as [|b post IHp]; intros [|k idx] Hb;
      try discriminate; [reflexivity|].
    cbn [in_bounds] in Hb. apply andb_prop in Hb. destruct Hb as [_ Hb].
    cbn [length]. f_equal. now apply IHp.
  - destruct (IH _ Hb) as (ipre & i & ipost & -> & Hl & Hi & Hp).
    exists (j :: ipre), i, ipost. repeat split; auto. cbn. lia.
Qed.

Lemma nth_middle_len (ipre ipost : list nat) (i n : nat) :
  length ipre = n -> nth n (ipre ++ i :: ipost) 0 = i.
Proof. intros <-. apply nth_middle. Qed.

Lemma set_nth_middle_len (ipre ipost : list nat) (v i n : nat) :
  length ipre = n -> set_nth n v (ipre ++ i :: ipost) = ipre ++ v :: ipost.
Proof. intros <-. apply set_nth_middle. Qed.

Lemma normalize_axis_nonneg (rank ax : nat) :
  ax < rank -> normalize_axis rank (Z.of_nat ax) = Ok ax.
Proof.
  intros Hax. unfold normalize_axis.
  destruct (Z.leb_spec (- Z.of_nat rank) (Z.of_nat ax)); [|lia].
  destruct (Z.ltb_spec (Z.of_nat ax) (Z.of_nat rank)); [|lia].
  cbn [andb]. destruct (Z.ltb_spec (Z.of_nat ax) 0); [lia|].
  now rewrite Nat2Z.id.
Qed.

Lemma py_getitem_nonneg (t : list nat) (ax : nat) :
  ax < length t -> py_getitem t (Z.of_nat ax) = Ok (nth ax t 0).
Proof.
  intros Hax. unfold py_getitem.
  destruct (Z.leb_spec (- Z.of_nat (length t)) (Z.of_nat ax)); [|lia].
  destruct (Z.ltb_spec (Z.of_nat ax) (Z.of_nat (length t))); [|lia].
  cbn [andb]. destruct (Z.ltb_spec (Z.of_nat ax) 0); [lia|].
  now rewrite Nat2Z.id.
Qed.

Lemma slice_bounds_piece (a len rest : nat) :
  slice_bounds (a + len + rest)
    (Range (Z.of_nat a) (Z.of_nat (a + len))) = (a, len).
Proof.
  unfold slice_bounds. rewrite !clamp_inside by lia. f_equal; lia.
Qed.

Section ConcatRoundTrip.
Context {A : Type}.
Variables (X Y : ndarray A) (pre post : list nat) (dX dY : nat).
Hypothesis X_shape : shape X = pre ++ dX :: post.
Hypothesis Y_shape : shape Y = pre ++ dY :: post.

Let ax : nat := length pre.
Let rank : nat := length (pre ++ dX :: post).

Lemma ax_lt_rank : ax < rank.
Proof. unfold ax, rank. rewrite length_app. cbn. lia. Qed.

Let concat_pair : ndarray A :=
  NdArray (pre ++ (dX + dY) :: post) (concat_item (length pre) X [Y]).

Lemma forward_step_pair :
  forward_step (ConcatLayer [X; Y] (Z.of_nat ax) None)
  = (Ok concat_pair, ConcatLayer [X; Y] (Z.of_nat ax) (Some concat_pair)).
Proof.
  unfold forward_step, _validate_same_shape. cbn [axis inputs].
  rewrite excluded_shapes_nonneg. unfold input_shape. cbn [inputs map].
  rewrite X_shape, Y_shape. unfold ax. rewrite !remove_axis_middle.
  cbn [existsb]. rewrite list_eqb_refl. cbn [negb orb].
  unfold np_concatenate, ndim. rewrite X_shape.
  destruct (Nat.eqb_spec (length (pre ++ dX :: post)) 0) as [E|_].
  { rewrite length_app in E. cbn in E. lia. }
  rewrite normalize_axis_nonneg by apply ax_lt_rank. cbn [bind forallb].
  rewrite Y_shape. unfold ax. rewrite !set_nth_middle, list_eqb_refl.
  cbn [andb fold_left]. rewrite Y_shape, !nth_middle. reflexivity.
Qed.

Lemma split_indices_pair (c : option (ndarray A)) :
  _split_indices (ConcatLayer [X; Y] (Z.of_nat ax) c) = Ok [Z.of_nat dX].
Proof.
  unfold _split_indices, input_shape. cbn [inputs map axis removelast mapM].
  rewrite X_shape, py_getitem_nonneg by apply ax_lt_rank.
  unfold ax. rewrite nth_middle. reflexivity.
Qed.

Lemma backprop_inputs_pair (c : option (ndarray A)) :
  exists X' Y',
    backprop_inputs (ConcatLayer [X; Y] (Z.of_nat ax) c) concat_pair
    = Ok [X'; Y']
    /\ nd_eq X' X /\ nd_eq Y' Y.
Proof.
  unfold backprop_inputs. rewrite split_indices_pair. cbn [bind axis].
  unfold np_split, concat_pair.
  assert (Hrank : length (pre ++ dX + dY :: post) = rank).
  { unfold rank. rewrite !length_app. reflexivity. }
  unfold ndim. cbn [shape]. rewrite Hrank.
  rewrite py_getitem_nonneg by (rewrite Hrank; apply ax_lt_rank).
  rewrite normalize_axis_nonneg by apply ax_lt_rank.
  cbn [bind app tl combine map fst snd].
  unfold ax. rewrite nth_middle.
  assert (Hpost : rank - length pre - 1 = length post).
  { unfold rank. rewrite length_app. cbn. lia. }
  rewrite Hpost.
  do 2 eexists. split; [reflexivity|].
  assert (B1 : bounds (pre ++ dX + dY :: post)
                 (repeat Full (length pre) ++ Range 0 (Z.of_nat dX)
                    :: repeat Full (length post))
               = map (fun d => (0, d)) pre ++ (0, dX)
                   :: map (fun d => (0, d)) post).
  { rewrite bounds_middle. do 2 f_equal.
    change 0%Z with (Z.of_nat 0).
    replace (dX + dY) with (0 + dX + dY) by lia.
    replace (Z.of_nat dX) with (Z.of_nat (0 + dX)) by (f_equal; lia).
    apply slice_bounds_piece. }
  assert (B2 : bounds (pre ++ dX + dY :: post)
                 (repeat Full (length pre)
                    ++ Range (Z.of_nat dX) (Z.of_nat (dX + dY))
                    :: repeat Full (length post))
               = map (fun d => (0, d)) pre ++ (dX, dY)
                   :: map (fun d => (0, d)) post).
  { rewrite bounds_middle. do 2 f_equal.
    replace (dX + dY) with (dX + dY + 0) at 1 by lia.
    apply slice_bounds_piece. }
  assert (Hsnd : forall l : list nat,
             map snd (map (fun d => (0, d)) l) = l).
  { intros l. rewrite map_map. cbn [snd]. apply map_id. }
  unfold nd_eq, np_getslice. cbn [shape item]. rewrite B1, B2.
  rewrite !map_app. cbn [map snd]. rewrite !Hsnd, X_shape, Y_shape.
  split; (split; [reflexivity|]); intros idx Hidx;
    apply in_bounds_middle in Hidx;
    destruct Hidx as (ipre & i & ipost & -> & Hl & Hi & Hp);
    rewrite ?B1, ?B2; rewrite shift_middle by assumption;
    cbn [concat_item];
    rewrite nth_middle_len by exact Hl; rewrite X_shape, nth_middle.
  - destruct (Nat.ltb_spec (0 + i) dX); [reflexivity|lia].
  - destruct (Nat.ltb_spec (dX + i) dX); [lia|].
    rewrite set_nth_middle_len by exact Hl. do 3 f_equal. lia.
Qed.
End ConcatRoundTrip.

(** Along a non-negative axis the layer concatenates two inputs that agree
    on every other axis, and the backward split gives them back in input
    order. *)
Lemma concat_split_round_trip_nonneg {A : Type} (X Y : ndarray A)
  (pre post : list nat) (dX dY : nat) :
  shape X = pre ++ dX :: post -> shape Y = pre ++ dY :: post ->
  exists c X' Y',
    forward_step (ConcatLayer [X; Y] (Z.of_nat (length pre)) None)
    = (Ok c, ConcatLayer [X; Y] (Z.of_nat (length pre)) (Some c))
    /\ backprop_inputs
         (ConcatLayer [X; Y] (Z.of_nat (length pre)) (Some c)) c
       = Ok [X'; Y']
    /\ nd_eq X' X /\ nd_eq Y' Y.
Proof.
  intros HX HY.
  destruct (@backprop_inputs_pair A X Y pre post dX dY HX HY
              (Some (NdArray (pre ++ (dX + dY) :: post)
                       (concat_item (length pre) X [Y]))))
    as (X' & Y' & Hback & HeqX & HeqY).
  eexists. exists X', Y'. split; [|split; [exact Hback|split; assumption]].
  apply (@forward_step_pair A X Y pre post dX dY HX HY).
Qed.

Lemma existsb_map_comp {B D : Type} (f : D -> bool) (g : B -> D)
  (l : list B) : existsb f (map g l) = existsb (fun x => f (g x)) l.
Proof.
  induction l as [|x l IH]; [reflexivity|]. cbn [map existsb].
  now rewrite IH.
Qed.

Section ConcatForward.
Context {A : Type}.
Variables (self : concat_layer A) (ax : nat) (X0 : ndarray A)
  (rest : list (ndarray A)).
Hypothesis axis_nonneg : axis self = Z.of_nat ax.
Hypothesis inputs_eq : inputs self = X0 :: rest.

Lemma validate_nonneg :
  _validate_same_shape self (axis self)
  = if existsb (fun Y => negb (list_eqb (remove_axis ax (shape Y))
                                        (remove_axis ax (shape X0)))) rest
    then Raise (ValueError
                  (shape_mismatch_msg (remove_axis ax (shape X0))))
    else Ok tt.
Proof.
  unfold _validate_same_shape. rewrite axis_nonneg, excluded_shapes_nonneg.
  unfold input_shape. rewrite inputs_eq. cbn [map].
  rewrite !existsb_map_comp. reflexivity.
Qed.

(** Two inputs that disagree off the axis: the call raises the error that
    names the expected shape, and the layer is unchanged. *)
Lemma forward_step_rejects_disagreement (Y1 Y2 : ndarray A) :
  In Y1 (inputs self) -> In Y2 (inputs self) ->
  remove_axis ax (shape Y1) <> remove_axis ax (shape Y2) ->
  forward_step self
  = (Raise (ValueError (shape_mismatch_msg (remove_axis ax (shape X0)))),
     self).
Proof.
  intros H1 H2 Hne. apply forward_step_validation_error.
  rewrite validate_nonneg.
  destruct (existsb _ rest) eqn:E; [reflexivity|]. exfalso. apply Hne.
  assert (Hall : forall Y, In Y (inputs self) ->
                   remove_axis ax (shape Y) = remove_axis ax (shape X0)).
  { intros Y HY. rewrite inputs_eq in HY. destruct HY as [<-|HY];
      [reflexivity|].
    destruct (list_eqb (remove_axis ax (shape Y))
                (remove_axis ax (shape X0))) eqn:EY.
    - now apply list_eqb_eq.
    - assert (existsb (fun Y => negb (list_eqb (remove_axis ax (shape Y))
                                        (remove_axis ax (shape X0)))) rest
              = true) as Hex.
      { apply existsb_exists. exists Y. split; [exact HY|].
        now rewrite EY. }
      congruence. }
  now rewrite (Hall _ H1), (Hall _ H2).
Qed.
End ConcatForward.

Lemma set_nth_of_remove_axis (ax : nat) :
  forall a b : list nat,
    length a = length b -> remove_axis ax a = remove_axis ax b ->
    set_nth ax 0 a = set_nth ax 0 b.
Proof.
  unfold remove_axis.
  induction ax as [|ax IH]; intros [|x a] [|y b] Hlen Hrm;
    try discriminate; try reflexivity.
  - cbn in Hrm. cbn [set_nth]. now rewrite Hrm.
  - cbn [firstn skipn app] in Hrm. injection Hrm as -> Hrm.
    cbn [set_nth]. f_equal. apply IH; [cbn in Hlen; lia | exact Hrm].
Qed.

(** Inputs of one rank that agree off a non-negative axis inside the rank
    are concatenated, and the result is retained. *)
Lemma forward_step_accepts_agreement {A : Type} (self : concat_layer A)
  (ax : nat) (X0 : ndarray A) (rest : list (ndarray A)) :
  axis self = Z.of_nat ax -> inputs self = X0 :: rest ->
  ax < length (shape X0) ->
  (forall Y, In Y rest ->
     length (shape Y) = length (shape X0)
     /\ remove_axis ax (shape Y) = remove_axis ax (shape X0)) ->
  exists c,
    forward_step self
    = (Ok c, ConcatLayer (inputs self) (axis self) (Some c)).
Proof.
  intros Hax Hin Hlt Hall. unfold forward_step.
  rewrite (@validate_nonneg A self ax X0 rest Hax Hin).
  assert (E : existsb (fun Y => negb (list_eqb (remove_axis ax (shape Y))
                                        (remove_axis ax (shape X0)))) rest
              = false).
  { destruct (existsb _ rest) eqn:E; [|reflexivity].
    apply existsb_exists in E. destruct E as (Y & HY & HYne).
    destruct (Hall _ HY) as [_ Heq]. rewrite Heq, list_eqb_refl in HYne.
    discriminate. }
  rewrite E. rewrite Hin, Hax. unfold np_concatenate, ndim.
  destruct (Nat.eqb_spec (length (shape X0)) 0); [lia|].
  rewrite normalize_axis_nonneg by exact Hlt. cbn [bind].
  assert (F : forallb (fun Y => list_eqb (set_nth ax 0 (shape Y))
                                  (set_nth ax 0 (shape X0))) rest = true).
  { apply forallb_forall. intros Y HY. destruct (Hall _ HY) as [Hl Hr].
    apply list_eqb_eq. now apply set_nth_of_remove_axis. }
  rewrite F. eexists. reflexivity.
Qed.

(** With a negative axis the validator compares whole shapes: inputs that
    differ only along the concatenation axis are rejected, although numpy
    itself concatenates and splits them. *)
Example numpy_negative_axis_round_trip :
  match np_concatenate [feat_3x2; feat_4x2] (-2) with
  | Ok c =>
      match np_split c [3%Z] (-2) with
      | Ok pieces => Some (shape c, map (fun P => (shape P, tolist P)) pieces)
      | Raise _ => None
      end
  | Raise _ => None
  end
  = Some ([7; 2], [([3; 2], tolist feat_3x2); ([4; 2], tolist feat_4x2)]).
Proof. reflexivity. Qed.

(** C7.  Two inputs that agree on every axis but the feature axis,
    concatenated along [axis = -2] (the axis before the batch): the layer
    cannot be built, and a forward call on its attributes raises and
    retains nothing, so there is no output to split back into the inputs. *)
Theorem concat_negative_axis_no_round_trip :
  concat_init [feat_3x2; feat_4x2] (-2)
  = Raise (ValueError (shape_mismatch_msg [3; 2]))
  /\ forward_step (ConcatLayer [feat_3x2; feat_4x2] (-2) None)
     = (Raise (ValueError (shape_mismatch_msg [3; 2])),
        ConcatLayer [feat_3x2; feat_4x2] (-2) None).
Proof. split; reflexivity. Qed.

(** C8.  The same inputs seen by the validator: off the concatenation
    axis (position 0, given as -2) the two shapes agree, yet the shapes
    compared are the whole shapes and the error is raised. *)
Theorem validate_negative_axis_rejects_agreement :
  normalize_axis 2 (-2) = Ok 0
  /\ remove_axis 0 (shape feat_3x2) = remove_axis 0 (shape feat_4x2)
  /\ _get_axis_excluded_shapes (ConcatLayer [feat_3x2; feat_4x2] (-2) None)
       (-2) = [[3; 2]; [4; 2]]
  /\ _validate_same_shape (ConcatLayer [feat_3x2; feat_4x2] (-2) None) (-2)
     = Raise (ValueError
                "All inputs must have the same shape, except along the concatenation axis. Expected shape (excluding the concatenation axis): (3, 2).").
Proof. repeat split; reflexivity. Qed.

(** Along the same axis given as 0 the layer concatenates and splits. *)
Example concat_axis_zero_round_trip :
  match forward_step (ConcatLayer [feat_3x2; feat_4x2] 0 None) with
  | (Ok c, self) =>
      match backprop_inputs self c with
      | Ok pieces => Some (shape c, map (fun P => (shape P, tolist P)) pieces)
      | Raise _ => None
      end
  | (Raise _, _) => None
  end
  = Some ([7; 2], [([3; 2], tolist feat_3x2); ([4; 2], tolist feat_4x2)]).
Proof. reflexivity. Qed.

(** ** The pooling layers on a 4 x 4 input *)

Example max_layer_2x2_built :
  pool_init MaxPooling2D input_4x4 true [1; 4; 4; 1] (2, 2)%Z (2, 2)%Z
    "valid" = Ok max_layer_2x2.
Proof. reflexivity. Qed.

Example max_pool_forward_4x4 :
  match pool_forward_step max_layer_2x2 with
  | Ok (out, _) => Some (shape out, map Qred (tolist out))
  | Raise _ => None
  end = Some ([1; 2; 2; 1], [4; 8; 9; 1]%Q).
Proof. reflexivity. Qed.

(** Ties go to the first position: the third window holds four nines and
    the fourth holds two ones. *)
Example max_pool_backward_4x4 :
  gradient_list (pool_forward_backward max_layer_2x2 dA_2x2)
  = Some ([1; 4; 4; 1],
          [0; 0; 0; 0;  0; 10; 0; 11;  12; 0; 13; 0;  0; 0; 0; 0]%Q).
Proof. reflexivity. Qed.

Example avg_pool_backward_4x4 :
  gradient_list (pool_forward_backward avg_layer_2x2 dA_2x2_ones)
  = Some ([1; 4; 4; 1], repeat (1 # 4)%Q 16).
Proof. reflexivity. Qed.

Lemma max_pool_routes_gradient_witness :
  exists dIp,
    shape dIp = [1; 4; 1; 4]
    /\ (forall b w c, b < 1 -> w < 4 -> c < 1 ->
          let row := last_axis_row windowed_4x4 4 [b; w; c] in
          is_first_max row (argmax row)
          /\ forall q, q < 4 ->
               (item dIp [b; w; c; q]
                == if (argmax row =? q)%nat
                   then item dA_2x2 [c; (w / 2)%nat; (w mod 2)%nat; b]
                   else 0)%Q)
    /\ pool_backprop_step max_layer_2x2_pooled dA_2x2
       = (dX <- accumulate_dX_conv [1; 1; 4; 4]
                  (out_H max_layer_2x2_pooled, out_W max_layer_2x2_pooled)
                  dIp (stride max_layer_2x2_pooled)
                  (pool_size max_layer_2x2_pooled)
                  [(-1)%Z; Z.of_nat 1; fst (pool_size max_layer_2x2_pooled);
                   snd (pool_size max_layer_2x2_pooled)]
                  (p_H max_layer_2x2_pooled, p_W max_layer_2x2_pooled)
                  true ;;
          Ok (Some dX, reset_attrs max_layer_2x2_pooled)).
Proof.
  eapply (@max_pool_routes_gradient_to_first_max max_layer_2x2_pooled
            windowed_4x4 dA_2x2 _ _ 1 4 1 4 2 2 4 4);
    try reflexivity; lia.
Defined.

Lemma average_pool_gradient_witness :
  shape input_4x4 = shape input_4x4_ones
  /\ pool_forward_backward (with_input avg_layer_2x2 input_4x4) dA_2x2
     = pool_forward_backward (with_input avg_layer_2x2 input_4x4_ones)
         dA_2x2.
Proof.
  split; [reflexivity|].
  apply average_pool_gradient_ignores_input_values; reflexivity.
Defined.

(** The max-pooling gradient, by contrast, follows the input values. *)
Example max_pool_gradient_reads_input :
  gradient_list
    (pool_forward_backward (with_input max_layer_2x2 input_4x4) dA_2x2)
  <> gradient_list
       (pool_forward_backward (with_input max_layer_2x2 input_4x4_ones)
          dA_2x2).
Proof. vm_compute. discriminate. Qed.

(** The mode "full" is neither "valid" nor "same"; it is taken as
    "valid" and the layer is built. *)
Lemma unknown_padding_mode_accepted :
  "full"%string <> "valid"%string /\ "full"%string <> "same"%string
  /\ compute_conv_padding (3, 3)%Z "full" = (0, 0)%Z
  /\ raises (pool_init MaxPooling2D input_4x4 true [1; 4; 4; 1] (2, 2)%Z
               (2, 2)%Z "full") = false
  /\ raises (Conv.init [1; 4; 4; 1] 1 (3, 3)%Z (1, 1)%Z "full") = false.
Proof. repeat split; discriminate. Qed.

Example conv_unknown_mode_output_area :
  (self <- Conv.init [1; 4; 4; 1] 1 (3, 3)%Z (1, 1)%Z "full" ;;
   Conv.output_area self) = Ok (2, 2)%Z.
Proof. reflexivity. Qed.

Example pool_init_unknown_mode :
  pool_init MaxPooling2D input_4x4 true [1; 4; 4; 1] (2, 2)%Z (2, 2)%Z
    "full"
  = Ok (PoolLayer MaxPooling2D input_4x4 true (2, 2)%Z (2, 2)%Z "full"
          0 0 1 4 4 2 2 None None None).
Proof. reflexivity. Qed.

(** * Further properties of the engine

    ** Output sizes and window origins *)

(** X1.  While [(n - f + 2 * p) + s <= 2 ^ 52], the output size that
    [compute_conv_output_dim] computes from a padded length, in double
    precision as in exact arithmetic, counts exactly the windows that lie
    inside it: every window with index below the output size ends inside
    the padded length, and one more window would not. *)
Theorem output_dim_counts_fitting_windows (n f p s o : Z) :
  (0 < s)%Z -> (f <= n + 2 * p)%Z -> (n - f + 2 * p + s <= 2 ^ 52)%Z ->
  compute_conv_output_dim_double n f p s = Ok o ->
  compute_conv_output_dim n f p s = Ok o
  /\ (0 < o)%Z
  /\ (forall i, (0 <= i < o)%Z -> (i * s + f <= n + 2 * p)%Z)
  /\ (n + 2 * p < o * s + f)%Z.
Proof.
  intros Hs Hfit Hb Ho.
  rewrite output_dim_double_nonneg in Ho by assumption.
  rewrite output_dim_nonneg by assumption.
  assert (E : o = ((n - f + 2 * p) / s + 1)%Z) by congruence.
  subst o. clear Ho. split; [reflexivity|].
  assert (Ha : (0 <= n - f + 2 * p)%Z) by lia.
  pose proof (Z.div_mod (n - f + 2 * p) s ltac:(lia)) as Hdm.
  pose proof (Z.mod_pos_bound (n - f + 2 * p) s Hs) as Hmod.
  pose proof (Z.div_pos (n - f + 2 * p) s Ha Hs) as Hq.
  remember ((n - f + 2 * p) / s)%Z as q eqn:Eq.
  remember ((n - f + 2 * p) mod s)%Z as r eqn:Er.
  clear Eq Er Hb. split; [lia|]. split.
  - intros i Hi. nia.
  - nia.
Qed.

Lemma output_dim_counts_fitting_windows_witness :
  (0 < 2)%Z /\ (3 <= 8 + 2 * 0)%Z /\ (8 - 3 + 2 * 0 + 2 <= 2 ^ 52)%Z
  /\ compute_conv_output_dim_double 8 3 0 2 = Ok 3%Z
  /\ compute_conv_output_dim 8 3 0 2 = Ok 3%Z
  /\ (0 < 3)%Z
  /\ (forall i, (0 <= i < 3)%Z -> (i * 2 + 3 <= 8 + 2 * 0)%Z)
  /\ (8 + 2 * 0 < 3 * 2 + 3)%Z.
Proof.
  split; [lia|]. split; [lia|]. split; [lia|].
  split; [vm_compute; reflexivity|].
  apply (@output_dim_counts_fitting_windows 8 3 0 2 3);
    [lia|lia|lia|vm_compute; reflexivity].
Defined.

Lemma py_range_nonpos (n : Z) : (n <= 0)%Z -> py_range n = [].
Proof.
  intros Hn. unfold py_range. replace (Z.to_nat n) with 0 by lia.
  reflexivity.
Qed.

Lemma flat_map_nil {B D : Type} (l : list B) :
  flat_map (fun _ : B => @nil D) l = [].
Proof. induction l as [|x l IH]; [reflexivity|exact IH]. Qed.

(** X2.  A kernel longer than the padded input is not an error.  While
    [(f - n - 2 * p) + s <= 2 ^ 52], the computed output size, in double
    precision as in exact arithmetic, is zero or negative, and the window
    indexer yields no origin at all. *)
Theorem oversized_kernel_yields_no_windows (n f p s : Z) :
  (0 < s)%Z -> (n + 2 * p < f)%Z -> (f - n - 2 * p + s <= 2 ^ 52)%Z ->
  exists o,
    compute_conv_output_dim_double n f p s = Ok o
    /\ compute_conv_output_dim n f p s = Ok o /\ (o <= 0)%Z
    /\ forall o' sH sW,
         slice_idx_generator o o' sH sW = []
         /\ slice_idx_generator o' o sH sW = [].
Proof.
  intros Hs Hbig Hb. rewrite output_dim_double_neg by assumption.
  unfold compute_conv_output_dim, py_truediv.
  destruct (Z.eqb_spec s 0) as [->|_]; [lia|]. cbn [bind].
  rewrite py_int_quot by exact Hs. eexists. split; [reflexivity|].
  split; [reflexivity|].
  assert (Ho : (Z.quot (n - f + 2 * p + s) s <= 0)%Z).
  { destruct (Z.le_gt_cases 0 (n - f + 2 * p + s)) as [Hpos|Hneg].
    - rewrite Z.quot_small by lia. lia.
    - replace (n - f + 2 * p + s)%Z with (- (f - n - 2 * p - s))%Z by lia.
      rewrite Z.quot_opp_l by lia.
      pose proof (Z.quot_pos (f - n - 2 * p - s) s ltac:(lia) Hs). lia. }
  split; [exact Ho|]. intros o' sH sW. unfold slice_idx_generator.
  rewrite (py_range_nonpos Ho). cbn [flat_map map]. split; [reflexivity|].
  apply flat_map_nil.
Qed.

Lemma oversized_kernel_yields_no_windows_witness :
  exists o,
    compute_conv_output_dim_double 2 5 0 2 = Ok o
    /\ compute_conv_output_dim 2 5 0 2 = Ok o /\ (o <= 0)%Z
    /\ forall o' sH sW,
         slice_idx_generator o o' sH sW = []
         /\ slice_idx_generator o' o sH sW = [].
Proof.
  apply (@oversized_kernel_yields_no_windows 2 5 0 2); lia.
Defined.

(** Beyond that range a quotient too small for the sum to keep makes the
    result 1, though the kernel does not fit. *)
Example oversized_kernel_rounds_to_one :
  compute_conv_output_dim_double 1 2 0 (2 ^ 54) = Ok 1%Z
  /\ compute_conv_output_dim 1 2 0 (2 ^ 54) = Ok 0%Z.
Proof. split; vm_compute; reflexivity. Qed.

Lemma nth_flat_map_const {B D : Type} (f : B -> list D) (n : nat)
  (dB : B) (dD : D) (l : list B) :
  (forall x, length (f x) = n) ->
  forall i j, i < length l -> j < n ->
    nth (i * n + j) (flat_map f l) dD = nth j (f (nth i l dB)) dD.
Proof.
  intros Hf. induction l as [|x l IH]; intros i j Hi Hj;
    [cbn in Hi; lia|].
  cbn [flat_map]. destruct i as [|i].
  - cbn [Nat.mul Nat.add nth]. rewrite app_nth1 by (rewrite Hf; exact Hj).
    reflexivity.
  - rewrite app_nth2 by (rewrite Hf; lia). rewrite Hf.
    replace (S i * n + j - n) with (i * n + j) by lia.
    cbn [nth]. apply IH; [cbn in Hi; lia | exact Hj].
Qed.

Lemma nth_py_range (n : nat) (i : nat) :
  i < n -> nth i (py_range (Z.of_nat n)) 0%Z = Z.of_nat i.
Proof.
  intros Hi. unfold py_range. rewrite Nat2Z.id.
  change 0%Z with (Z.of_nat 0). rewrite map_nth, seq_nth by exact Hi.
  reflexivity.
Qed.

Lemma slice_idx_nth (oH oW : nat) (sH sW : Z) :
  length (slice_idx_generator (Z.of_nat oH) (Z.of_nat oW) sH sW) = oH * oW
  /\ forall k, k < oH * oW ->
       nth k (slice_idx_generator (Z.of_nat oH) (Z.of_nat oW) sH sW)
           (0, 0)%Z
       = (Z.of_nat (k / oW) * sH, Z.of_nat (k mod oW) * sW)%Z.
Proof.
  split.
  - rewrite slice_idx_generator_length, !Nat2Z.id. reflexivity.
  - intros k Hk. assert (HoW : oW <> 0) by nia.
    pose proof (Nat.div_mod_eq k oW) as Hdm.
    pose proof (Nat.mod_upper_bound k oW HoW) as Hr.
    assert (Hq : k / oW < oH) by (apply Nat.Div0.div_lt_upper_bound; nia).
    unfold slice_idx_generator.
    replace k with (k / oW * oW + k mod oW) at 1 by lia.
    rewrite (@nth_flat_map_const Z (Z * Z) _ oW 0%Z).
    + rewrite nth_py_range by exact Hq.
      rewrite nth_indep
        with (d' := (fun j => (Z.of_nat (k / oW) * sH, j * sW)%Z) 0%Z)
        by (now rewrite length_map, py_range_length, Nat2Z.id).
      rewrite (map_nth (fun j => (Z.of_nat (k / oW) * sH, j * sW)%Z)
                 (py_range (Z.of_nat oW)) 0%Z).
      rewrite nth_py_range by exact Hr. reflexivity.
    + intros i. now rewrite length_map, py_range_length, Nat2Z.id.
    + now rewrite py_range_length, Nat2Z.id.
    + exact Hr.
Qed.

(** X3.  The window indexer yields [oH * oW] origins in row-major order:
    the origin at position [k] is that of output row [k / oW] and output
    column [k mod oW]. *)
Theorem slice_idx_generator_row_major (oH oW : nat) (sH sW : Z) :
  length (slice_idx_generator (Z.of_nat oH) (Z.of_nat oW) sH sW) = oH * oW
  /\ forall k, k < oH * oW ->
       nth k (slice_idx_generator (Z.of_nat oH) (Z.of_nat oW) sH sW)
           (0, 0)%Z
       = (Z.of_nat (k / oW) * sH, Z.of_nat (k mod oW) * sW)%Z.
Proof. apply slice_idx_nth. Qed.

(** ** Padding and window extraction *)

(** X4.  [pad] on a 4-D tensor with non-negative amounts: the two middle
    axes grow by twice the padding, the input sits in the middle, and
    everything around it is zero. *)
Theorem pad_zero_border {A : Type} {DA : Dtype A} (X : ndarray A)
  (C H W m : nat) (pH pW : Z) :
  shape X = [C; H; W; m] -> (0 <= pH)%Z -> (0 <= pW)%Z ->
  exists P,
    pad X pH pW = Ok P
    /\ shape P = [C; H + 2 * Z.to_nat pH; W + 2 * Z.to_nat pW; m]
    /\ (forall c r col b, c < C -> r < H -> col < W -> b < m ->
          item P [c; Z.to_nat pH + r; Z.to_nat pW + col; b]
          = item X [c; r; col; b])
    /\ (forall c r col b,
          r < Z.to_nat pH \/ Z.to_nat pH + H <= r
          \/ col < Z.to_nat pW \/ Z.to_nat pW + W <= col ->
          item P [c; r; col; b] = zero).
Proof.
  intros Hsh HpH HpW. unfold pad, np_pad, ndim. rewrite Hsh.
  cbn [length Nat.eqb negb existsb fst snd Z.ltb Z.compare orb].
  destruct (Z.ltb_spec pH 0); [lia|]. destruct (Z.ltb_spec pW 0); [lia|].
  cbn [orb]. eexists. split; [reflexivity|].
  cbn [shape item map combine fst snd Z.to_nat]. split.
  { f_equal; [lia|]. f_equal; [lia|]. f_equal; [lia|]. f_equal. lia. }
  unfold in_box, unshift. cbn [combine forallb map fst snd].
  split.
  - intros c r col b Hc Hr Hcol Hb.
    match goal with
    | |- (if ?c1 then _ else _) = _ =>
        assert (Hcond : c1 = true);
        [ rewrite ?andb_true_iff, ?Nat.leb_le, ?Nat.ltb_lt; lia
        | rewrite Hcond ]
    end.
    do 2 f_equal; [lia|]. f_equal; [lia|]. f_equal; [lia|]. f_equal. lia.
  - intros c r col b Hout.
    match goal with
    | |- (if ?c1 then _ else _) = _ =>
        assert (Hcond : c1 = false);
        [ apply not_true_is_false;
          rewrite ?andb_true_iff, ?Nat.leb_le, ?Nat.ltb_lt; lia
        | rewrite Hcond; reflexivity ]
    end.
Qed.

Lemma pad_zero_border_witness :
  exists P,
    pad one_channel_input 1 2 = Ok P
    /\ shape P = [1; 3 + 2 * Z.to_nat 1; 3 + 2 * Z.to_nat 2; 1]
    /\ (forall c r col b, c < 1 -> r < 3 -> col < 3 -> b < 1 ->
          item P [c; Z.to_nat 1 + r; Z.to_nat 2 + col; b]
          = item one_channel_input [c; r; col; b])
    /\ (forall c r col b,
          r < Z.to_nat 1 \/ Z.to_nat 1 + 3 <= r
          \/ col < Z.to_nat 2 \/ Z.to_nat 2 + 3 <= col ->
          item P [c; r; col; b] = zero).
Proof.
  apply (@pad_zero_border Q _ one_channel_input 1 3 3 1 1%Z 2%Z);
    [reflexivity | lia | lia].
Defined.

Lemma mapM_ok {B D : Type} (f : B -> result D) (g : B -> D) (l : list B) :
  (forall x, In x l -> f x = Ok (g x)) -> mapM f l = Ok (map g l).
Proof.
  induction l as [|x l IH]; intros Hf; [reflexivity|].
  cbn [mapM map]. rewrite Hf by (left; reflexivity). cbn [bind].
  rewrite IH by (intros y Hy; apply Hf; right; exact Hy). reflexivity.
Qed.

Lemma np_stack_uniform {A : Type} {DA : Dtype A} (Xs : list (ndarray A))
  (sh : list nat) (X0 : ndarray A) :
  Xs <> [] -> (forall Y, In Y Xs -> shape Y = sh) ->
  exists V,
    np_stack Xs = Ok V /\ shape V = length Xs :: sh
    /\ forall k idx, k < length Xs -> item V (k :: idx) = item (nth k Xs X0) idx.
Proof.
  intros Hne Hsh. destruct Xs as [|Y Ys]; [contradiction|].
  unfold np_stack.
  assert (E : forallb (fun X => list_eqb (shape X) (shape Y)) (Y :: Ys) = true).
  { apply forallb_forall. intros Z HZ. apply list_eqb_eq.
    rewrite (Hsh Z HZ), (Hsh Y (or_introl eq_refl)). reflexivity. }
  rewrite E. eexists. split; [reflexivity|]. cbn [shape item].
  split; [now rewrite (Hsh Y (or_introl eq_refl))|].
  intros k idx Hk. apply (f_equal (fun Z => item Z idx)).
  apply nth_indep. exact Hk.
Qed.

Section Vectorize.
Context {A : Type} {DA : Dtype A}.
Variables (X : ndarray A) (C H W m kh kw : nat).
Hypothesis X_shape : shape X = [C; H; W; m].

(** The window with origin [start], before it is reshaped. *)
Lemma window_slice (start : Z * Z) :
  fits H W (Z.of_nat kh) (Z.of_nat kw) start ->
  exists sl,
    expand_trailing (ndim X)
      [Full; Range (fst start) (fst start + Z.of_nat kh);
       Range (snd start) (snd start + Z.of_nat kw)] = Ok sl
    /\ shape (np_getslice X sl) = [C; kh; kw; m]
    /\ forall c a b n,
         item (np_getslice X sl) [c; a; b; n]
         = item X [c; Z.to_nat (fst start) + a; Z.to_nat (snd start) + b; n].
Proof.
  intros (Hr0 & Hr1 & Hc0 & Hc1). unfold expand_trailing, ndim.
  rewrite X_shape. cbn [length Nat.leb Nat.sub repeat app].
  eexists. split; [reflexivity|].
  unfold np_getslice, bounds. rewrite X_shape. cbn [combine map fst snd].
  rewrite !slice_bounds_inside by lia. cbn [slice_bounds shape item snd].
  rewrite !Nat2Z.id. split; [reflexivity|].
  intros c a b n. reflexivity.
Qed.

Lemma vectorize_windows (reshape : list Z) (rs : list nat) (sH sW : Z)
  (oH oW : nat) :
  resolve_shape (prod [C; kh; kw; m]) reshape = Ok rs ->
  0 < oH * oW ->
  Forall (fits H W (Z.of_nat kh) (Z.of_nat kw))
    (slice_idx_generator (Z.of_nat oH) (Z.of_nat oW) sH sW) ->
  exists V,
    vectorize_ip_for_conv X (Z.of_nat kh, Z.of_nat kw) (sH, sW)
      (Z.of_nat oH, Z.of_nat oW) (Some reshape) = Ok V
    /\ shape V = oH * oW :: rs
    /\ forall k idx c a b n, k < oH * oW ->
         unravel_index [C; kh; kw; m] (ravel_index rs idx) = [c; a; b; n] ->
         item V (k :: idx)
         = item X [c;
                   Z.to_nat (fst (nth k (slice_idx_generator (Z.of_nat oH)
                                           (Z.of_nat oW) sH sW) (0, 0)%Z))
                   + a;
                   Z.to_nat (snd (nth k (slice_idx_generator (Z.of_nat oH)
                                           (Z.of_nat oW) sH sW) (0, 0)%Z))
                   + b;
                   n].
Proof.
  intros Hrs Hpos Hfit. unfold vectorize_ip_for_conv. cbn [bind].
  set (ws := slice_idx_generator (Z.of_nat oH) (Z.of_nat oW) sH sW) in *.
  set (sl := fun start : Z * Z =>
               [Full; Range (fst start) (fst start + Z.of_nat kh);
                Range (snd start) (snd start + Z.of_nat kw); Full]).
  set (g := fun start : Z * Z =>
              NdArray rs
                (fun idx => item (np_getslice X (sl start))
                              (unravel_index [C; kh; kw; m]
                                 (ravel_index rs idx)))).
  assert (Hlen : length ws = oH * oW).
  { unfold ws. rewrite slice_idx_generator_length, !Nat2Z.id. reflexivity. }
  assert (Hwin : forall start, In start ws ->
            shape (np_getslice X (sl start)) = [C; kh; kw; m]
            /\ forall c a b n,
                 item (np_getslice X (sl start)) [c; a; b; n]
                 = item X [c; Z.to_nat (fst start) + a;
                           Z.to_nat (snd start) + b; n]).
  { intros start Hin. rewrite Forall_forall in Hfit.
    destruct (window_slice (Hfit _ Hin)) as (sl' & Hsl & Hsh & Hit).
    unfold expand_trailing, ndim in Hsl. rewrite X_shape in Hsl.
    cbn [length Nat.leb Nat.sub repeat app] in Hsl.
    assert (Esl : sl' = sl start) by (unfold sl; congruence).
    subst sl'. split; assumption. }
  rewrite (@mapM_ok _ _ _ g ws).
  - cbn [bind].
    destruct (@np_stack_uniform A DA (map g ws) rs (g (0, 0)%Z))
      as (V & HV & HVs & HVi).
    + intros E. apply (f_equal (@length _)) in E.
      rewrite length_map, Hlen in E. cbn in E. lia.
    + intros Y HY. apply in_map_iff in HY. destruct HY as (st & <- & _).
      reflexivity.
    + exists V. split; [exact HV|]. rewrite length_map, Hlen in HVs, HVi.
      split; [exact HVs|].
      intros k idx c a b n Hk Hun. rewrite HVi by exact Hk.
      rewrite map_nth. unfold g at 1. cbn [item]. rewrite Hun.
      apply Hwin. apply nth_In. now rewrite Hlen.
  - intros start Hin. unfold expand_trailing, ndim. rewrite X_shape.
    cbn [length Nat.leb Nat.sub repeat app bind].
    unfold np_reshape, size. fold (sl start).
    rewrite (proj1 (Hwin _ Hin)), Hrs. reflexivity.
Qed.
End Vectorize.

Lemma nat_div_mod_unique (oW i j : nat) :
  j < oW -> (i * oW + j) / oW = i /\ (i * oW + j) mod oW = j.
Proof.
  intros Hj. split.
  - rewrite Nat.div_add_l by lia. rewrite Nat.div_small by exact Hj. lia.
  - rewrite Nat.add_comm, Nat.Div0.mod_add. now apply Nat.mod_small.
Qed.

Lemma windows_fit (H W kh kw sh sw oH oW : nat) :
  (oH - 1) * sh + kh <= H -> (oW - 1) * sw + kw <= W ->
  Forall (fits H W (Z.of_nat kh) (Z.of_nat kw))
    (slice_idx_generator (Z.of_nat oH) (Z.of_nat oW) (Z.of_nat sh)
       (Z.of_nat sw)).
Proof.
  intros HH HW. apply Forall_forall. intros start Hin.
  apply in_slice_idx_generator in Hin.
  destruct Hin as (i & j & Hi & Hj & ->). unfold fits. cbn [fst snd].
  assert (Z.to_nat i <= oH - 1) by lia. assert (Z.to_nat j <= oW - 1) by lia.
  assert (Z.to_nat i * sh <= (oH - 1) * sh) by nia.
  assert (Z.to_nat j * sw <= (oW - 1) * sw) by nia.
  repeat split; nia.
Qed.

Lemma window_origin (oH oW sh sw i j : nat) :
  i < oH -> j < oW ->
  nth (i * oW + j)
    (slice_idx_generator (Z.of_nat oH) (Z.of_nat oW) (Z.of_nat sh)
       (Z.of_nat sw)) (0, 0)%Z
  = (Z.of_nat (i * sh), Z.of_nat (j * sw)).
Proof.
  intros Hi Hj.
  rewrite (proj2 (slice_idx_nth oH oW (Z.of_nat sh) (Z.of_nat sw)))
    by nia.
  destruct (@nat_div_mod_unique oW i j Hj) as [-> ->]. f_equal; lia.
Qed.

Lemma ravel_rows (C kh kw m c a b n : nat) :
  ravel_index [C * kh * kw; m] [(c * kh + a) * kw + b; n]
  = ravel_index [C; kh; kw; m] [c; a; b; n].
Proof. cbn [ravel_index prod fold_right]. nia. Qed.

Lemma vectorize_default_windows {A : Type} {DA : Dtype A}
  (X : ndarray A) (C H W m kh kw sh sw oH oW : nat) :
  shape X = [C; H; W; m] -> 0 < m -> 0 < oH * oW ->
  (oH - 1) * sh + kh <= H -> (oW - 1) * sw + kw <= W ->
  exists V,
    vectorize_ip_for_conv X (Z.of_nat kh, Z.of_nat kw)
      (Z.of_nat sh, Z.of_nat sw) (Z.of_nat oH, Z.of_nat oW) None = Ok V
    /\ shape V = [oH * oW; C * kh * kw; m]
    /\ forall i j c a b n,
         i < oH -> j < oW -> c < C -> a < kh -> b < kw -> n < m ->
         item V [i * oW + j; (c * kh + a) * kw + b; n]
         = item X [c; i * sh + a; j * sw + b; n].
Proof.
  intros Hsh Hm Hpos HH HW.
  assert (Hnone : vectorize_ip_for_conv X (Z.of_nat kh, Z.of_nat kw)
                    (Z.of_nat sh, Z.of_nat sw) (Z.of_nat oH, Z.of_nat oW)
                    None
                  = vectorize_ip_for_conv X (Z.of_nat kh, Z.of_nat kw)
                      (Z.of_nat sh, Z.of_nat sw) (Z.of_nat oH, Z.of_nat oW)
                      (Some [(-1)%Z; Z.of_nat m])).
  { unfold vectorize_ip_for_conv. rewrite Hsh. reflexivity. }
  rewrite Hnone.
  destruct (@vectorize_windows A DA X C H W m kh kw Hsh
              [(-1)%Z; Z.of_nat m] [C * kh * kw; m]
              (Z.of_nat sh) (Z.of_nat sw) oH oW)
    as (V & HV & HVs & HVi).
  - apply (@resolve_shape_infer _ (C * kh * kw) [] [m]); cbn; nia.
  - exact Hpos.
  - now apply windows_fit.
  - exists V. split; [exact HV|]. split; [exact HVs|].
    intros i j c a b n Hi Hj Hc Ha Hb Hn.
    rewrite (HVi (i * oW + j) [(c * kh + a) * kw + b; n] c a b n).
    + rewrite window_origin by assumption. cbn [fst snd].
      now rewrite !Nat2Z.id.
    + nia.
    + rewrite ravel_rows. apply unravel_ravel_index.
      now apply in_bounds_4.
Qed.

(** X5.  Window extraction with the default reshape is im2col: on a 4-D
    input whose planes hold every window, the result has one row per
    window, in row-major order of the output positions, and row
    [i * oW + j] holds the entries of the window at output position
    (i, j), channel-major, for every batch element. *)
Theorem vectorize_ip_for_conv_im2col {A : Type} {DA : Dtype A}
  (X : ndarray A) (C H W m kh kw sh sw oH oW : nat) :
  shape X = [C; H; W; m] -> 0 < m -> 0 < oH * oW ->
  (oH - 1) * sh + kh <= H -> (oW - 1) * sw + kw <= W ->
  exists V,
    vectorize_ip_for_conv X (Z.of_nat kh, Z.of_nat kw)
      (Z.of_nat sh, Z.of_nat sw) (Z.of_nat oH, Z.of_nat oW) None = Ok V
    /\ shape V = [oH * oW; C * kh * kw; m]
    /\ forall i j c a b n,
         i < oH -> j < oW -> c < C -> a < kh -> b < kw -> n < m ->
         item V [i * oW + j; (c * kh + a) * kw + b; n]
         = item X [c; i * sh + a; j * sw + b; n].
Proof. apply vectorize_default_windows. Qed.

Lemma vectorize_ip_for_conv_im2col_witness :
  exists V,
    vectorize_ip_for_conv input_4x4 (Z.of_nat 2, Z.of_nat 2)
      (Z.of_nat 1, Z.of_nat 1) (Z.of_nat 3, Z.of_nat 3) None = Ok V
    /\ shape V = [3 * 3; 1 * 2 * 2; 1]
    /\ forall i j c a b n,
         i < 3 -> j < 3 -> c < 1 -> a < 2 -> b < 2 -> n < 1 ->
         item V [i * 3 + j; (c * 2 + a) * 2 + b; n]
         = item input_4x4 [c; i * 1 + a; j * 1 + b; n].
Proof.
  apply (@vectorize_ip_for_conv_im2col Q _ input_4x4 1 4 4 1 2 2 1 1 3 3);
    [reflexivity | lia ..].
Defined.





(** ** The convolution as a matrix product *)





(** A stack of [m] matrices times one matrix shared by all of them. *)
Lemma convolve_batched (Xm weights : ndarray Q) (m n k f : nat) :
  shape Xm = [m; n; k] -> shape weights = [k; f] ->
  exists R,
    convolve Xm weights = Ok R /\ shape R = [m; n; f]
    /\ forall b w j, b < m ->
         item R [b; w; j]
         = dot k (fun t => item Xm [b; w; t]) (fun t => item weights [t; j]).
Proof.
  intros HX HW. unfold convolve, np_matmul, np_expand_first, ndim.
  cbn [shape]. rewrite HX, HW. cbn [length Nat.eqb orb].
  unfold matmul_core. cbn [shape]. rewrite HX. cbn [rev app].
  rewrite Nat.eqb_refl. cbn [negb bcast_rev].
  destruct (m =? 1) eqn:Em; cbn [Nat.eqb bind rev app];
    (eexists; split; [reflexivity|]; split; [reflexivity|]);
    intros b w j Hb; cbn [item removelast last];
    unfold bcast_index; cbn [length Nat.sub skipn combine map fst snd tl app
                               Nat.eqb];
    rewrite Em; [apply Nat.eqb_eq in Em; replace b with 0 by lia|];
    reflexivity.
Qed.



(** ** The input gradient, from the scatter loop to the returned array *)

(** X8.  [accumulate_dX_conv] from start to end, when the padding is zero
    on both axes or positive on both: it returns an array of shape
    (channels, H, W, batch), the unpadded input shape, whose entry at
    channel [c], row [r], column [col], batch element [b] is the sum of
    the gradients of the windows covering the padded position
    ([pH + r], [pW + col]). *)
Theorem accumulate_dX_conv_unpadded_layout {A : Type} {DA : Dtype A}
  (m C H W nW : nat) (kH kW sH sW oH oW pH pW : Z) (dIp : ndarray A)
  (rest : list nat) :
  shape dIp = m :: nW :: rest ->
  prod rest = C * Z.to_nat kH * Z.to_nat kW ->
  0 < C -> (0 < kH)%Z -> (0 < kW)%Z -> (0 < sH)%Z -> (0 < sW)%Z ->
  (pH = 0 /\ pW = 0)%Z \/ (0 < pH /\ 0 < pW)%Z ->
  ((oH - 1) * sH + kH <= Z.of_nat H + 2 * pH)%Z ->
  ((oW - 1) * sW + kW <= Z.of_nat W + 2 * pW)%Z ->
  Z.to_nat oH * Z.to_nat oW <= nW ->
  exists dX,
    accumulate_dX_conv [m; C; H + 2 * Z.to_nat pH; W + 2 * Z.to_nat pW]
      (oH, oW) dIp (sH, sW) (kH, kW) [(-1)%Z; Z.of_nat C; kH; kW]
      (pH, pW) true = Ok dX
    /\ shape dX = [C; H; W; m]
    /\ forall c r col b, c < C -> b < m ->
         item dX [c; r; col; b]
         = covering_sum dIp (kH, kW) [(-1)%Z; Z.of_nat C; kH; kW]
             (enumerate (slice_idx_generator oH oW sH sW))
             b c (Z.to_nat pH + r) (Z.to_nat pW + col).
Proof. apply accumulate_dX_conv_ok. Qed.

Lemma accumulate_dX_conv_unpadded_layout_witness :
  exists dX,
    accumulate_dX_conv [1; 1; 1 + 2 * Z.to_nat 1; 1 + 2 * Z.to_nat 1]
      (2, 2)%Z overlap_dIp (1, 1)%Z (2, 2)%Z
      [(-1)%Z; Z.of_nat 1; 2%Z; 2%Z] (1, 1)%Z true = Ok dX
    /\ shape dX = [1; 1; 1; 1]
    /\ forall c r col b, c < 1 -> b < 1 ->
         item dX [c; r; col; b]
         = covering_sum overlap_dIp (2, 2)%Z [(-1)%Z; Z.of_nat 1; 2%Z; 2%Z]
             (enumerate (slice_idx_generator 2 2 1 1))
             b c (Z.to_nat 1 + r) (Z.to_nat 1 + col).
Proof.
  apply (@accumulate_dX_conv_unpadded_layout Q _ 1 1 1 1 4 2 2 1 1 2 2 1 1
           overlap_dIp [4]); try reflexivity; try lia.
Defined.

(** ** Windows that do not overlap *)

Lemma fold_left_enumerate_from {U T : Type} (f : U -> nat * T -> U) (d : T) :
  forall (l : list T) (s : nat) (a : U) (k : nat),
    (forall n, n < length l -> n <> k ->
       forall acc, f acc (s + n, nth n l d) = acc) ->
    fold_left f (combine (seq s (length l)) l) a
    = if k <? length l then f a (s + k, nth k l d) else a.
Proof.
  induction l as [|x l IH]; intros s a k Hn; [reflexivity|].
  cbn [length seq combine fold_left].
  destruct k as [|k].
  - rewrite (IH (S s) (f a (s, x)) (length l)).
    + rewrite Nat.ltb_irrefl. cbn [Nat.ltb Nat.leb nth].
      now rewrite Nat.add_0_r.
    + intros n Hl Hne acc. specialize (Hn (S n)). cbn [length nth] in Hn.
      rewrite Nat.add_succ_r in Hn. apply Hn; lia.
  - pose proof (Hn 0) as H0. cbn [length nth] in H0.
    rewrite Nat.add_0_r in H0. rewrite H0 by lia.
    rewrite (IH (S s) a k).
    + change (S k <? S (length l)) with (k <? length l).
      cbn [nth]. now rewrite Nat.add_succ_r.
    + intros n Hl Hne acc. specialize (Hn (S n)). cbn [length nth] in Hn.
      rewrite Nat.add_succ_r in Hn. apply Hn; lia.
Qed.

Lemma window_grad_item {A : Type} {DA : Dtype A} (dIp : ndarray A)
  (m nW C kh kw k b c a b' : nat) :
  shape dIp = [m; nW; C; kh * kw] ->
  0 < C -> 0 < kh -> 0 < kw ->
  k < nW -> b < m -> c < C -> a < kh -> b' < kw ->
  item (window_grad dIp [(-1)%Z; Z.of_nat C; Z.of_nat kh; Z.of_nat kw] k)
       [b; c; a; b']
  = item dIp [b; k; c; a * kw + b'].
Proof.
  intros Hsh HC Hkh Hkw Hk Hb Hc Ha Hb'.
  unfold window_grad, np_select_axis1. rewrite Hsh.
  destruct (Nat.ltb_spec k nW) as [_|]; [|lia]. cbn [bind].
  unfold np_reshape, size. cbn [shape].
  replace (prod [m; C; kh * kw])
    with (m * (C * Z.to_nat (Z.of_nat kh) * Z.to_nat (Z.of_nat kw)))
    by (rewrite !Nat2Z.id; cbn; lia).
  rewrite resolve_shape_window by lia. rewrite !Nat2Z.id. cbn [bind item].
  replace (ravel_index [m; C; kh; kw] [b; c; a; b'])
    with (ravel_index [m; C; kh * kw] [b; c; a * kw + b']) by (cbn; nia).
  rewrite unravel_ravel_index; [reflexivity|].
  apply in_bounds_3; try assumption. nia.
Qed.

Lemma covers_disjoint (kh kw oW r col n : nat) :
  0 < kh -> 0 < kw -> 0 < oW ->
  covers (Z.of_nat kh, Z.of_nat kw)
    (Z.of_nat (n / oW) * Z.of_nat kh, Z.of_nat (n mod oW) * Z.of_nat kw)%Z
    r col = true
  <-> n / oW = r / kh /\ n mod oW = col / kw.
Proof.
  intros Hkh Hkw HoW. unfold covers. cbn [fst snd].
  rewrite !andb_true_iff, !Z.leb_le, !Z.ltb_lt.
  pose proof (Nat.div_mod_eq r kh) as Er.
  pose proof (Nat.mod_upper_bound r kh ltac:(lia)) as Hr.
  pose proof (Nat.div_mod_eq col kw) as Ec.
  pose proof (Nat.mod_upper_bound col kw ltac:(lia)) as Hc.
  remember (n / oW) as i. remember (n mod oW) as j.
  remember (r / kh) as qi. remember (r mod kh) as ri.
  remember (col / kw) as qj. remember (col mod kw) as rj.
  clear Heqi Heqj Heqqi Heqri Heqqj Heqrj. split.
  - intros [[[H1 H2] H3] H4]. split; nia.
  - intros [-> ->]. repeat split; nia.
Qed.

Lemma accumulate_disjoint_ok (dIp : ndarray Q)
  (m C H W oH oW kh kw : nat) :
  shape dIp = [m; oH * oW; C; kh * kw] ->
  0 < C -> 0 < kh -> 0 < kw -> 0 < oH -> 0 < oW ->
  oH * kh <= H -> oW * kw <= W ->
  exists dX,
    accumulate_dX_conv [m; C; H; W] (Z.of_nat oH, Z.of_nat oW) dIp
      (Z.of_nat kh, Z.of_nat kw) (Z.of_nat kh, Z.of_nat kw)
      [(-1)%Z; Z.of_nat C; Z.of_nat kh; Z.of_nat kw] (0, 0)%Z true = Ok dX
    /\ shape dX = [C; H; W; m]
    /\ forall c r col b, c < C -> b < m ->
         (item dX [c; r; col; b]
          == if ((r <? oH * kh) && (col <? oW * kw))%nat
             then item dIp [b; (r / kh * oW + col / kw)%nat; c;
                            (r mod kh * kw + col mod kw)%nat]
             else 0)%Q.
Proof.
  intros Hsh HC Hkh Hkw HoH HoW HH HW.
  destruct (@accumulate_dX_conv_ok Q _ m C H W (oH * oW) (Z.of_nat kh)
              (Z.of_nat kw) (Z.of_nat kh) (Z.of_nat kw) (Z.of_nat oH)
              (Z.of_nat oW) 0%Z 0%Z dIp [C; kh * kw] Hsh)
    as (dX & HdX & HdXs & HdXi);
    [ rewrite !Nat2Z.id; cbn; lia | lia | lia | lia | lia | lia | left; lia
    | nia | nia | rewrite !Nat2Z.id; lia | ].
  change (Z.to_nat 0) with 0 in HdX, HdXi.
  replace (H + 2 * 0) with H in HdX by lia.
  replace (W + 2 * 0) with W in HdX by lia.
  exists dX. split; [exact HdX|]. split; [exact HdXs|].
  intros c r col b Hc Hb. rewrite (HdXi c r col b Hc Hb). cbn [Nat.add].
  unfold covering_sum, covering_sum_from, enumerate.
  destruct (@slice_idx_nth oH oW (Z.of_nat kh) (Z.of_nat kw)) as [Hlen Hnth].
  set (k := if (r <? oH * kh) && (col <? oW * kw)
            then (r / kh) * oW + col / kw else oH * oW).
  assert (Hq : forall q j, j < oW -> (q * oW + j) / oW = q
                           /\ (q * oW + j) mod oW = j).
  { intros q j Hj. split.
    - rewrite Nat.div_add_l by lia. rewrite Nat.div_small by lia. lia.
    - rewrite Nat.add_comm, Nat.Div0.mod_add. now apply Nat.mod_small. }
  assert (Hcj : col < oW * kw -> col / kw < oW).
  { intros Hl. apply Nat.Div0.div_lt_upper_bound. nia. }
  assert (Hri : r < oH * kh -> r / kh < oH).
  { intros Hl. apply Nat.Div0.div_lt_upper_bound. nia. }
  rewrite (@fold_left_enumerate_from Q (Z * Z) _ (0, 0)%Z _ 0 _ k).
  - rewrite Hlen. unfold k.
    destruct (Nat.ltb_spec r (oH * kh)) as [Hr|Hr];
      destruct (Nat.ltb_spec col (oW * kw)) as [Hcl|Hcl]; cbn [andb];
      try (rewrite Nat.ltb_irrefl; reflexivity).
    specialize (Hri Hr). specialize (Hcj Hcl).
    assert (Hk : r / kh * oW + col / kw < oH * oW) by nia.
    apply Nat.ltb_lt in Hk. rewrite Hk. apply Nat.ltb_lt in Hk.
    cbn [Nat.add fst snd]. rewrite (Hnth _ Hk).
    destruct (Hq (r / kh) (col / kw) Hcj) as [E1 E2].
    assert (Hcov : covers (Z.of_nat kh, Z.of_nat kw)
                     (Z.of_nat ((r / kh * oW + col / kw) / oW) * Z.of_nat kh,
                      Z.of_nat ((r / kh * oW + col / kw) mod oW)
                      * Z.of_nat kw)%Z r col = true).
    { apply covers_disjoint; try assumption. now rewrite E1, E2. }
    rewrite Hcov. rewrite E1, E2. cbn [fst snd].
    pose proof (Nat.div_mod_eq r kh) as Er.
    pose proof (Nat.div_mod_eq col kw) as Ec.
    replace (Z.to_nat (Z.of_nat r - Z.of_nat (r / kh) * Z.of_nat kh))
      with (r mod kh) by nia.
    replace (Z.to_nat (Z.of_nat col - Z.of_nat (col / kw) * Z.of_nat kw))
      with (col mod kw) by nia.
    rewrite (@window_grad_item Q _ dIp m (oH * oW) C kh kw _ b c _ _ Hsh);
      try assumption; try (apply Nat.mod_upper_bound; lia).
    unfold add, zero, Dtype_Q. apply Qplus_0_l.
  - intros n Hn Hne acc. rewrite Hlen in Hn. cbn [Nat.add fst snd].
    rewrite (Hnth _ Hn).
    destruct (covers _ _ r col) eqn:Hcov; [|reflexivity].
    exfalso. apply covers_disjoint in Hcov; try assumption.
    destruct Hcov as [E1 E2].
    pose proof (Nat.div_mod_eq n oW) as En.
    assert (Hi : n / oW < oH) by (apply Nat.Div0.div_lt_upper_bound; nia).
    pose proof (Nat.mod_upper_bound n oW ltac:(lia)) as Hj.
    pose proof (Nat.div_mod_eq r kh) as Er.
    pose proof (Nat.mod_upper_bound r kh ltac:(lia)) as Hrr.
    pose proof (Nat.div_mod_eq col kw) as Ec.
    pose proof (Nat.mod_upper_bound col kw ltac:(lia)) as Hcc.
    apply Hne. unfold k.
    assert (Hr : r < oH * kh) by nia.
    assert (Hcl : col < oW * kw) by nia.
    apply Nat.ltb_lt in Hr, Hcl. rewrite Hr, Hcl. cbn [andb]. nia.
Qed.

(** X9.  When the stride equals the kernel size the windows do not
    overlap, and the gradient scattered back is read off directly: a
    position inside the area tiled by the windows receives the gradient
    its one window holds for it, at window [(r / kH) * oW + col / kW] and
    position [(r mod kH) * kW + col mod kW] inside the window; a position
    in the rows or columns that no window reaches receives nothing. *)
Theorem accumulate_dX_conv_disjoint_windows (dIp : ndarray Q)
  (m C H W oH oW kh kw : nat) :
  shape dIp = [m; oH * oW; C; kh * kw] ->
  0 < C -> 0 < kh -> 0 < kw -> 0 < oH -> 0 < oW ->
  oH * kh <= H -> oW * kw <= W ->
  exists dX,
    accumulate_dX_conv [m; C; H; W] (Z.of_nat oH, Z.of_nat oW) dIp
      (Z.of_nat kh, Z.of_nat kw) (Z.of_nat kh, Z.of_nat kw)
      [(-1)%Z; Z.of_nat C; Z.of_nat kh; Z.of_nat kw] (0, 0)%Z true = Ok dX
    /\ shape dX = [C; H; W; m]
    /\ forall c r col b, c < C -> b < m ->
         (item dX [c; r; col; b]
          == if ((r <? oH * kh) && (col <? oW * kw))%nat
             then item dIp [b; (r / kh * oW + col / kw)%nat; c;
                            (r mod kh * kw + col mod kw)%nat]
             else 0)%Q.
Proof. apply accumulate_disjoint_ok. Qed.

Lemma accumulate_dX_conv_disjoint_windows_witness :
  exists dX,
    accumulate_dX_conv [1; 1; 5; 4] (Z.of_nat 2, Z.of_nat 2) windowed_4x4
      (Z.of_nat 2, Z.of_nat 2) (Z.of_nat 2, Z.of_nat 2)
      [(-1)%Z; Z.of_nat 1; Z.of_nat 2; Z.of_nat 2] (0, 0)%Z true = Ok dX
    /\ shape dX = [1; 5; 4; 1]
    /\ forall c r col b, c < 1 -> b < 1 ->
         (item dX [c; r; col; b]
          == if ((r <? 2 * 2) && (col <? 2 * 2))%nat
             then item windowed_4x4 [b; (r / 2 * 2 + col / 2)%nat; c;
                                     (r mod 2 * 2 + col mod 2)%nat]
             else 0)%Q.
Proof.
  apply (@accumulate_dX_conv_disjoint_windows windowed_4x4 1 1 5 4 2 2 2 2);
    try reflexivity; lia.
Defined.

(** ** Sums of floats *)

Lemma fold_left_Qplus_acc (l : list Q) (a : Q) :
  (fold_left Qplus l a == a + fold_left Qplus l 0)%Q.
Proof.
  revert a. induction l as [|x l IH]; intros a; cbn [fold_left].
  - ring.
  - rewrite (IH (a + x)%Q), (IH (0 + x)%Q). ring.
Qed.

Lemma qsum_cons (x : Q) (l : list Q) :
  (fold_left Qplus (x :: l) 0 == x + fold_left Qplus l 0)%Q.
Proof. cbn [fold_left]. rewrite fold_left_Qplus_acc. ring. Qed.

Lemma qsum_ext {T : Type} (g h : T -> Q) (l : list T) :
  (forall t, In t l -> (g t == h t)%Q) ->
  (fold_left Qplus (map g l) 0 == fold_left Qplus (map h l) 0)%Q.
Proof.
  induction l as [|x l IH]; intros E; [reflexivity|].
  cbn [map]. rewrite !qsum_cons.
  pose proof (IH (fun t Ht => E t (or_intror Ht))) as H1.
  pose proof (E x (or_introl eq_refl)) as H2.
  rewrite H1, H2. reflexivity.
Qed.

Lemma qsum_scale {T : Type} (g : T -> Q) (c : Q) (l : list T) :
  (fold_left Qplus (map (fun t => g t * c) l) 0
   == fold_left Qplus (map g l) 0 * c)%Q.
Proof.
  induction l as [|x l IH]; [cbn; ring|].
  cbn [map]. rewrite !qsum_cons, IH. ring.
Qed.

Lemma qsum_plus {T : Type} (g h : T -> Q) (l : list T) :
  (fold_left Qplus (map (fun t => g t + h t) l) 0
   == fold_left Qplus (map g l) 0 + fold_left Qplus (map h l) 0)%Q.
Proof.
  induction l as [|x l IH]; [cbn; ring|].
  cbn [map]. rewrite !qsum_cons, IH. ring.
Qed.

Lemma qsum_zero {T : Type} (l : list T) :
  (fold_left Qplus (map (fun _ : T => 0) l) 0 == 0)%Q.
Proof.
  induction l as [|x l IH]; [reflexivity|].
  cbn [map]. rewrite qsum_cons, IH. ring.
Qed.

Lemma qsum_exchange {T U : Type} (g : T -> U -> Q) (lt : list T)
  (lu : list U) :
  (fold_left Qplus
     (map (fun t => fold_left Qplus (map (fun u => g t u) lu) 0) lt) 0
   == fold_left Qplus
        (map (fun u => fold_left Qplus (map (fun t => g t u) lt) 0) lu) 0)%Q.
Proof.
  induction lt as [|x lt IH].
  - cbn [map fold_left]. now rewrite qsum_zero.
  - cbn [map]. rewrite qsum_cons, IH.
    rewrite <- qsum_plus. apply qsum_ext. intros u _.
    now rewrite qsum_cons.
Qed.

(** ** The gradients of a convolution *)

Lemma backprop_ip_conv2d_ok (G Wt : ndarray Q) (m n K F : nat) :
  shape G = [m; n; F] -> shape Wt = [K; F] ->
  exists D,
    backprop_ip_conv2d G Wt = Ok D /\ shape D = [m; n; K]
    /\ forall b w t, b < m ->
         item D [b; w; t]
         = dot F (fun f => item G [b; w; f]) (fun f => item Wt [t; f]).
Proof.
  intros HG HW. unfold backprop_ip_conv2d, np_matmul, np_T, np_transpose, ndim.
  cbn [shape]. rewrite HG, HW. cbn [length Nat.eqb orb seq rev app map nth].
  unfold matmul_core. cbn [shape]. rewrite HG. cbn [rev app].
  rewrite Nat.eqb_refl. cbn [negb bcast_rev bind rev app].
  eexists. split; [reflexivity|]. split; [reflexivity|].
  intros b w t Hb. cbn [item removelast last].
  unfold bcast_index. cbn [length Nat.sub skipn combine map fst snd app].
  destruct (Nat.eqb_spec m 1) as [->|_]; [replace b with 0 by lia|];
    reflexivity.
Qed.

(** X10.  [backprop_ip_conv2d] is the transpose of [convolve]: for every
    batch element and window, pairing the convolution of the window with
    a gradient [G] gives the same number as pairing the window with the
    input gradient computed from [G]. *)
Theorem backprop_ip_conv2d_adjoint (X Wt G : ndarray Q) (m n K F : nat) :
  shape X = [m; n; K] -> shape Wt = [K; F] -> shape G = [m; n; F] ->
  exists R D,
    convolve X Wt = Ok R /\ backprop_ip_conv2d G Wt = Ok D
    /\ shape R = [m; n; F] /\ shape D = [m; n; K]
    /\ forall b w, b < m -> w < n ->
         (dot F (fun f => item R [b; w; f]) (fun f => item G [b; w; f])
          == dot K (fun t => item X [b; w; t])
                   (fun t => item D [b; w; t]))%Q.
Proof.
  intros HX HW HG.
  destruct (@convolve_batched X Wt m n K F HX HW) as (R & HR & HRs & HRi).
  destruct (@backprop_ip_conv2d_ok G Wt m n K F HG HW)
    as (D & HD & HDs & HDi).
  exists R, D. repeat (split; [assumption|]).
  intros b w Hb Hw. unfold dot.
  rewrite (qsum_ext
             (fun f => item R [b; w; f] * item G [b; w; f])%Q
             (fun f => fold_left Qplus
                         (map (fun t => item X [b; w; t] * item Wt [t; f]
                                        * item G [b; w; f])
                              (seq 0 K)) 0)%Q).
  2:{ intros f _. rewrite (HRi b w f Hb). unfold dot.
      now rewrite <- qsum_scale. }
  rewrite qsum_exchange. apply qsum_ext. intros t _.
  rewrite (HDi b w t Hb). unfold dot.
  rewrite Qmult_comm, <- qsum_scale. apply qsum_ext. intros f _. ring.
Qed.

Lemma backprop_ip_conv2d_adjoint_witness :
  exists R D,
    convolve vec_ip_2x3x4 weights_4x2 = Ok R
    /\ backprop_ip_conv2d vec_grad_2x3x2 weights_4x2 = Ok D
    /\ shape R = [2; 3; 2] /\ shape D = [2; 3; 4]
    /\ forall b w, b < 2 -> w < 3 ->
         (dot 2 (fun f => item R [b; w; f])
                (fun f => item vec_grad_2x3x2 [b; w; f])
          == dot 4 (fun t => item vec_ip_2x3x4 [b; w; t])
                   (fun t => item D [b; w; t]))%Q.
Proof.
  apply (@backprop_ip_conv2d_adjoint vec_ip_2x3x4 weights_4x2
           vec_grad_2x3x2 2 3 4 2); reflexivity.
Defined.

Lemma np_sum_axes_01 (X : ndarray Q) (a b c d : nat) :
  shape X = [a; b; c; d] ->
  np_sum_axes X [0%Z; 1%Z]
  = Ok (NdArray [c; d]
          (fun idx =>
             fold_left Qplus
               (map (fun n => item X (merge_index [true; true; false; false]
                                        idx (unravel_index [a; b] n)))
                    (seq 0 (prod [a; b])))
               0%Q)).
Proof. intros E. unfold np_sum_axes, ndim. rewrite E. reflexivity. Qed.

(** X11.  The kernel gradient of [backprop_kernel_conv2d]: for vectorised
    windows [ip] of shape (batch, windows, C * kH * kW) and an output
    gradient of shape (batch, windows, filters), the result has the shape
    of the kernel, (C, kH, kW, filters), and its entry for channel [c],
    kernel position ([a], [b']) and filter [f] is the sum over every batch
    element and window of the window's entry at that position times the
    gradient of that window for the filter. *)
Theorem backprop_kernel_conv2d_sums_windows (ip grad : ndarray Q)
  (m nW C kh kw F : nat) :
  shape ip = [m; nW; C * kh * kw] -> shape grad = [m; nW; F] ->
  0 < kh -> 0 < kw -> 0 < F ->
  exists dW,
    backprop_kernel_conv2d ip grad (Z.of_nat kh, Z.of_nat kw) (Z.of_nat F)
    = Ok dW
    /\ shape dW = [C; kh; kw; F]
    /\ forall c a b' f, c < C -> a < kh -> b' < kw -> f < F ->
         (item dW [c; a; b'; f]
          == grid_sum m nW
               (fun b w => item ip [b; w; ((c * kh + a) * kw + b')%nat]
                           * item grad [b; w; f]))%Q.
Proof.
  intros Hip Hgr Hkh Hkw HF.
  unfold backprop_kernel_conv2d, np_expand_before_last. rewrite Hgr.
  cbn [rev app bind]. unfold _backprop_kernel_generic_conv.
  unfold np_matmul, np_expand_last, ndim. cbn [shape]. rewrite Hip.
  cbn [length app Nat.eqb orb]. unfold matmul_core. cbn [shape].
  cbn [rev app]. cbn [Nat.eqb negb bcast_rev].
  rewrite !Nat.eqb_refl. cbn [bind rev app].
  match goal with
  | |- context [np_sum_axes ?M _] =>
      rewrite (@np_sum_axes_01 M m nW (C * kh * kw) F eq_refl)
  end.
  cbn [bind].
  change [(-1)%Z; Z.of_nat kh; Z.of_nat kw; Z.of_nat F]
    with (map Z.of_nat [] ++ (-1)%Z :: map Z.of_nat [kh; kw; F]).
  rewrite (@np_reshape_infer Q _ C [] [kh; kw; F]);
    [|cbn; nia|unfold size; cbn; nia].
  cbn [app]. eexists. split; [reflexivity|]. split; [reflexivity|].
  intros c a b' f Hc Ha Hb' Hf. cbn [item shape].
  replace (ravel_index [C; kh; kw; F] [c; a; b'; f])
    with (ravel_index [C * kh * kw; F] [(c * kh + a) * kw + b'; f])
    by (cbn; nia).
  assert (Ht : (c * kh + a) * kw + b' < C * kh * kw).
  { assert (c * kh + a < C * kh) by nia. nia. }
  rewrite unravel_ravel_index
    by (cbn [in_bounds]; rewrite !andb_true_iff, !Nat.ltb_lt;
        repeat split; lia).
  unfold grid_sum.
  replace (prod [m; nW]) with (m * nW) by (cbn; lia).
  apply qsum_ext. intros k Hk. apply in_seq in Hk.
  assert (HnW : nW <> 0) by nia.
  assert (Hq : k / nW < m) by (apply Nat.Div0.div_lt_upper_bound; nia).
  pose proof (Nat.mod_upper_bound k nW HnW) as Hr.
  cbn [unravel_index prod fold_right merge_index hd tl removelast last app].
  rewrite !Nat.mul_1_r, Nat.div_1_r.
  rewrite (@bcast_index_in_bounds [m; nW] [k / nW; k mod nW])
    by (cbn [in_bounds]; rewrite !andb_true_iff, !Nat.ltb_lt;
        repeat split; lia).
  unfold dot. cbn [seq map fold_left app removelast last]. ring.
Qed.

Lemma backprop_kernel_conv2d_sums_windows_witness :
  exists dW,
    backprop_kernel_conv2d vec_ip_2x3x4 vec_grad_2x3x2
      (Z.of_nat 2, Z.of_nat 2) (Z.of_nat 2) = Ok dW
    /\ shape dW = [1; 2; 2; 2]
    /\ forall c a b' f, c < 1 -> a < 2 -> b' < 2 -> f < 2 ->
         (item dW [c; a; b'; f]
          == grid_sum 2 3
               (fun b w =>
                  item vec_ip_2x3x4 [b; w; ((c * 2 + a) * 2 + b')%nat]
                  * item vec_grad_2x3x2 [b; w; f]))%Q.
Proof.
  apply (@backprop_kernel_conv2d_sums_windows vec_ip_2x3x4 vec_grad_2x3x2
           2 3 1 2 2 2); try reflexivity; lia.
Defined.

(** ** Pooling: what the forward pass returns *)

Lemma nth_last_axis_row {A : Type} (X : ndarray A) (d : nat)
  (idx : list nat) (q : nat) (dflt : A) :
  q < d -> nth q (last_axis_row X d idx) dflt = item X (idx ++ [q]).
Proof.
  intros Hq. unfold last_axis_row.
  rewrite nth_indep with (d' := item X (idx ++ [0]))
    by (now rewrite length_map, length_seq).
  rewrite (map_nth (fun p => item X (idx ++ [p])) (seq 0 d) 0 q).
  now rewrite seq_nth.
Qed.

Lemma max_get_pool_outputs_out (self : pool_layer) (ip : ndarray Q)
  (m nW C p oH oW : nat) :
  shape ip = [m; nW; C; p] -> 0 < p -> 0 < C -> 0 < nW ->
  windows self = C -> out_H self = Z.of_nat oH -> out_W self = Z.of_nat oW ->
  oH * oW = nW ->
  exists out mask,
    max_get_pool_outputs self ip = Ok (out, Mask mask)
    /\ shape out = [C; oH; oW; m]
    /\ forall c i j b, c < C -> i < oH -> j < oW -> b < m ->
         item out [c; i; j; b]
         = item ip [b; i * oW + j; c;
                    argmax (last_axis_row ip p [b; i * oW + j; c])].
Proof.
  intros ip_shape p_pos C_pos nW_pos windows_C out_H_eq out_W_eq out_area.
  unfold max_get_pool_outputs. rewrite ip_shape. cbn [rev app].
  unfold np_argmax_last. rewrite ip_shape. cbn [rev app].
  destruct (Nat.eqb_spec p 0) as [|_]; [lia|]. cbn [bind].
  set (flat := prod [m; nW; C]).
  set (am := NdArray [m; nW; C]
               (fun idx => argmax (last_axis_row ip p idx))).
  pose proof (@np_reshape_infer Q ip flat [] [p]) as E.
  cbn [map app] in E. rewrite E; clear E;
    [ | cbn; lia | unfold size; rewrite ip_shape; unfold flat; cbn; lia ].
  cbn [bind].
  assert (Hchk : forallb
                   (fun k => (item (np_arange flat) [k] <? flat)
                             && (item (np_ravel am) [k] <? p))
                   (seq 0 flat) = true).
  { apply forallb_forall. intros k Hk. apply in_seq in Hk.
    cbn [item np_arange np_ravel hd am]. apply andb_true_intro. split.
    - apply Nat.ltb_lt. lia.
    - apply Nat.ltb_lt. now apply argmax_row_lt. }
  unfold np_take2, np_put2. cbn [shape np_arange np_ravel np_zeros].
  change (size am) with flat. rewrite Nat.eqb_refl. cbn [negb].
  rewrite Hchk. cbn [bind].
  pose proof (@np_reshape_exact Q) as E. rewrite E; clear E;
    [ | unfold size, flat; cbn; lia ].
  cbn [bind].
  pose proof (@np_reshape_exact bool) as E. rewrite E; clear E;
    [ | unfold size, flat; cbn; lia ].
  cbn [bind].
  match goal with
  | |- context [np_swapaxes ?X _ _] => set (mx := X)
  end.
  destruct (@np_swapaxes_ends_3 Q mx m nW C eq_refl) as (Hsw & Hsws & Hswi).
  rewrite Hsw. cbn [bind]. rewrite windows_C, out_H_eq, out_W_eq.
  pose proof (@np_reshape_infer Q (np_transpose mx [2; 1; 0]) m
                [C; oH; oW] []) as E.
  cbn [map app] in E. rewrite E; clear E;
    [ | cbn; nia | unfold size; rewrite Hsws; cbn; nia ].
  cbn [bind]. eexists. eexists. split; [reflexivity|].
  split; [reflexivity|].
  intros c i j b Hc Hi Hj Hb. cbn [item]. rewrite Hsws.
  assert (Hw : i * oW + j < nW) by nia.
  replace (ravel_index [C; oH; oW; m] [c; i; j; b])
    with (ravel_index [C; nW; m] [c; i * oW + j; b])
    by (cbn; nia).
  rewrite unravel_ravel_index by (now apply in_bounds_3).
  rewrite Hswi. unfold mx. cbn [item shape np_arange hd].
  pose proof (@in_bounds_3 m nW C b (i * oW + j) c Hb Hw Hc) as Hin.
  pose proof (ravel_index_lt _ _ Hin) as Hlt. fold flat in Hlt.
  set (n := ravel_index [m; nW; C] [b; i * oW + j; c]) in *.
  cbn [unravel_index prod fold_right hd]. rewrite Nat.div_1_r.
  assert (En : unravel_index [m; nW; C] n = [b; i * oW + j; c])
    by (unfold n; apply unravel_ravel_index; exact Hin).
  cbn [np_ravel item hd shape am]. rewrite En, ip_shape.
  set (q := argmax (last_axis_row ip p [b; i * oW + j; c])).
  assert (Hq : q < p) by (now apply argmax_row_lt).
  replace (ravel_index [flat; p] [n; q])
    with (ravel_index ([m; nW; C] ++ [p]) ([b; i * oW + j; c] ++ [q])).
  - cbn [app]. rewrite unravel_ravel_index; [reflexivity|].
    now apply in_bounds_4.
  - rewrite ravel_index_snoc by reflexivity. fold n. cbn. lia.
Qed.

(** X12.  The forward pass of max pooling on an input cut into windows
    (axes batch, window, channel, position in the window): the output has
    shape (channels, oH, oW, batch), and its entry for channel [c], output
    position ([i], [j]) and batch element [b] is an entry of window
    [i * oW + j] that no entry of that window exceeds. *)
Theorem max_pool_forward_window_maximum (self : pool_layer)
  (ip : ndarray Q) (m nW C p oH oW : nat) :
  shape ip = [m; nW; C; p] -> 0 < p -> 0 < C -> 0 < nW ->
  windows self = C -> out_H self = Z.of_nat oH -> out_W self = Z.of_nat oW ->
  oH * oW = nW ->
  exists out mask,
    max_get_pool_outputs self ip = Ok (out, Mask mask)
    /\ shape out = [C; oH; oW; m]
    /\ forall c i j b, c < C -> i < oH -> j < oW -> b < m ->
         (exists q, q < p
                    /\ item out [c; i; j; b]
                       = item ip [b; (i * oW + j)%nat; c; q])
         /\ forall q, q < p ->
              (item ip [b; (i * oW + j)%nat; c; q]
               <= item out [c; i; j; b])%Q.
Proof.
  intros Hip Hp HC HnW Hwin HoH HoW Harea.
  destruct (@max_get_pool_outputs_out self ip m nW C p oH oW Hip Hp HC HnW
              Hwin HoH HoW Harea) as (out & mask & Hfw & Hsh & Hit).
  exists out, mask. split; [exact Hfw|]. split; [exact Hsh|].
  intros c i j b Hc Hi Hj Hb. rewrite (Hit c i j b Hc Hi Hj Hb).
  set (row := last_axis_row ip p [b; i * oW + j; c]).
  assert (Hrow : row <> []).
  { intros E. apply (f_equal (@length Q)) in E. unfold row in E.
    rewrite last_axis_row_length in E. cbn in E. lia. }
  destruct (argmax_first_max Hrow) as (Hlt & Hmax & _).
  unfold row in Hlt. rewrite last_axis_row_length in Hlt. fold row in Hlt.
  split.
  - exists (argmax row). split; [exact Hlt|reflexivity].
  - intros q Hq. specialize (Hmax q).
    unfold row in Hmax at 1. rewrite last_axis_row_length in Hmax.
    specialize (Hmax Hq). unfold row in Hmax at 1 3.
    rewrite !nth_last_axis_row in Hmax by assumption. exact Hmax.
Qed.

Lemma max_pool_forward_window_maximum_witness :
  exists out mask,
    max_get_pool_outputs max_layer_2x2 windowed_4x4 = Ok (out, Mask mask)
    /\ shape out = [1; 2; 2; 1]
    /\ forall c i j b, c < 1 -> i < 2 -> j < 2 -> b < 1 ->
         (exists q, q < 4
                    /\ item out [c; i; j; b]
                       = item windowed_4x4 [b; (i * 2 + j)%nat; c; q])
         /\ forall q, q < 4 ->
              (item windowed_4x4 [b; (i * 2 + j)%nat; c; q]
               <= item out [c; i; j; b])%Q.
Proof.
  apply (@max_pool_forward_window_maximum max_layer_2x2 windowed_4x4
           1 4 1 4 2 2); try reflexivity; lia.
Defined.

Lemma avg_get_pool_outputs_ok (self : pool_layer) (ip : ndarray Q)
  (m nW C p oH oW : nat) :
  shape ip = [m; nW; C; p] -> 0 < C -> 0 < nW ->
  windows self = C -> out_H self = Z.of_nat oH -> out_W self = Z.of_nat oW ->
  oH * oW = nW ->
  exists out d,
    avg_get_pool_outputs self ip = Ok (out, Distributed d)
    /\ shape out = [C; oH; oW; m]
    /\ shape d = [1; 1; 1; p]
    /\ (forall idx, item d idx = (1 / inject_Z (Z.of_nat p))%Q)
    /\ forall c i j b, c < C -> i < oH -> j < oW -> b < m ->
         item out [c; i; j; b]
         = (fold_left Qplus (last_axis_row ip p [b; (i * oW + j)%nat; c]) 0
            / inject_Z (Z.of_nat p))%Q.
Proof.
  intros Hip HC HnW Hwin HoH HoW Harea.
  unfold avg_get_pool_outputs, np_mean_last. rewrite Hip.
  cbn [rev app bind].
  match goal with
  | |- context [np_swapaxes ?X _ _] => set (av := X)
  end.
  destruct (@np_swapaxes_ends_3 Q av m nW C eq_refl) as (Hsw & Hsws & Hswi).
  rewrite Hsw. cbn [bind]. rewrite Hwin, HoH, HoW.
  pose proof (@np_reshape_infer Q (np_transpose av [2; 1; 0]) m
                [C; oH; oW] []) as E.
  cbn [map app] in E. rewrite E; clear E;
    [ | cbn; nia | unfold size; rewrite Hsws; cbn; nia ].
  cbn [bind]. eexists. eexists. split; [reflexivity|].
  split; [reflexivity|]. split; [reflexivity|]. split; [reflexivity|].
  intros c i j b Hc Hi Hj Hb. cbn [item]. rewrite Hsws.
  assert (Hw : i * oW + j < nW) by nia.
  replace (ravel_index [C; oH; oW; m] [c; i; j; b])
    with (ravel_index [C; nW; m] [c; i * oW + j; b])
    by (cbn; nia).
  rewrite unravel_ravel_index by (now apply in_bounds_3).
  rewrite Hswi. reflexivity.
Qed.

(** X13.  The forward pass of average pooling on an input cut into
    windows: the output has shape (channels, oH, oW, batch), its entry for
    channel [c], output position ([i], [j]) and batch element [b] is the
    sum of the entries of window [i * oW + j] divided by their number, and
    the share kept for the backward pass is [1 / p] at every position. *)
Theorem avg_pool_forward_window_mean (self : pool_layer)
  (ip : ndarray Q) (m nW C p oH oW : nat) :
  shape ip = [m; nW; C; p] -> 0 < p -> 0 < C -> 0 < nW ->
  windows self = C -> out_H self = Z.of_nat oH -> out_W self = Z.of_nat oW ->
  oH * oW = nW ->
  exists out d,
    avg_get_pool_outputs self ip = Ok (out, Distributed d)
    /\ shape out = [C; oH; oW; m]
    /\ shape d = [1; 1; 1; p]
    /\ (forall idx, item d idx = (1 / inject_Z (Z.of_nat p))%Q)
    /\ forall c i j b, c < C -> i < oH -> j < oW -> b < m ->
         item out [c; i; j; b]
         = (fold_left Qplus (last_axis_row ip p [b; (i * oW + j)%nat; c]) 0
            / inject_Z (Z.of_nat p))%Q.
Proof. intros Hip _. now apply avg_get_pool_outputs_ok. Qed.

Lemma avg_pool_forward_window_mean_witness :
  exists out d,
    avg_get_pool_outputs avg_layer_2x2 windowed_4x4
    = Ok (out, Distributed d)
    /\ shape out = [1; 2; 2; 1]
    /\ shape d = [1; 1; 1; 4]
    /\ (forall idx, item d idx = (1 / inject_Z (Z.of_nat 4))%Q)
    /\ forall c i j b, c < 1 -> i < 2 -> j < 2 -> b < 1 ->
         item out [c; i; j; b]
         = (fold_left Qplus
              (last_axis_row windowed_4x4 4 [b; (i * 2 + j)%nat; c]) 0
            / inject_Z (Z.of_nat 4))%Q.
Proof.
  apply (@avg_pool_forward_window_mean avg_layer_2x2 windowed_4x4
           1 4 1 4 2 2); try reflexivity; lia.
Defined.

(** ** Pooling: the backward pass from the stored share to the input
    gradient *)

Lemma pool_dIp_distributed (d dA' : ndarray Q) (m nW C p : nat) :
  shape d = [1; 1; 1; p] -> shape dA' = [m; nW; C] ->
  (forall idx, item d idx = (1 / inject_Z (Z.of_nat p))%Q) ->
  exists dIp,
    pool_dIp (Some (Distributed d)) dA' = Ok dIp
    /\ shape dIp = [m; nW; C; p]
    /\ forall b w c q, b < m -> w < nW -> c < C -> q < p ->
         item dIp [b; w; c; q]
         = (1 / inject_Z (Z.of_nat p) * item dA' [b; w; c])%Q.
Proof.
  intros Hd HdA' Hall. unfold pool_dIp, np_broadcast2, np_expand_last.
  cbn [shape]. rewrite Hd, HdA'. cbn [rev app bcast_rev].
  assert (E1 : forall x, (if 1 =? x then Ok 1
                          else if 1 =? 1 then Ok x
                          else if x =? 1 then Ok 1
                          else Raise (ValueError
                                 "operands could not be broadcast together"))
                         = Ok x).
  { intros x. destruct (Nat.eqb_spec 1 x) as [<-|]; reflexivity. }
  assert (E2 : (if p =? 1 then Ok p
                else if p =? 1 then Ok 1
                else if 1 =? 1 then Ok p
                else Raise (ValueError
                       "operands could not be broadcast together"))
               = Ok p).
  { destruct (p =? 1); reflexivity. }
  rewrite E2, !E1. cbn [bind rev app].
  eexists. split; [reflexivity|]. split; [reflexivity|].
  intros b w c q Hb Hw Hc Hq. cbn [item]. rewrite Hall.
  replace (bcast_index [m; nW; C; 1] [b; w; c; q]) with [b; w; c; 0].
  - reflexivity.
  - unfold bcast_index; cbn;
      destruct (Nat.eqb_spec m 1), (Nat.eqb_spec nW 1), (Nat.eqb_spec C 1);
      repeat f_equal; lia.
Qed.

Lemma window_of_position (oW kh kw r col : nat) :
  0 < oW -> col < oW * kw ->
  (r / kh * oW + col / kw) / oW = r / kh
  /\ (r / kh * oW + col / kw) mod oW = col / kw.
Proof.
  intros HoW Hcol.
  assert (Hj : col / kw < oW) by (apply Nat.Div0.div_lt_upper_bound; nia).
  split.
  - rewrite Nat.div_add_l by lia.
    rewrite (Nat.div_small (col / kw) oW) by lia. lia.
  - rewrite Nat.add_comm, Nat.Div0.mod_add. now apply Nat.mod_small.
Qed.

(** X14.  Max pooling backwards, from the layer as the forward pass left
    it to the gradient it returns, for windows that tile the input (stride
    equal to the pool size, no padding).  The result has the shape
    (channels, H, W, batch) of the input; the gradient of an output
    position goes, whole, to the input position that held the first
    maximum of its window, and every other input position gets zero. *)
Theorem max_pool_backprop_routes_to_argmax (self : pool_layer)
  (ip dA out : ndarray Q) (sh : share) (m C H W oH oW kh kw : nat) :
  shape ip = [m; oH * oW; C; kh * kw] -> shape dA = [C; oH; oW; m] ->
  0 < m -> 0 < C -> 0 < kh -> 0 < kw -> 0 < oH -> 0 < oW ->
  oH * kh <= H -> oW * kw <= W ->
  windows self = C -> out_H self = Z.of_nat oH -> out_W self = Z.of_nat oW ->
  pool_size self = (Z.of_nat kh, Z.of_nat kw) ->
  stride self = (Z.of_nat kh, Z.of_nat kw) ->
  p_H self = 0%Z -> p_W self = 0%Z -> requires_dX self = true ->
  _padded_shape self = Some (H, W) ->
  max_get_pool_outputs self ip = Ok (out, sh) -> _dX_share self = Some sh ->
  exists dX self',
    pool_backprop_step self dA = Ok (Some dX, self')
    /\ shape dX = [C; H; W; m]
    /\ forall c r col b, c < C -> b < m ->
         (item dX [c; r; col; b]
          == if ((r <? oH * kh) && (col <? oW * kw))%nat
             then if (argmax (last_axis_row ip (kh * kw)
                                [b; (r / kh * oW + col / kw)%nat; c])
                      =? r mod kh * kw + col mod kw)%nat
                  then item dA [c; (r / kh)%nat; (col / kw)%nat; b]
                  else 0
             else 0)%Q.
Proof.
  intros Hip HdA Hm HC Hkh Hkw HoH HoW HH HW Hwin HoutH HoutW Hps Hst HpH HpW
    Hreq Hpad Hfw Hshare.
  assert (Hp : 0 < kh * kw) by nia. assert (HnW : 0 < oH * oW) by nia.
  destruct (@max_get_pool_outputs_mask self ip m (oH * oW) C (kh * kw) oH oW
              Hip Hp HC HnW Hwin HoutH HoutW eq_refl)
    as (out' & mask & Hfw' & _ & Hmsh & Hmask).
  rewrite Hfw in Hfw'. injection Hfw' as _ ->.
  destruct (@reshape_dA_ok self m (oH * oW) C (kh * kw) oH oW Hp HC HnW Hwin
              eq_refl dA HdA Hm) as (dA' & Hre & HdA' & HdAi).
  destruct (@pool_dIp_mask self m (oH * oW) C (kh * kw) oH oW Hp HC HnW Hwin
              eq_refl Hm mask dA' Hmsh HdA') as (dIp & HdIp & Hdsh & Hdi).
  rewrite <- Hshare in HdIp.
  rewrite (@pool_backprop_step_scatters self dA dA' dIp H W Hreq Hre HdIp
             Hpad).
  rewrite HdA', Hwin, HoutH, HoutW, Hst, Hps, HpH, HpW. cbn [hd fst snd].
  destruct (@accumulate_disjoint_ok dIp m C H W oH oW kh kw Hdsh HC Hkh Hkw
              HoH HoW HH HW) as (dX & HdX & HdXs & HdXi).
  rewrite HdX. cbn [bind]. exists dX. eexists. split; [reflexivity|].
  split; [exact HdXs|].
  intros c r col b Hc Hb. rewrite (HdXi c r col b Hc Hb).
  destruct (Nat.ltb_spec r (oH * kh)) as [Hr|Hr];
    destruct (Nat.ltb_spec col (oW * kw)) as [Hcl|Hcl]; cbn [andb];
    try reflexivity.
  assert (Hi : r / kh < oH) by (apply Nat.Div0.div_lt_upper_bound; nia).
  assert (Hj : col / kw < oW) by (apply Nat.Div0.div_lt_upper_bound; nia).
  assert (Hw : r / kh * oW + col / kw < oH * oW) by nia.
  assert (Hq : r mod kh * kw + col mod kw < kh * kw).
  { pose proof (Nat.mod_upper_bound r kh ltac:(lia)).
    pose proof (Nat.mod_upper_bound col kw ltac:(lia)). nia. }
  rewrite (Hdi b _ c _ Hb Hw Hc Hq), (Hmask b _ c _ Hb Hw Hc Hq).
  rewrite (HdAi b _ c Hb Hw Hc).
  destruct (@window_of_position oW kh kw r col HoW Hcl) as [-> ->].
  destruct (argmax _ =? _); cbn [bool_to_float]; ring.
Qed.

Lemma max_pool_backprop_routes_to_argmax_witness :
  exists dX self',
    pool_backprop_step max_layer_2x2_pooled dA_2x2 = Ok (Some dX, self')
    /\ shape dX = [1; 4; 4; 1]
    /\ forall c r col b, c < 1 -> b < 1 ->
         (item dX [c; r; col; b]
          == if ((r <? 2 * 2) && (col <? 2 * 2))%nat
             then if (argmax (last_axis_row windowed_4x4 (2 * 2)
                                [b; (r / 2 * 2 + col / 2)%nat; c])
                      =? r mod 2 * 2 + col mod 2)%nat
                  then item dA_2x2 [c; (r / 2)%nat; (col / 2)%nat; b]
                  else 0
             else 0)%Q.
Proof.
  eapply (@max_pool_backprop_routes_to_argmax max_layer_2x2_pooled
            windowed_4x4 dA_2x2 _ _ 1 1 4 4 2 2 2 2);
    try reflexivity; lia.
Defined.

(** X15.  Average pooling backwards, under the same conditions: every
    input position inside the tiled area receives the gradient of the
    output position of its window divided by the number of entries of the
    window, and the positions outside receive zero. *)
Theorem avg_pool_backprop_spreads_evenly (self : pool_layer)
  (ip dA out : ndarray Q) (sh : share) (m C H W oH oW kh kw : nat) :
  shape ip = [m; oH * oW; C; kh * kw] -> shape dA = [C; oH; oW; m] ->
  0 < m -> 0 < C -> 0 < kh -> 0 < kw -> 0 < oH -> 0 < oW ->
  oH * kh <= H -> oW * kw <= W ->
  windows self = C -> out_H self = Z.of_nat oH -> out_W self = Z.of_nat oW ->
  pool_size self = (Z.of_nat kh, Z.of_nat kw) ->
  stride self = (Z.of_nat kh, Z.of_nat kw) ->
  p_H self = 0%Z -> p_W self = 0%Z -> requires_dX self = true ->
  _padded_shape self = Some (H, W) ->
  avg_get_pool_outputs self ip = Ok (out, sh) -> _dX_share self = Some sh ->
  exists dX self',
    pool_backprop_step self dA = Ok (Some dX, self')
    /\ shape dX = [C; H; W; m]
    /\ forall c r col b, c < C -> b < m ->
         (item dX [c; r; col; b]
          == if ((r <? oH * kh) && (col <? oW * kw))%nat
             then item dA [c; (r / kh)%nat; (col / kw)%nat; b]
                  / inject_Z (Z.of_nat (kh * kw))
             else 0)%Q.
Proof.
  intros Hip HdA Hm HC Hkh Hkw HoH HoW HH HW Hwin HoutH HoutW Hps Hst HpH HpW
    Hreq Hpad Hfw Hshare.
  assert (Hp : 0 < kh * kw) by nia. assert (HnW : 0 < oH * oW) by nia.
  destruct (@avg_get_pool_outputs_ok self ip m (oH * oW) C (kh * kw) oH oW
              Hip HC HnW Hwin HoutH HoutW eq_refl)
    as (out' & d & Hfw' & _ & Hdsh' & Hdall & _).
  rewrite Hfw in Hfw'. injection Hfw' as _ ->.
  destruct (@reshape_dA_ok self m (oH * oW) C (kh * kw) oH oW Hp HC HnW Hwin
              eq_refl dA HdA Hm) as (dA' & Hre & HdA' & HdAi).
  destruct (@pool_dIp_distributed d dA' m (oH * oW) C (kh * kw) Hdsh' HdA'
              Hdall) as (dIp & HdIp & Hdsh & Hdi).
  rewrite <- Hshare in HdIp.
  rewrite (@pool_backprop_step_scatters self dA dA' dIp H W Hreq Hre HdIp
             Hpad).
  rewrite HdA', Hwin, HoutH, HoutW, Hst, Hps, HpH, HpW. cbn [hd fst snd].
  destruct (@accumulate_disjoint_ok dIp m C H W oH oW kh kw Hdsh HC Hkh Hkw
              HoH HoW HH HW) as (dX & HdX & HdXs & HdXi).
  rewrite HdX. cbn [bind]. exists dX. eexists. split; [reflexivity|].
  split; [exact HdXs|].
  intros c r col b Hc Hb. rewrite (HdXi c r col b Hc Hb).
  destruct (Nat.ltb_spec r (oH * kh)) as [Hr|Hr];
    destruct (Nat.ltb_spec col (oW * kw)) as [Hcl|Hcl]; cbn [andb];
    try reflexivity.
  assert (Hi : r / kh < oH) by (apply Nat.Div0.div_lt_upper_bound; nia).
  assert (Hj : col / kw < oW) by (apply Nat.Div0.div_lt_upper_bound; nia).
  assert (Hw : r / kh * oW + col / kw < oH * oW) by nia.
  assert (Hq : r mod kh * kw + col mod kw < kh * kw).
  { pose proof (Nat.mod_upper_bound r kh ltac:(lia)).
    pose proof (Nat.mod_upper_bound col kw ltac:(lia)). nia. }
  rewrite (Hdi b _ c _ Hb Hw Hc Hq).
  rewrite (HdAi b _ c Hb Hw Hc).
  destruct (@window_of_position oW kh kw r col HoW Hcl) as [-> ->].
  unfold Qdiv. ring.
Qed.

Lemma avg_pool_backprop_spreads_evenly_witness :
  exists dX self',
    pool_backprop_step avg_layer_2x2_pooled dA_2x2 = Ok (Some dX, self')
    /\ shape dX = [1; 4; 4; 1]
    /\ forall c r col b, c < 1 -> b < 1 ->
         (item dX [c; r; col; b]
          == if ((r <? 2 * 2) && (col <? 2 * 2))%nat
             then item dA_2x2 [c; (r / 2)%nat; (col / 2)%nat; b]
                  / inject_Z (Z.of_nat (2 * 2))
             else 0)%Q.
Proof.
  eapply (@avg_pool_backprop_spreads_evenly avg_layer_2x2_pooled
            windowed_4x4 dA_2x2 _ _ 1 1 4 4 2 2 2 2);
    try reflexivity; lia.
Defined.

(** ** The input gradient of a convolution layer *)



(** ** Concatenation of any number of inputs *)

Lemma axis_offset_S {A : Type} (ax : nat) (Xs : list (ndarray A)) :
  forall k Xk, nth_error Xs k = Some Xk ->
    axis_offset ax Xs (S k) = axis_offset ax Xs k + nth ax (shape Xk) 0.
Proof.
  unfold axis_offset. induction Xs as [|X Xs IH]; intros [|k] Xk Hk;
    try discriminate.
  - cbn in Hk. injection Hk as <-. cbn. lia.
  - cbn [nth_error] in Hk. specialize (IH k Xk Hk).
    cbn [firstn map fold_right] in *. lia.
Qed.

Lemma axis_offset_le {A : Type} (ax : nat) (Xs : list (ndarray A)) :
  forall k, axis_offset ax Xs k <= axis_offset ax Xs (length Xs).
Proof.
  unfold axis_offset. induction Xs as [|X Xs IH]; intros [|k];
    cbn [firstn map fold_right length]; try lia.
  specialize (IH k). lia.
Qed.

Lemma fold_left_dims {A : Type} (ax : nat) (rest : list (ndarray A))
  (a : nat) :
  fold_left (fun n Y => n + nth ax (shape Y) 0) rest a
  = a + axis_offset ax rest (length rest).
Proof.
  unfold axis_offset. rewrite firstn_all. revert a.
  induction rest as [|Y rest IH]; intros a; cbn [fold_left map fold_right];
    [lia|].
  rewrite IH. lia.
Qed.

Lemma concat_item_block {A : Type} (ax : nat) (rest : list (ndarray A)) :
  forall (X0 : ndarray A) (k : nat) (Xk : ndarray A)
         (ipre ipost : list nat) (j : nat),
    nth_error (X0 :: rest) k = Some Xk ->
    length ipre = ax -> j < nth ax (shape Xk) 0 ->
    concat_item ax X0 rest
      (ipre ++ (axis_offset ax (X0 :: rest) k + j) :: ipost)
    = item Xk (ipre ++ j :: ipost).
Proof.
  induction rest as [|Y Ys IH]; intros X0 k Xk ipre ipost j Hk Hl Hj.
  - destruct k as [|k]; [|destruct k; discriminate].
    cbn in Hk. injection Hk as <-. reflexivity.
  - cbn [concat_item]. rewrite nth_middle_len by exact Hl.
    destruct k as [|k].
    + cbn in Hk. injection Hk as <-. unfold axis_offset.
      cbn [firstn map fold_right Nat.add].
      destruct (Nat.ltb_spec j (nth ax (shape X0) 0)); [reflexivity|lia].
    + cbn [nth_error] in Hk.
      assert (E : axis_offset ax (X0 :: Y :: Ys) (S k)
                  = nth ax (shape X0) 0 + axis_offset ax (Y :: Ys) k)
        by reflexivity.
      rewrite E.
      destruct (Nat.ltb_spec (nth ax (shape X0) 0
                              + axis_offset ax (Y :: Ys) k + j)
                  (nth ax (shape X0) 0)); [lia|].
      rewrite set_nth_middle_len by exact Hl.
      replace (nth ax (shape X0) 0 + axis_offset ax (Y :: Ys) k + j
               - nth ax (shape X0) 0)
        with (axis_offset ax (Y :: Ys) k + j) by lia.
      now apply IH.
Qed.

Lemma forward_step_nary {A : Type} (X0 : ndarray A)
  (rest : list (ndarray A)) (pre post : list nat) :
  (forall Y, In Y (X0 :: rest) -> exists d, shape Y = pre ++ d :: post) ->
  forward_step (ConcatLayer (X0 :: rest) (Z.of_nat (length pre)) None)
  = (Ok (NdArray
           (pre ++ axis_offset (length pre) (X0 :: rest)
                     (length (X0 :: rest)) :: post)
           (concat_item (length pre) X0 rest)),
     ConcatLayer (X0 :: rest) (Z.of_nat (length pre))
       (Some (NdArray
                (pre ++ axis_offset (length pre) (X0 :: rest)
                          (length (X0 :: rest)) :: post)
                (concat_item (length pre) X0 rest)))).
Proof.
  intros Hall.
  destruct (Hall X0 (or_introl eq_refl)) as [d0 H0].
  assert (Hrest : forall Y, In Y rest ->
            remove_axis (length pre) (shape Y) = pre ++ post
            /\ set_nth (length pre) 0 (shape Y) = pre ++ 0 :: post).
  { intros Y HY. destruct (Hall Y (or_intror HY)) as [d ->].
    now rewrite remove_axis_middle, set_nth_middle. }
  unfold forward_step.
  rewrite (@validate_nonneg A
             (ConcatLayer (X0 :: rest) (Z.of_nat (length pre)) None)
             (length pre) X0 rest eq_refl eq_refl).
  rewrite H0, remove_axis_middle.
  assert (E : existsb (fun Y => negb (list_eqb
                                       (remove_axis (length pre) (shape Y))
                                       (pre ++ post))) rest = false).
  { destruct (existsb _ rest) eqn:E; [|reflexivity].
    apply existsb_exists in E. destruct E as (Y & HY & HYne).
    destruct (Hrest _ HY) as [Heq _]. rewrite Heq, list_eqb_refl in HYne.
    discriminate. }
  rewrite E. cbn [inputs axis]. unfold np_concatenate, ndim. rewrite H0.
  destruct (Nat.eqb_spec (length (pre ++ d0 :: post)) 0) as [E0|_].
  { rewrite length_app in E0. cbn in E0. lia. }
  rewrite normalize_axis_nonneg by (rewrite length_app; cbn; lia).
  cbn [bind]. rewrite set_nth_middle.
  assert (F : forallb (fun Y => list_eqb (set_nth (length pre) 0 (shape Y))
                                  (pre ++ 0 :: post)) rest = true).
  { apply forallb_forall. intros Y HY. destruct (Hrest _ HY) as [_ Hr].
    rewrite Hr. apply list_eqb_refl. }
  rewrite F. rewrite nth_middle, set_nth_middle, fold_left_dims.
  replace (d0 + axis_offset (length pre) rest (length rest))
    with (axis_offset (length pre) (X0 :: rest) (length (X0 :: rest))).
  - reflexivity.
  - unfold axis_offset. cbn [length firstn map fold_right].
    now rewrite H0, nth_middle.
Qed.

(** X17.  [forward_step] of the concatenation layer on any number of
    inputs that agree off a non-negative axis: the call succeeds and
    stores its result, the result has the common shape with the lengths
    along the axis added up, and it holds the inputs one after the other
    along the axis, the [k]-th starting where the ones before it end. *)
Theorem concat_forward_lays_inputs_in_order {A : Type}
  (Xs : list (ndarray A)) (pre post : list nat) :
  Xs <> [] ->
  (forall Y, In Y Xs -> exists d, shape Y = pre ++ d :: post) ->
  exists c,
    forward_step (ConcatLayer Xs (Z.of_nat (length pre)) None)
    = (Ok c, ConcatLayer Xs (Z.of_nat (length pre)) (Some c))
    /\ shape c = pre ++ axis_offset (length pre) Xs (length Xs) :: post
    /\ forall k Xk ipre j ipost,
         nth_error Xs k = Some Xk -> length ipre = length pre ->
         j < nth (length pre) (shape Xk) 0 ->
         item c (ipre ++ (axis_offset (length pre) Xs k + j) :: ipost)
         = item Xk (ipre ++ j :: ipost).
Proof.
  intros Hne Hall. destruct Xs as [|X0 rest]; [contradiction|].
  eexists. split; [exact (@forward_step_nary A X0 rest pre post Hall)|].
  split; [reflexivity|].
  intros k Xk ipre j ipost Hk Hl Hj. cbn [item].
  now apply concat_item_block.
Qed.

Lemma concat_forward_lays_inputs_in_order_witness :
  exists c,
    forward_step (ConcatLayer [feat_3x2; feat_4x2; feat_3x2]
                    (Z.of_nat (length (@nil nat))) None)
    = (Ok c, ConcatLayer [feat_3x2; feat_4x2; feat_3x2]
               (Z.of_nat (length (@nil nat))) (Some c))
    /\ shape c = [] ++ axis_offset (length (@nil nat))
                         [feat_3x2; feat_4x2; feat_3x2] 3 :: [2]
    /\ forall k Xk ipre j ipost,
         nth_error [feat_3x2; feat_4x2; feat_3x2] k = Some Xk ->
         length ipre = length (@nil nat) ->
         j < nth (length (@nil nat)) (shape Xk) 0 ->
         item c (ipre ++ (axis_offset (length (@nil nat))
                            [feat_3x2; feat_4x2; feat_3x2] k + j) :: ipost)
         = item Xk (ipre ++ j :: ipost).
Proof.
  apply (@concat_forward_lays_inputs_in_order nat
           [feat_3x2; feat_4x2; feat_3x2] [] [2]).
  - discriminate.
  - intros Y [<-|[<-|[<-|[]]]]; eexists; reflexivity.
Defined.

Lemma removelast_map {B D : Type} (f : B -> D) (l : list B) :
  removelast (map f l) = map f (removelast l).
Proof.
  induction l as [|x [|y l] IH]; try reflexivity.
  cbn [map removelast] in *. now rewrite IH.
Qed.

Lemma running_sums_snoc (l : list nat) :
  l <> [] ->
  forall s : Z,
    running_sums s (removelast l)
    ++ [(s + Z.of_nat (fold_right Nat.add 0%nat l))%Z]
    = running_sums s l.
Proof.
  induction l as [|d [|d' l] IH]; intros Hne s; [contradiction| |].
  - cbn. now rewrite Nat.add_0_r.
  - change (removelast (d :: d' :: l)) with (d :: removelast (d' :: l)).
    change (running_sums s (d :: removelast (d' :: l)))
      with ((s + Z.of_nat d)%Z
              :: running_sums (s + Z.of_nat d)%Z (removelast (d' :: l))).
    change (running_sums s (d :: d' :: l))
      with ((s + Z.of_nat d)%Z
              :: running_sums (s + Z.of_nat d)%Z (d' :: l)).
    rewrite <- (IH ltac:(discriminate) (s + Z.of_nat d)%Z).
    change (fold_right Nat.add 0%nat (d :: d' :: l))
      with (d + fold_right Nat.add 0%nat (d' :: l)).
    rewrite Nat2Z.inj_add, Z.add_assoc. reflexivity.
Qed.

Lemma skipn_cons_nth {B : Type} (l : list B) :
  forall k y ys, skipn k l = y :: ys ->
    nth_error l k = Some y /\ skipn (S k) l = ys.
Proof.
  induction l as [|x l IH]; intros [|k] y ys E; try discriminate.
  - cbn in E. injection E as -> ->. split; reflexivity.
  - cbn [skipn] in E. destruct (IH k y ys E) as [H1 H2]. split; assumption.
Qed.

Section ConcatSplit.
Context {A : Type}.
Variables (Xs : list (ndarray A)) (pre post : list nat) (c : ndarray A).
Hypothesis shapes :
  forall Y, In Y Xs -> exists d, shape Y = pre ++ d :: post.
Hypothesis c_shape :
  shape c = pre ++ axis_offset (length pre) Xs (length Xs) :: post.
Hypothesis c_item :
  forall k Xk ipre j ipost,
    nth_error Xs k = Some Xk -> length ipre = length pre ->
    j < nth (length pre) (shape Xk) 0 ->
    item c (ipre ++ (axis_offset (length pre) Xs k + j) :: ipost)
    = item Xk (ipre ++ j :: ipost).

Let piece (se : Z * Z) : ndarray A :=
  np_getslice c
    (repeat Full (length pre) ++ Range (fst se) (snd se)
       :: repeat Full (length post)).

Lemma piece_nd_eq (k : nat) (Y : ndarray A) :
  nth_error Xs k = Some Y ->
  nd_eq (piece (Z.of_nat (axis_offset (length pre) Xs k),
                Z.of_nat (axis_offset (length pre) Xs (S k)))) Y.
Proof.
  intros Hk.
  assert (HY : In Y Xs) by (eapply nth_error_In; exact Hk).
  destruct (shapes Y HY) as [d HYs].
  pose proof (@axis_offset_S A (length pre) Xs k Y Hk) as HS.
  rewrite HYs, nth_middle in HS.
  pose proof (@axis_offset_le A (length pre) Xs (S k)) as Hle.
  set (a := axis_offset (length pre) Xs k) in *.
  assert (B : bounds (shape c)
                (repeat Full (length pre)
                   ++ Range (Z.of_nat a)
                        (Z.of_nat (axis_offset (length pre) Xs (S k)))
                   :: repeat Full (length post))
              = map (fun d => (0, d)) pre ++ (a, d)
                  :: map (fun d => (0, d)) post).
  { rewrite c_shape, bounds_middle. do 2 f_equal. rewrite HS.
    replace (axis_offset (length pre) Xs (length Xs))
      with (a + d + (axis_offset (length pre) Xs (length Xs) - (a + d)))
      by lia.
    apply slice_bounds_piece. }
  unfold nd_eq, piece, np_getslice. cbn [fst snd shape item]. rewrite B.
  assert (Hsnd : forall l : list nat,
             map snd (map (fun d => (0, d)) l) = l).
  { intros l. rewrite map_map. cbn [snd]. apply map_id. }
  rewrite !map_app. cbn [map snd]. rewrite !Hsnd, HYs.
  split; [reflexivity|]. intros idx Hidx.
  apply in_bounds_middle in Hidx.
  destruct Hidx as (ipre & j & ipost & -> & Hl & Hj & Hp).
  rewrite shift_middle by assumption.
  apply c_item; try assumption. now rewrite HYs, nth_middle.
Qed.

Lemma pieces_nd_eq (Ys : list (ndarray A)) :
  forall k, skipn k Xs = Ys ->
    Forall2 nd_eq
      (map piece
         (combine
            (Z.of_nat (axis_offset (length pre) Xs k)
               :: running_sums (Z.of_nat (axis_offset (length pre) Xs k))
                    (map (fun Y => nth (length pre) (shape Y) 0) Ys))
            (running_sums (Z.of_nat (axis_offset (length pre) Xs k))
               (map (fun Y => nth (length pre) (shape Y) 0) Ys))))
      Ys.
Proof.
  induction Ys as [|Y Ys IH]; intros k Hk; [constructor|].
  destruct (@skipn_cons_nth _ Xs k Y Ys Hk) as [Hnth Hrest].
  pose proof (@axis_offset_S A (length pre) Xs k Y Hnth) as HS.
  cbn [map running_sums combine].
  rewrite <- Nat2Z.inj_add, <- HS. constructor.
  - now apply piece_nd_eq.
  - now apply IH.
Qed.
End ConcatSplit.

Lemma backprop_inputs_nary {A : Type} (X0 X1 : ndarray A)
  (rest : list (ndarray A)) (pre post : list nat) (c : ndarray A)
  (stored : option (ndarray A)) :
  (forall Y, In Y (X0 :: X1 :: rest) ->
     exists d, shape Y = pre ++ d :: post) ->
  shape c = pre ++ axis_offset (length pre) (X0 :: X1 :: rest)
                    (length (X0 :: X1 :: rest)) :: post ->
  (forall k Xk ipre j ipost,
     nth_error (X0 :: X1 :: rest) k = Some Xk ->
     length ipre = length pre ->
     j < nth (length pre) (shape Xk) 0 ->
     item c (ipre ++ (axis_offset (length pre) (X0 :: X1 :: rest) k + j)
               :: ipost)
     = item Xk (ipre ++ j :: ipost)) ->
  exists pieces,
    backprop_inputs
      (ConcatLayer (X0 :: X1 :: rest) (Z.of_nat (length pre)) stored) c
    = Ok pieces
    /\ Forall2 nd_eq pieces (X0 :: X1 :: rest).
Proof.
  intros Hall Hc Hitem.
  set (Xs := X0 :: X1 :: rest) in *.
  set (dim := fun Y : ndarray A => nth (length pre) (shape Y) 0).
  assert (Hax : forall Y, In Y Xs -> length pre < length (shape Y)).
  { intros Y HY. destruct (Hall Y HY) as [d ->]. rewrite length_app.
    cbn. lia. }
  unfold backprop_inputs, _split_indices, input_shape.
  cbn [inputs axis]. unfold Xs at 1. cbn [map].
  rewrite py_getitem_nonneg by (apply Hax; left; reflexivity).
  cbn [bind].
  rewrite (@mapM_ok _ _ _ (fun sh => nth (length pre) sh 0)).
  2:{ intros sh Hsh. apply py_getitem_nonneg.
      change (shape X1 :: map (@shape A) rest)
        with (map (@shape A) (X1 :: rest)) in Hsh.
      rewrite removelast_map in Hsh. apply in_map_iff in Hsh.
      destruct Hsh as (Y & <- & HY). apply Hax. right.
      clear - HY. revert HY. generalize (X1 :: rest) as l.
      induction l as [|x [|y l] IH]; cbn [removelast]; intros HY;
        [contradiction|contradiction|].
      destruct HY as [<-|HY]; [now left|right; now apply IH]. }
  cbn [bind]. unfold np_split, ndim. rewrite Hc.
  rewrite py_getitem_nonneg by (rewrite length_app; cbn; lia).
  rewrite normalize_axis_nonneg by (rewrite length_app; cbn; lia).
  cbn [bind]. rewrite nth_middle.
  replace (length (pre ++ axis_offset (length pre) Xs (length Xs) :: post)
           - length pre - 1) with (length post)
    by (rewrite length_app; cbn; lia).
  eexists. split; [reflexivity|].
  change (shape X1 :: map (@shape A) rest)
    with (map (@shape A) (X1 :: rest)).
  rewrite removelast_map, map_map. fold dim.
  rewrite <- removelast_map.
  change (nth (length pre) (shape X0) 0) with (dim X0).
  assert (Htot : Z.of_nat (axis_offset (length pre) Xs (length Xs))
                 = (Z.of_nat (dim X0)
                    + Z.of_nat (fold_right Nat.add 0%nat
                                  (map dim (X1 :: rest))))%Z).
  { unfold axis_offset, Xs. rewrite firstn_all. cbn [map fold_right].
    unfold dim. lia. }
  cbn [app tl]. rewrite Htot.
  rewrite (@running_sums_snoc (map dim (X1 :: rest)) ltac:(discriminate)).
  pose proof (@pieces_nd_eq A Xs pre post c Hall Hc Hitem Xs 0 eq_refl)
    as HF.
  unfold axis_offset at 1 2 in HF. cbn [firstn map fold_right] in HF.
  unfold Xs at 3 4 in HF. cbn [map running_sums] in HF. fold dim in HF.
  cbn [Z.of_nat Z.add] in HF. fold Xs in HF. exact HF.
Qed.

(** X18.  The concatenation layer with two or more inputs that agree off
    a non-negative axis: splitting the result of the forward pass at the
    indices the layer computes gives back as many pieces as there are
    inputs, and the pieces are the inputs, in order. *)
Theorem concat_split_round_trip {A : Type} (Xs : list (ndarray A))
  (pre post : list nat) :
  2 <= length Xs ->
  (forall Y, In Y Xs -> exists d, shape Y = pre ++ d :: post) ->
  exists c pieces,
    forward_step (ConcatLayer Xs (Z.of_nat (length pre)) None)
    = (Ok c, ConcatLayer Xs (Z.of_nat (length pre)) (Some c))
    /\ backprop_inputs
         (ConcatLayer Xs (Z.of_nat (length pre)) (Some c)) c
       = Ok pieces
    /\ Forall2 nd_eq pieces Xs.
Proof.
  intros Hlen Hall.
  destruct Xs as [|X0 [|X1 rest]]; cbn in Hlen; try lia.
  pose proof (@forward_step_nary A X0 (X1 :: rest) pre post Hall) as Hfw.
  set (c := NdArray _ _) in Hfw.
  destruct (@backprop_inputs_nary A X0 X1 rest pre post c (Some c) Hall
              eq_refl) as (pieces & Hb & HF).
  - intros k Xk ipre j ipost Hk Hl Hj. unfold c. cbn [item].
    now apply concat_item_block.
  - exists c, pieces. repeat split; assumption.
Qed.

Lemma concat_split_round_trip_witness :
  exists c pieces,
    forward_step (ConcatLayer [feat_3x2; feat_4x2; feat_3x2]
                    (Z.of_nat (length (@nil nat))) None)
    = (Ok c, ConcatLayer [feat_3x2; feat_4x2; feat_3x2]
               (Z.of_nat (length (@nil nat))) (Some c))
    /\ backprop_inputs
         (ConcatLayer [feat_3x2; feat_4x2; feat_3x2]
            (Z.of_nat (length (@nil nat))) (Some c)) c
       = Ok pieces
    /\ Forall2 nd_eq pieces [feat_3x2; feat_4x2; feat_3x2].
Proof.
  apply (@concat_split_round_trip nat [feat_3x2; feat_4x2; feat_3x2]
           [] [2]).
  - simpl. lia.
  - intros Y [<-|[<-|[<-|[]]]]; eexists; reflexivity.
Defined.

(** X19.  With a single input the list of split indices still holds one
    index, the length of that input along the axis: the backward pass
    returns two pieces, the input itself and a second piece of length 0
    along the axis. *)
Theorem concat_single_input_splits_in_two {A : Type} (X : ndarray A)
  (pre post : list nat) (d : nat) :
  shape X = pre ++ d :: post ->
  exists c P1 P2,
    forward_step (ConcatLayer [X] (Z.of_nat (length pre)) None)
    = (Ok c, ConcatLayer [X] (Z.of_nat (length pre)) (Some c))
    /\ backprop_inputs (ConcatLayer [X] (Z.of_nat (length pre)) (Some c)) c
       = Ok [P1; P2]
    /\ nd_eq P1 X
    /\ shape P2 = pre ++ 0 :: post.
Proof.
  intros HX.
  assert (Hall : forall Y, In Y [X] -> exists d, shape Y = pre ++ d :: post).
  { intros Y [<-|[]]. now exists d. }
  pose proof (@forward_step_nary A X [] pre post Hall) as Hfw.
  assert (Hoff : axis_offset (length pre) [X] (length [X]) = d).
  { unfold axis_offset. cbn. rewrite HX, nth_middle. lia. }
  rewrite Hoff in Hfw. set (c := NdArray _ _) in Hfw.
  exists c. do 2 eexists. split; [exact Hfw|].
  unfold backprop_inputs, _split_indices, input_shape.
  cbn [inputs axis map removelast mapM bind].
  rewrite py_getitem_nonneg by (rewrite HX, length_app; cbn; lia).
  cbn [bind running_sums]. unfold np_split, ndim. cbn [shape c].
  rewrite py_getitem_nonneg by (rewrite length_app; cbn; lia).
  rewrite normalize_axis_nonneg by (rewrite length_app; cbn; lia).
  cbn [bind app tl combine map fst snd]. rewrite HX, !nth_middle.
  replace (length (pre ++ d :: post) - length pre - 1) with (length post)
    by (rewrite length_app; cbn; lia).
  split; [reflexivity|].
  assert (Hsnd : forall l : list nat,
             map snd (map (fun d => (0, d)) l) = l).
  { intros l. rewrite map_map. cbn [snd]. apply map_id. }
  split.
  - pose proof (@piece_nd_eq A [X] pre post c Hall) as HP.
    rewrite Hoff in HP. specialize (HP eq_refl).
    assert (Hc : forall k Xk ipre j ipost,
               nth_error [X] k = Some Xk -> length ipre = length pre ->
               j < nth (length pre) (shape Xk) 0 ->
               item c (ipre ++ (axis_offset (length pre) [X] k + j) :: ipost)
               = item Xk (ipre ++ j :: ipost)).
    { intros k Xk ipre j ipost Hk Hl Hj. unfold c. cbn [item].
      now apply concat_item_block. }
    specialize (HP Hc 0 X eq_refl).
    change (axis_offset (length pre) [X] 1)
      with (axis_offset (length pre) [X] (length [X])) in HP.
    rewrite Hoff in HP. exact HP.
  - unfold np_getslice. cbn [shape c]. rewrite bounds_middle.
    rewrite !map_app. cbn [map snd]. rewrite !Hsnd. do 2 f_equal.
    unfold slice_bounds. rewrite !clamp_inside by lia. cbn [snd]. lia.
Qed.

Lemma concat_single_input_splits_in_two_witness :
  exists c P1 P2,
    forward_step (ConcatLayer [feat_3x2] (Z.of_nat (length (@nil nat))) None)
    = (Ok c, ConcatLayer [feat_3x2] (Z.of_nat (length (@nil nat))) (Some c))
    /\ backprop_inputs
         (ConcatLayer [feat_3x2] (Z.of_nat (length (@nil nat))) (Some c)) c
       = Ok [P1; P2]
    /\ nd_eq P1 feat_3x2
    /\ shape P2 = [] ++ 0 :: [2].
Proof.
  apply (@concat_single_input_splits_in_two nat feat_3x2 [] [2] 3).
  reflexivity.
Defined.

Lemma validate_rejects_disagreement {A : Type} (self : concat_layer A)
  (ax : nat) (X0 : ndarray A) (rest : list (ndarray A))
  (Y1 Y2 : ndarray A) :
  axis self = Z.of_nat ax -> inputs self = X0 :: rest ->
  In Y1 (inputs self) -> In Y2 (inputs self) ->
  remove_axis ax (shape Y1) <> remove_axis ax (shape Y2) ->
  _validate_same_shape self (axis self)
  = Raise (ValueError (shape_mismatch_msg (remove_axis ax (shape X0)))).
Proof.
  intros Hax Hin H1 H2 Hne.
  rewrite (@validate_nonneg A self ax X0 rest Hax Hin).
  destruct (existsb _ rest) eqn:E; [reflexivity|]. exfalso. apply Hne.
  assert (Hall : forall Y, In Y (inputs self) ->
                   remove_axis ax (shape Y) = remove_axis ax (shape X0)).
  { intros Y HY. rewrite Hin in HY. destruct HY as [<-|HY]; [reflexivity|].
    destruct (list_eqb (remove_axis ax (shape Y))
                (remove_axis ax (shape X0))) eqn:EY.
    - now apply list_eqb_eq.
    - assert (existsb (fun Y => negb (list_eqb (remove_axis ax (shape Y))
                                        (remove_axis ax (shape X0)))) rest
              = true) as Hex.
      { apply existsb_exists. exists Y. split; [exact HY|].
        now rewrite EY. }
      congruence. }
  now rewrite (Hall _ H1), (Hall _ H2).
Qed.

(** X20.  Inputs two of which differ off the (non-negative) concatenation
    axis are refused both when the layer is built and at a forward step:
    each raises the [ValueError] that names the first input's shape
    without the axis, and the forward step leaves the layer as it was. *)
Theorem concat_rejects_disagreement {A : Type} (X0 : ndarray A)
  (rest : list (ndarray A)) (ax : nat) (stored : option (ndarray A))
  (Y1 Y2 : ndarray A) :
  In Y1 (X0 :: rest) -> In Y2 (X0 :: rest) ->
  remove_axis ax (shape Y1) <> remove_axis ax (shape Y2) ->
  concat_init (X0 :: rest) (Z.of_nat ax)
  = Raise (ValueError (shape_mismatch_msg (remove_axis ax (shape X0))))
  /\ forward_step (ConcatLayer (X0 :: rest) (Z.of_nat ax) stored)
     = (Raise (ValueError (shape_mismatch_msg (remove_axis ax (shape X0)))),
        ConcatLayer (X0 :: rest) (Z.of_nat ax) stored).
Proof.
  intros H1 H2 Hne. split.
  - unfold concat_init.
    pose proof (@validate_rejects_disagreement A
                  (ConcatLayer (X0 :: rest) (Z.of_nat ax) None) ax X0 rest
                  Y1 Y2 eq_refl eq_refl H1 H2 Hne) as E.
    cbn [axis] in E. rewrite E. reflexivity.
  - apply forward_step_validation_error.
    apply (@validate_rejects_disagreement A
             (ConcatLayer (X0 :: rest) (Z.of_nat ax) stored) ax X0 rest
             Y1 Y2 eq_refl eq_refl H1 H2 Hne).
Qed.

Lemma concat_rejects_disagreement_witness :
  concat_init [feat_3x2; feat_4x2] (Z.of_nat 1)
  = Raise (ValueError (shape_mismatch_msg (remove_axis 1 (shape feat_3x2))))
  /\ forward_step (ConcatLayer [feat_3x2; feat_4x2] (Z.of_nat 1) None)
     = (Raise (ValueError
                 (shape_mismatch_msg (remove_axis 1 (shape feat_3x2)))),
        ConcatLayer [feat_3x2; feat_4x2] (Z.of_nat 1) None).
Proof.
  apply (@concat_rejects_disagreement nat feat_3x2 [feat_4x2] 1 None
           feat_3x2 feat_4x2).
  - simpl. auto.
  - simpl. auto.
  - simpl. discriminate.
Defined.

(** ** The announced output shape *)

Lemma list_update_middle {B : Type} (pre post : list B) (v x : B) :
  list_update (length pre) v (pre ++ x :: post) = pre ++ v :: post.
Proof.
  induction pre as [|a pre IH]; [reflexivity|].
  cbn [length app list_update]. now rewrite IH.
Qed.

Lemma py_position_middle {B : Type} (pre post : list B) (x : B) (i : Z) :
  i = Z.of_nat (length pre) \/ i = (- Z.of_nat (S (length post)))%Z ->
  ((- Z.of_nat (length (pre ++ x :: post)) <=? i)
   && (i <? Z.of_nat (length (pre ++ x :: post))))%Z = true
  /\ Z.to_nat (if (i <? 0)%Z
               then i + Z.of_nat (length (pre ++ x :: post)) else i)%Z
     = length pre.
Proof.
  intros Hi. rewrite length_app. cbn [length].
  destruct Hi as [-> | ->].
  - split.
    + apply andb_true_intro. split; [apply Z.leb_le|apply Z.ltb_lt]; lia.
    + destruct (Z.ltb_spec (Z.of_nat (length pre)) 0); lia.
  - split.
    + apply andb_true_intro. split; [apply Z.leb_le|apply Z.ltb_lt]; lia.
    + destruct (Z.ltb_spec (- Z.of_nat (S (length post))) 0); lia.
Qed.

Lemma py_index_middle {B : Type} (pre post : list B) (x : B) (i : Z) :
  i = Z.of_nat (length pre) \/ i = (- Z.of_nat (S (length post)))%Z ->
  py_index (pre ++ x :: post) i = Ok x.
Proof.
  intros Hi. unfold py_index.
  destruct (py_position_middle pre post x Hi) as [-> ->].
  rewrite nth_error_app2 by lia. now rewrite Nat.sub_diag.
Qed.

Lemma py_setitem_middle {B : Type} (pre post : list B) (x v : B) (i : Z) :
  i = Z.of_nat (length pre) \/ i = (- Z.of_nat (S (length post)))%Z ->
  py_setitem (pre ++ x :: post) i v = Ok (pre ++ v :: post).
Proof.
  intros Hi. unfold py_setitem.
  destruct (py_position_middle pre post x Hi) as [-> ->].
  now rewrite list_update_middle.
Qed.

(** X21.  [output_shape] of the concatenation layer, for input shapes
    that differ along the axis only and are known there: the announced
    shape is the common shape with the lengths along the axis added up;
    dimensions still unknown elsewhere (the batch size) stay unknown, and
    the axis may be given from either end. *)
Theorem concat_output_shape_sums_axis (pre post : list (option nat))
  (d0 : nat) (ds : list nat) (axis : Z) :
  axis = Z.of_nat (length pre) \/ axis = (- Z.of_nat (S (length post)))%Z ->
  output_shape (map (fun d => pre ++ Some d :: post) (d0 :: ds)) axis
  = Ok (pre ++ Some (fold_left Nat.add ds d0) :: post).
Proof.
  intros Hax. unfold output_shape. cbn [map].
  rewrite py_index_middle by exact Hax. cbn [bind].
  assert (F : forall l a,
             fold_left
               (fun acc sh =>
                  acc <- acc ;;
                  d <- py_index sh axis ;;
                  match d with
                  | Some d => Ok (acc + d)
                  | None => Raise TypeError
                  end)
               (map (fun d => pre ++ Some d :: post) l) (Ok a)
             = Ok (fold_left Nat.add l a)).
  { induction l as [|d l IH]; intros a; [reflexivity|].
    cbn [map fold_left bind]. rewrite py_index_middle by exact Hax.
    cbn [bind]. apply IH. }
  rewrite F. cbn [bind]. now apply py_setitem_middle.
Qed.

Lemma concat_output_shape_sums_axis_witness :
  output_shape (map (fun d => [] ++ Some d :: [None]) [3; 4; 3])
    (- Z.of_nat (S (length [@None nat])))%Z
  = Ok ([] ++ Some (fold_left Nat.add [4; 3] 3) :: [None]).
Proof.
  apply (@concat_output_shape_sums_axis [] [None] 3 [4; 3]).
  right. reflexivity.
Defined.

(** ** Batches *)












(** ** Looking up a layer *)

Lemma find_first_match {B : Type} (f : B -> bool) (l : list B) (x : B) :
  find f l = Some x
  <-> exists pre post,
        l = pre ++ x :: post /\ f x = true
        /\ forall y, In y pre -> f y = false.
Proof.
  induction l as [|a l IH].
  - split; [discriminate|]. intros (pre & post & E & _).
    destruct pre; discriminate.
  - cbn [find]. destruct (f a) eqn:Fa.
    + split.
      * intros E. injection E as <-. exists [], l. repeat split; auto.
        intros y [].
      * intros (pre & post & E & Fx & Hpre). destruct pre as [|b pre].
        -- cbn in E. injection E as ->. reflexivity.
        -- cbn in E. injection E as <- _.
           rewrite (Hpre a (or_introl eq_refl)) in Fa. discriminate.
    + rewrite IH. split.
      * intros (pre & post & -> & Fx & Hpre). exists (a :: pre), post.
        repeat split; auto. intros y [<-|Hy]; auto.
      * intros (pre & post & E & Fx & Hpre). destruct pre as [|b pre].
        -- cbn in E. injection E as -> _. congruence.
        -- cbn in E. injection E as <- ->. exists pre, post.
           repeat split; auto. intros y Hy. apply Hpre. now right.
Qed.

Lemma find_no_match {B : Type} (f : B -> bool) (l : list B) :
  find f l = None <-> forall y, In y l -> f y = false.
Proof.
  split; [apply find_none|].
  induction l as [|a l IH]; intros H; [reflexivity|].
  cbn [find]. rewrite (H a (or_introl eq_refl)).
  apply IH. intros y Hy. apply H. now right.
Qed.

(** X24.  [fetch_layer] by name returns the first layer that bears the
    name, and raises a [ValueError] exactly when no layer bears it. *)
Theorem fetch_layer_by_name_first_match {L : Type} (layer_name : L -> string)
  (layers : list L) (name : string) :
  (forall l,
     fetch_layer layer_name layers (Some name) None = Ok l
     <-> exists pre post,
           layers = pre ++ l :: post /\ layer_name l = name
           /\ forall x, In x pre -> layer_name x <> name)
  /\ (fetch_layer layer_name layers (Some name) None
      = Raise (ValueError ("No layer with name " ++ name
                           ++ " exists in the model."))
      <-> forall x, In x layers -> layer_name x <> name).
Proof.
  unfold fetch_layer. split.
  - intros l.
    destruct (find (fun layer => String.eqb (layer_name layer) name) layers)
      as [l'|] eqn:E.
    + split.
      * intros H. injection H as ->. apply find_first_match in E.
        destruct E as (pre & post & -> & Fx & Hpre). exists pre, post.
        split; [reflexivity|]. split; [now apply String.eqb_eq|].
        intros x Hx. apply String.eqb_neq. now apply Hpre.
      * intros (pre & post & El & Hn & Hpre). f_equal.
        assert (E' : find (fun layer => String.eqb (layer_name layer) name)
                       layers = Some l).
        { apply find_first_match. exists pre, post.
          split; [exact El|]. split; [now apply String.eqb_eq|].
          intros y Hy. apply String.eqb_neq. now apply Hpre. }
        congruence.
    + split; [discriminate|].
      intros (pre & post & El & Hn & Hpre). exfalso.
      rewrite find_no_match in E.
      assert (Hin : In l layers) by (rewrite El; apply in_elt).
      specialize (E l Hin). apply String.eqb_neq in E. contradiction.
  - destruct (find (fun layer => String.eqb (layer_name layer) name) layers)
      as [l'|] eqn:E.
    + split; [discriminate|]. intros H. exfalso.
      apply find_first_match in E. destruct E as (pre & post & El & Fx & _).
      apply String.eqb_eq in Fx. apply (H l'); [|exact Fx].
      rewrite El. apply in_elt.
    + split; [|reflexivity]. intros _ x Hx.
      rewrite find_no_match in E. apply String.eqb_neq. now apply E.
Qed.

Lemma py_index_nth_error {B : Type} (t : list B) (i : Z) :
  (((0 <= i < Z.of_nat (length t))%Z ->
    exists x, py_index t i = Ok x /\ nth_error t (Z.to_nat i) = Some x)
   /\ ((- Z.of_nat (length t) <= i < 0)%Z ->
       exists x, py_index t i = Ok x
                 /\ nth_error t (Z.to_nat (Z.of_nat (length t) + i))
                    = Some x))
  /\ ((i < - Z.of_nat (length t))%Z -> py_index t i = Raise IndexError).
Proof.
  unfold py_index. repeat split.
  - intros Hi.
    destruct (Z.leb_spec (- Z.of_nat (length t)) i); [|lia].
    destruct (Z.ltb_spec i (Z.of_nat (length t))); [|lia].
    destruct (Z.ltb_spec i 0); [lia|]. cbn [andb].
    destruct (nth_error t (Z.to_nat i)) as [x|] eqn:E.
    + now exists x.
    + apply nth_error_None in E. lia.
  - intros Hi.
    destruct (Z.leb_spec (- Z.of_nat (length t)) i); [|lia].
    destruct (Z.ltb_spec i (Z.of_nat (length t))); [|lia].
    destruct (Z.ltb_spec i 0); [|lia]. cbn [andb].
    rewrite Z.add_comm.
    destruct (nth_error t _) as [x|] eqn:E.
    + now exists x.
    + apply nth_error_None in E. lia.
  - intros Hi.
    destruct (Z.leb_spec (- Z.of_nat (length t)) i); [lia|]. reflexivity.
Qed.

(** X25.  [fetch_layer] by index.  An index at or past the number of
    layers raises the [ValueError] that names both; an index from 0 up
    returns the layer at that position; a negative index is not refused
    but counts from the end, as far back as the first layer; further back
    the list lookup raises an [IndexError]. *)
Theorem fetch_layer_by_index {L : Type} (layer_name : L -> string)
  (layers : list L) (idx : Z) :
  ((Z.of_nat (length layers) <= idx)%Z ->
   fetch_layer layer_name layers None (Some idx)
   = Raise (ValueError
              (repr_int idx ++ " is out of bounds since the model "
               ++ "has only " ++ repr_int (Z.of_nat (length layers))
               ++ " layers.")))
  /\ ((0 <= idx < Z.of_nat (length layers))%Z ->
      exists l, fetch_layer layer_name layers None (Some idx) = Ok l
                /\ nth_error layers (Z.to_nat idx) = Some l)
  /\ ((- Z.of_nat (length layers) <= idx < 0)%Z ->
      exists l, fetch_layer layer_name layers None (Some idx) = Ok l
                /\ nth_error layers
                     (Z.to_nat (Z.of_nat (length layers) + idx)) = Some l)
  /\ ((idx < - Z.of_nat (length layers))%Z ->
      fetch_layer layer_name layers None (Some idx) = Raise IndexError).
Proof.
  unfold fetch_layer.
  destruct (py_index_nth_error layers idx) as [[H1 H2] H3].
  repeat split.
  - intros Hi. destruct (Z.leb_spec (Z.of_nat (length layers)) idx); [|lia].
    reflexivity.
  - intros Hi. destruct (Z.leb_spec (Z.of_nat (length layers)) idx); [lia|].
    now apply H1.
  - intros Hi. destruct (Z.leb_spec (Z.of_nat (length layers)) idx); [lia|].
    now apply H2.
  - intros Hi. destruct (Z.leb_spec (Z.of_nat (length layers)) idx); [lia|].
    now apply H3.
Qed.

(** X26.  In a model whose layers bear distinct names, looking a layer up
    by its position and looking it up by its name give the same layer. *)
Theorem fetch_layer_name_and_index_agree {L : Type}
  (layer_name : L -> string) (layers : list L) (i : nat) (l : L) :
  NoDup (map layer_name layers) -> nth_error layers i = Some l ->
  fetch_layer layer_name layers None (Some (Z.of_nat i)) = Ok l
  /\ fetch_layer layer_name layers (Some (layer_name l)) None = Ok l.
Proof.
  intros Hnd Hi.
  assert (Hlt : i < length layers) by (apply nth_error_Some; congruence).
  split.
  - unfold fetch_layer.
    destruct (Z.leb_spec (Z.of_nat (length layers)) (Z.of_nat i)); [lia|].
    destruct (py_index_nth_error layers (Z.of_nat i)) as [[H1 _] _].
    destruct (H1 ltac:(lia)) as (x & -> & Hx). rewrite Nat2Z.id in Hx.
    congruence.
  - unfold fetch_layer.
    destruct (find (fun layer => String.eqb (layer_name layer)
                                   (layer_name l)) layers) as [l'|] eqn:E.
    + f_equal. apply find_first_match in E.
      destruct E as (pre & post & El & Fx & Hpre).
      apply String.eqb_eq in Fx.
      assert (Hi' : nth_error layers (length pre) = Some l').
      { rewrite El, nth_error_app2, Nat.sub_diag by lia. reflexivity. }
      assert (Hn : nth_error (map layer_name layers) i
                   = nth_error (map layer_name layers) (length pre)).
      { rewrite !nth_error_map, Hi, Hi'. cbn. now rewrite Fx. }
      rewrite NoDup_nth_error in Hnd.
      apply Hnd in Hn; [|now rewrite length_map].
      subst i. congruence.
    + exfalso. rewrite find_no_match in E.
      specialize (E l (nth_error_In _ _ Hi)).
      now rewrite String.eqb_refl in E.
Qed.

Lemma fetch_layer_name_and_index_agree_witness :
  fetch_layer (fun s : string => s) ["conv"; "pool"; "dense"]%string None
    (Some (Z.of_nat 1)) = Ok "pool"%string
  /\ fetch_layer (fun s : string => s) ["conv"; "pool"; "dense"]%string
       (Some "pool"%string) None = Ok "pool"%string.
Proof.
  apply (@fetch_layer_name_and_index_agree string (fun s => s)
           ["conv"; "pool"; "dense"]%string 1 "pool"%string).
  - repeat constructor; simpl; intuition discriminate.
  - reflexivity.
Defined.

(** ** The depthwise convolution *)




(** A stack of [m] by [C] matrices times one matrix per channel. *)
Lemma convolve_per_channel (Xm weights : ndarray Q) (m C n k f : nat) :
  shape Xm = [m; C; n; k] -> shape weights = [C; k; f] ->
  exists R,
    convolve Xm weights = Ok R /\ shape R = [m; C; n; f]
    /\ forall b c w j, b < m -> c < C ->
         item R [b; c; w; j]
         = dot k (fun t => item Xm [b; c; w; t])
                 (fun t => item weights [c; t; j]).
Proof.
  intros HX HW. unfold convolve, np_matmul, np_expand_first, ndim.
  cbn [shape]. rewrite HX, HW. cbn [length Nat.eqb orb].
  unfold matmul_core. cbn [shape]. rewrite HX. cbn [rev app].
  rewrite Nat.eqb_refl. cbn [negb bcast_rev]. rewrite Nat.eqb_refl.
  cbn [bind].
  assert (E : (if m =? 1 then Ok m
               else if m =? 1 then Ok 1
               else if 1 =? 1 then Ok m
               else Raise (ValueError
                      "operands could not be broadcast together"))
              = Ok m).
  { destruct (m =? 1); reflexivity. }
  rewrite E. cbn [bind rev app].
  eexists. split; [reflexivity|]. split; [reflexivity|].
  intros b c w j Hb Hc. cbn [item removelast last].
  rewrite (@bcast_index_in_bounds [m; C] [b; c])
    by (cbn [in_bounds]; rewrite !andb_true_iff, !Nat.ltb_lt;
        repeat split; lia).
  replace (bcast_index [1; C] [b; c]) with [0; c].
  - reflexivity.
  - unfold bcast_index. cbn. destruct (Nat.eqb_spec C 1); f_equal.
    f_equal. lia.
Qed.



(** ** The gradients of a depthwise convolution *)

Lemma np_swapaxes_last_two_3 {A : Type} (X : ndarray A) (a b c : nat) :
  shape X = [a; b; c] ->
  np_swapaxes X (-1) (-2) = Ok (np_transpose X [0; 2; 1])
  /\ shape (np_transpose X [0; 2; 1]) = [a; c; b]
  /\ forall i j k,
       item (np_transpose X [0; 2; 1]) [i; k; j] = item X [i; j; k].
Proof.
  intros E. unfold np_swapaxes, np_transpose, ndim. rewrite E.
  repeat split; reflexivity.
Qed.

Lemma np_swapaxes_last_two_4 {A : Type} (X : ndarray A) (a b c d : nat) :
  shape X = [a; b; c; d] ->
  np_swapaxes X (-1) (-2) = Ok (np_transpose X [0; 1; 3; 2])
  /\ shape (np_transpose X [0; 1; 3; 2]) = [a; b; d; c]
  /\ forall i j k l,
       item (np_transpose X [0; 1; 3; 2]) [i; j; l; k] = item X [i; j; k; l].
Proof.
  intros E. unfold np_swapaxes, np_transpose, ndim. rewrite E.
  repeat split; reflexivity.
Qed.

Lemma np_moveaxis_2_1 {A : Type} (X : ndarray A) (a b c d : nat) :
  shape X = [a; b; c; d] ->
  np_moveaxis X 2 1 = Ok (np_transpose X [0; 2; 1; 3])
  /\ shape (np_transpose X [0; 2; 1; 3]) = [a; c; b; d]
  /\ forall i j k l,
       item (np_transpose X [0; 2; 1; 3]) [i; k; j; l] = item X [i; j; k; l].
Proof.
  intros E. unfold np_moveaxis, np_transpose, ndim. rewrite E.
  repeat split; reflexivity.
Qed.

Lemma backprop_ip_depthwise_ok (G Wt : ndarray Q) (m C n K M : nat) :
  shape G = [m; C; n; M] -> shape Wt = [C; K; M] ->
  exists D,
    backprop_ip_depthwise_conv2d G Wt = Ok D /\ shape D = [m; n; C; K]
    /\ forall b c w t, b < m -> c < C ->
         item D [b; w; c; t]
         = dot M (fun f => item G [b; c; w; f])
                 (fun f => item Wt [c; t; f]).
Proof.
  intros HG HW. unfold backprop_ip_depthwise_conv2d.
  destruct (@np_swapaxes_last_two_3 Q Wt C K M HW) as (HS & HSs & HSi).
  rewrite HS. cbn [bind]. set (Ws := np_transpose Wt [0; 2; 1]) in *.
  unfold np_matmul, ndim. rewrite HG, HSs. cbn [length Nat.eqb orb].
  unfold matmul_core. rewrite HG, HSs. cbn [rev app].
  rewrite Nat.eqb_refl. cbn [negb bcast_rev]. rewrite Nat.eqb_refl.
  cbn [bind rev app].
  match goal with
  | |- context [np_moveaxis ?X _ _] => set (D0 := X)
  end.
  destruct (@np_moveaxis_2_1 Q D0 m C n K eq_refl) as (HM & HMs & HMi).
  rewrite HM. eexists. split; [reflexivity|]. split; [exact HMs|].
  intros b c w t Hb Hc. rewrite HMi. unfold D0. cbn [item removelast last].
  rewrite (@bcast_index_in_bounds [m; C] [b; c])
    by (cbn [in_bounds]; rewrite !andb_true_iff, !Nat.ltb_lt;
        repeat split; lia).
  replace (bcast_index [C] [b; c]) with [c].
  - unfold dot. f_equal. apply map_ext. intros f. cbn [app].
    now rewrite HSi.
  - unfold bcast_index. cbn. destruct (Nat.eqb_spec C 1); f_equal. lia.
Qed.

(** X28.  [backprop_ip_depthwise_conv2d] is the transpose of the
    per-channel product that [convolve] computes for a depthwise
    convolution, and it returns its result window-major, with shape
    (batch, windows, channels, kH * kW): for every batch element, channel
    and window, pairing the window's outputs with a gradient [G] gives the
    same number as pairing the window with the input gradient computed
    from [G]. *)
Theorem backprop_ip_depthwise_conv2d_adjoint (X Wt G : ndarray Q)
  (m C n K M : nat) :
  shape X = [m; C; n; K] -> shape Wt = [C; K; M] ->
  shape G = [m; C; n; M] ->
  exists R D,
    convolve X Wt = Ok R /\ backprop_ip_depthwise_conv2d G Wt = Ok D
    /\ shape R = [m; C; n; M] /\ shape D = [m; n; C; K]
    /\ forall b c w, b < m -> c < C -> w < n ->
         (dot M (fun f => item R [b; c; w; f])
                (fun f => item G [b; c; w; f])
          == dot K (fun t => item X [b; c; w; t])
                   (fun t => item D [b; w; c; t]))%Q.
Proof.
  intros HX HW HG.
  destruct (@convolve_per_channel X Wt m C n K M HX HW)
    as (R & HR & HRs & HRi).
  destruct (@backprop_ip_depthwise_ok G Wt m C n K M HG HW)
    as (D & HD & HDs & HDi).
  exists R, D. repeat (split; [assumption|]).
  intros b c w Hb Hc Hw. unfold dot.
  rewrite (qsum_ext
             (fun f => item R [b; c; w; f] * item G [b; c; w; f])%Q
             (fun f => fold_left Qplus
                         (map (fun t => item X [b; c; w; t]
                                        * item Wt [c; t; f]
                                        * item G [b; c; w; f])
                              (seq 0 K)) 0)%Q).
  2:{ intros f _. rewrite (HRi b c w f Hb Hc). unfold dot.
      now rewrite <- qsum_scale. }
  rewrite qsum_exchange. apply qsum_ext. intros t _.
  rewrite (HDi b c w t Hb Hc). unfold dot.
  rewrite Qmult_comm, <- qsum_scale. apply qsum_ext. intros f _. ring.
Qed.

Lemma backprop_ip_depthwise_conv2d_adjoint_witness :
  exists R D,
    convolve depthwise_ip_1x2x3x4 depthwise_weights_2x4x2 = Ok R
    /\ backprop_ip_depthwise_conv2d depthwise_grad_1x2x3x2
         depthwise_weights_2x4x2 = Ok D
    /\ shape R = [1; 2; 3; 2] /\ shape D = [1; 3; 2; 4]
    /\ forall b c w, b < 1 -> c < 2 -> w < 3 ->
         (dot 2 (fun f => item R [b; c; w; f])
                (fun f => item depthwise_grad_1x2x3x2 [b; c; w; f])
          == dot 4 (fun t => item depthwise_ip_1x2x3x4 [b; c; w; t])
                   (fun t => item D [b; w; c; t]))%Q.
Proof.
  apply (@backprop_ip_depthwise_conv2d_adjoint depthwise_ip_1x2x3x4
           depthwise_weights_2x4x2 depthwise_grad_1x2x3x2 1 2 3 4 2);
    reflexivity.
Defined.

Lemma np_sum_axes_0 (X : ndarray Q) (a b c d : nat) :
  shape X = [a; b; c; d] ->
  np_sum_axes X [0%Z]
  = Ok (NdArray [b; c; d]
          (fun idx =>
             fold_left Qplus
               (map (fun n => item X (merge_index [true; false; false; false]
                                        idx (unravel_index [a] n)))
                    (seq 0 (prod [a])))
               0%Q)).
Proof. intros E. unfold np_sum_axes, ndim. rewrite E. reflexivity. Qed.

(** X29.  The kernel gradient of a depthwise convolution: for vectorised
    windows [ip] of shape (batch, channels, windows, kH * kW) and an
    output gradient of shape (batch, channels, windows, multiplier),
    [backprop_kernel_depthwise_conv2d] returns an array of the kernel's
    shape (channels, kH, kW, multiplier) whose entry for channel [c],
    kernel position ([a], [b']) and filter [mu] adds, over the batch
    elements and the windows of that channel alone, the window's entry at
    that position times the gradient of the window for the filter. *)
Theorem backprop_kernel_depthwise_conv2d_sums_windows (ip grad : ndarray Q)
  (m C nW kh kw M : nat) :
  shape ip = [m; C; nW; kh * kw] -> shape grad = [m; C; nW; M] ->
  0 < kh -> 0 < kw -> 0 < M ->
  exists dW,
    backprop_kernel_depthwise_conv2d ip grad (Z.of_nat kh, Z.of_nat kw)
      (Z.of_nat M) = Ok dW
    /\ shape dW = [C; kh; kw; M]
    /\ forall c a b' mu, c < C -> a < kh -> b' < kw -> mu < M ->
         (item dW [c; a; b'; mu]
          == fold_left Qplus
               (map (fun b =>
                       dot nW
                         (fun w => item ip [b; c; w; (a * kw + b')%nat])
                         (fun w => item grad [b; c; w; mu]))
                    (seq 0 m)) 0)%Q.
Proof.
  intros Hip Hgr Hkh Hkw HM.
  unfold backprop_kernel_depthwise_conv2d.
  destruct (@np_swapaxes_last_two_4 Q ip m C nW (kh * kw) Hip)
    as (HS & HSs & HSi).
  rewrite HS. cbn [bind]. set (ipT := np_transpose ip [0; 1; 3; 2]) in *.
  unfold _backprop_kernel_generic_conv, np_matmul, ndim.
  rewrite HSs, Hgr. cbn [length Nat.eqb orb]. unfold matmul_core.
  rewrite HSs, Hgr. cbn [rev app]. rewrite Nat.eqb_refl.
  cbn [negb bcast_rev]. rewrite !Nat.eqb_refl. cbn [bind rev app].
  match goal with
  | |- context [np_sum_axes ?P _] =>
      rewrite (@np_sum_axes_0 P m C (kh * kw) M eq_refl)
  end.
  cbn [bind].
  change [(-1)%Z; Z.of_nat kh; Z.of_nat kw; Z.of_nat M]
    with (map Z.of_nat [] ++ (-1)%Z :: map Z.of_nat [kh; kw; M]).
  rewrite (@np_reshape_infer Q _ C [] [kh; kw; M]);
    [|cbn; nia|unfold size; cbn; nia].
  cbn [app]. eexists. split; [reflexivity|]. split; [reflexivity|].
  intros c a b' mu Hc Ha Hb' Hmu. cbn [item shape].
  assert (Ht : a * kw + b' < kh * kw) by nia.
  replace (ravel_index [C; kh; kw; M] [c; a; b'; mu])
    with (ravel_index [C; kh * kw; M] [c; a * kw + b'; mu])
    by (cbn [ravel_index prod fold_right]; nia).
  rewrite unravel_ravel_index by (now apply in_bounds_3).
  replace (prod [m]) with m by (cbn; lia).
  apply qsum_ext. intros b Hb. apply in_seq in Hb.
  cbn [unravel_index prod fold_right merge_index hd tl removelast last app].
  rewrite Nat.div_1_r.
  rewrite (@bcast_index_in_bounds [m; C] [b; c])
    by (cbn [in_bounds]; rewrite !andb_true_iff, !Nat.ltb_lt;
        repeat split; lia).
  unfold dot. apply qsum_ext. intros w _. cbn [app]. rewrite HSi.
  reflexivity.
Qed.

Lemma backprop_kernel_depthwise_conv2d_sums_windows_witness :
  exists dW,
    backprop_kernel_depthwise_conv2d depthwise_ip_1x2x3x4
      depthwise_grad_1x2x3x2 (Z.of_nat 2, Z.of_nat 2) (Z.of_nat 2) = Ok dW
    /\ shape dW = [2; 2; 2; 2]
    /\ forall c a b' mu, c < 2 -> a < 2 -> b' < 2 -> mu < 2 ->
         (item dW [c; a; b'; mu]
          == fold_left Qplus
               (map (fun b =>
                       dot 3
                         (fun w => item depthwise_ip_1x2x3x4
                                     [b; c; w; (a * 2 + b')%nat])
                         (fun w => item depthwise_grad_1x2x3x2
                                     [b; c; w; mu]))
                    (seq 0 1)) 0)%Q.
Proof.
  apply (@backprop_kernel_depthwise_conv2d_sums_windows depthwise_ip_1x2x3x4
           depthwise_grad_1x2x3x2 1 2 3 2 2 2); try reflexivity; lia.
Defined.

Lemma np_sum_axes_01_3 (X : ndarray Q) (a b c : nat) :
  shape X = [a; b; c] ->
  np_sum_axes X [0%Z; 1%Z]
  = Ok (NdArray [c]
          (fun idx =>
             fold_left Qplus
               (map (fun n => item X (merge_index [true; true; false]
                                        idx (unravel_index [a; b] n)))
                    (seq 0 (prod [a; b])))
               0%Q)).
Proof. intros E. unfold np_sum_axes, ndim. rewrite E. reflexivity. Qed.

(** X30.  [backprop_bias_conv] on an output gradient of shape (batch,
    windows, filters), summed over the first two axes: with the reshape
    (1, 1, 1) the result has the shape (filters, 1, 1, 1) of the biases
    that [Conv.build] creates, without a reshape it has shape (filters,),
    and in both cases the entry for filter [f] is the sum of the gradient
    for [f] over every batch element and window; naming an axis twice is
    a [ValueError]. *)
Theorem backprop_bias_conv_sums_batch_and_windows (grad : ndarray Q)
  (m nW F : nat) :
  shape grad = [m; nW; F] -> 0 < F ->
  (exists dB,
     backprop_bias_conv grad [0%Z; 1%Z] (Some [1%Z; 1%Z; 1%Z]) = Ok dB
     /\ shape dB = [F; 1; 1; 1]
     /\ forall f, f < F ->
          item dB [f; 0; 0; 0]
          = grid_sum m nW (fun b w => item grad [b; w; f]))
  /\ (exists dB,
        backprop_bias_conv grad [0%Z; 1%Z] None = Ok dB
        /\ shape dB = [F]
        /\ forall f, f < F ->
             item dB [f] = grid_sum m nW (fun b w => item grad [b; w; f]))
  /\ backprop_bias_conv grad [0%Z; 0%Z] None
     = Raise (ValueError "duplicate value in 'axis'").
Proof.
  intros Hg HF. unfold backprop_bias_conv.
  rewrite (@np_sum_axes_01_3 grad m nW F Hg). cbn [bind].
  assert (Hsum : forall f,
             fold_left Qplus
               (map (fun n => item grad (merge_index [true; true; false] [f]
                                           (unravel_index [m; nW] n)))
                    (seq 0 (prod [m; nW]))) 0%Q
             = grid_sum m nW (fun b w => item grad [b; w; f])).
  { intros f. unfold grid_sum.
    replace (prod [m; nW]) with (m * nW) by (cbn; lia).
    f_equal. apply map_ext. intros k.
    cbn [unravel_index prod fold_right merge_index hd tl].
    now rewrite !Nat.mul_1_r, Nat.div_1_r. }
  split; [|split].
  - change [(-1)%Z; 1%Z; 1%Z; 1%Z]
      with (map Z.of_nat [] ++ (-1)%Z :: map Z.of_nat [1; 1; 1]).
    rewrite (@np_reshape_infer Q _ F [] [1; 1; 1]);
      [|cbn; lia|unfold size; cbn; lia].
    cbn [app]. eexists. split; [reflexivity|]. split; [reflexivity|].
    intros f Hf. cbn [item shape].
    replace (ravel_index [F; 1; 1; 1] [f; 0; 0; 0])
      with (ravel_index [F] [f]) by (cbn; lia).
    rewrite unravel_ravel_index
      by (cbn [in_bounds]; apply andb_true_intro; split;
          [now apply Nat.ltb_lt|reflexivity]).
    apply Hsum.
  - eexists. split; [reflexivity|]. split; [reflexivity|].
    intros f Hf. cbn [item]. apply Hsum.
  - unfold np_sum_axes, ndim. rewrite Hg. reflexivity.
Qed.

Lemma backprop_bias_conv_sums_batch_and_windows_witness :
  (exists dB,
     backprop_bias_conv vec_grad_2x3x2 [0%Z; 1%Z] (Some [1%Z; 1%Z; 1%Z])
     = Ok dB
     /\ shape dB = [2; 1; 1; 1]
     /\ forall f, f < 2 ->
          item dB [f; 0; 0; 0]
          = grid_sum 2 3 (fun b w => item vec_grad_2x3x2 [b; w; f]))
  /\ (exists dB,
        backprop_bias_conv vec_grad_2x3x2 [0%Z; 1%Z] None = Ok dB
        /\ shape dB = [2]
        /\ forall f, f < 2 ->
             item dB [f]
             = grid_sum 2 3 (fun b w => item vec_grad_2x3x2 [b; w; f]))
  /\ backprop_bias_conv vec_grad_2x3x2 [0%Z; 0%Z] None
     = Raise (ValueError "duplicate value in 'axis'").
Proof.
  apply (@backprop_bias_conv_sums_batch_and_windows vec_grad_2x3x2 2 3 2);
    [reflexivity|lia].
Defined.
